(** * parsercombinator: input states and parser combinators

    A shallow embedding of the Go package [parser]:

    - [utf8]      the decoder of Go's [unicode/utf8] that [State.Rune] calls;
    - [InMemory]  the flat-buffer [State] and the combinators of [parser.go],
                  which are written against that [State] (they read its
                  [buffer] and [offset] fields);
    - [Chunked]   the streaming [State]: a linked chain of [data] nodes that
                  is extended lazily by pulling from an [io.Reader].

    Go integers are modelled as [Z] with the 64-bit wrap-around written out
    ([wrap64]); a byte is a [Z] in [0, 256); a Go [string] is its sequence of
    bytes. *)

From Stdlib Require Import ZArith Lia Bool String Ascii.
From stdpp Require Import base list.

Open Scope Z_scope.

(** ** Machine integers, bytes and strings *)

(** Go's [byte] and [rune] are both carried by [Z]. *)
Abbreviation byte := Z.
Abbreviation rune := Z.

(** Two's complement wrap-around of [int]/[int64] arithmetic. *)
Definition wrap64 (z : Z) : Z := (z + 2 ^ 63) mod 2 ^ 64 - 2 ^ 63.

(** [len(x)] of a slice, as a Go [int]. *)
Definition len {A} (l : list A) : Z := Z.of_nat (length l).

(** The bytes of a Go string literal. *)
Definition str (s : string) : list byte :=
  map (fun a => Z.of_N (N_of_ascii a)) (list_ascii_of_string s).

(** Go's zero value of a type ([var zero T]). *)
Class Zero (T : Type) := zero : T.

#[global] Instance Zero_Z : Zero Z := 0.
#[global] Instance Zero_list {A} : Zero (list A) := [].
#[global] Instance Zero_prod {A B} `{Zero A, Zero B} : Zero (A * B) := (zero, zero).

(** [type Empty struct{}] *)
Inductive Empty : Type := EmptyV.
#[global] Instance Zero_Empty : Zero Empty := EmptyV.

(** [type Position struct { Offset int64; Line, Column int }] *)
Record Position := mkPosition { Offset : Z; Line : Z; Column : Z }.
#[global] Instance Zero_Position : Zero Position := mkPosition 0 0 0.

(** The error values of the package: [io.EOF], [ErrNoMatch],
    [RuneError{Position}], and any other error value a parser or a reader
    may produce. *)
Inductive error : Type :=
| EOF
| ErrNoMatch
| RuneError (p : Position)
| ErrOther (tag : nat).

(** ** unicode/utf8 *)

Module utf8.

(** [utf8.RuneError], the code point U+FFFD *)
Definition RuneError : rune := 0xFFFD.

(** The information the [first] table of the library keeps for a leading
    byte: ASCII, illegal, or the size of the sequence with the accepted
    range of its second byte. *)
Inductive lead : Type :=
| LeadAscii
| LeadInvalid
| LeadSeq (size : Z) (lo hi : byte).

Definition locb : byte := 0x80.
Definition hicb : byte := 0xBF.

Definition first (p0 : byte) : lead :=
  if p0 <? 0x80 then LeadAscii
  else if p0 <? 0xC2 then LeadInvalid
  else if p0 <? 0xE0 then LeadSeq 2 locb hicb
  else if p0 =? 0xE0 then LeadSeq 3 0xA0 hicb
  else if p0 <? 0xED then LeadSeq 3 locb hicb
  else if p0 =? 0xED then LeadSeq 3 locb 0x9F
  else if p0 <? 0xF0 then LeadSeq 3 locb hicb
  else if p0 =? 0xF0 then LeadSeq 4 0x90 hicb
  else if p0 <? 0xF4 then LeadSeq 4 locb hicb
  else if p0 =? 0xF4 then LeadSeq 4 locb 0x8F
  else LeadInvalid.

Definition cont (b : byte) : bool := (locb <=? b) && (b <=? hicb).

(** [func DecodeRune(p []byte) (r rune, size int)]: the first encoding in
    [p] and its width; [(RuneError, 0)] on empty input and
    [(RuneError, 1)] on an invalid or truncated encoding. *)
Definition DecodeRune (p : list byte) : rune * Z :=
  match p with
  | [] => (RuneError, 0)
  | p0 :: p' =>
    match first p0 with
    | LeadAscii => (p0, 1)
    | LeadInvalid => (RuneError, 1)
    | LeadSeq sz lo hi =>
      if len p <? sz then (RuneError, 1) else
      match p' with
      | [] => (RuneError, 1)
      | b1 :: p'' =>
        if (b1 <? lo) || (hi <? b1) then (RuneError, 1)
        else if sz <=? 2 then
          (Z.lor (Z.shiftl (Z.land p0 0x1F) 6) (Z.land b1 0x3F), 2)
        else
        match p'' with
        | [] => (RuneError, 1)
        | b2 :: p''' =>
          if negb (cont b2) then (RuneError, 1)
          else if sz <=? 3 then
            (Z.lor (Z.lor (Z.shiftl (Z.land p0 0x0F) 12)
                          (Z.shiftl (Z.land b1 0x3F) 6))
                   (Z.land b2 0x3F), 3)
          else
          match p''' with
          | [] => (RuneError, 1)
          | b3 :: _ =>
            if negb (cont b3) then (RuneError, 1)
            else
              (Z.lor (Z.lor (Z.lor (Z.shiftl (Z.land p0 0x07) 18)
                                   (Z.shiftl (Z.land b1 0x3F) 12))
                            (Z.shiftl (Z.land b2 0x3F) 6))
                     (Z.land b3 0x3F), 4)
          end
        end
      end
    end
  end.

(** [for _, r := range s] over a string: the runes [DecodeRune] yields one
    after the other, an invalid byte counting as [RuneError] of width 1. *)
Fixpoint range_fuel (fuel : nat) (s : list byte) : list rune :=
  match fuel, s with
  | O, _ | _, [] => []
  | S fuel', _ :: _ =>
    let '(r, w) := DecodeRune s in
    r :: range_fuel fuel' (drop (Z.to_nat w) s)
  end.

Definition range (s : list byte) : list rune := range_fuel (length s) s.

End utf8.

(** ** The flat-buffer State and the combinators of parser.go *)

Module InMemory.

(** [type State struct { buffer []byte; offset int64;
                         lineCount, lineOffset int64 }] *)
Record State := mkState {
  buffer : list byte;
  offset : Z;
  lineCount : Z;
  lineOffset : Z
}.

#[global] Instance Zero_State : Zero State := mkState [] 0 0 0.

(** What a call [(T, State, error)] produces: the three results, or a
    run-time panic (index or slice bounds out of range). *)
Inductive outcome (T : Type) : Type :=
| Ret (v : T) (next : State) (err : option error)
| Panic.
Arguments Ret {T} v next err.
Arguments Panic {T}.

(** [func (s State) consume(size int) (State, error)] *)
Definition consume (s : State) (size : Z) : State * option error :=
  (mkState (buffer s) (wrap64 (offset s + size)) (lineCount s) (lineOffset s),
   None).

(** [func (s State) Rune() (rune, State, error)];
    [s.buffer[s.offset:]] panics unless [0 <= offset <= len(buffer)]. *)
Definition Rune (s : State) : outcome rune :=
  if (offset s <? 0) || (len (buffer s) <? offset s) then Panic
  else
    let '(r, rs) := utf8.DecodeRune (drop (Z.to_nat (offset s)) (buffer s)) in
    let '(next, err) := consume s rs in
    Ret r next err.

(** [func (s State) Byte() (byte, State, error)];
    [s.buffer[s.offset]] panics unless [0 <= offset < len(buffer)]. *)
Definition Byte (s : State) : outcome byte :=
  if offset s <? 0 then Panic
  else
    match buffer s !! Z.to_nat (offset s) with
    | None => Panic
    | Some b =>
      let '(next, err) := consume s 1 in
      Ret b next err
    end.

(** [func (s State) Line() int64] and [func (s State) Column() int64] *)
Definition State_Line (s : State) : Z := wrap64 (lineCount s + 1).
Definition State_Column (s : State) : Z := wrap64 (offset s - lineOffset s).

(** [func (s State) Position() Position] *)
Definition State_Position (s : State) : Position :=
  mkPosition (offset s) (State_Line s) (State_Column s).

(** [type Parser[T any] func(State) (T, State, error)]; this State has
    no store behind it, so a parser is a function of the State alone. *)
Definition Parser (T : Type) : Type := State -> outcome T.

(** [State{buffer: []byte(input), offset: 0}], the State of [DoParse]. *)
Definition initial (input : list byte) : State := mkState input 0 0 0.

(** [func DoParse[T any](parser Parser[T], input string) (T, error)];
    [None] is a panic. *)
Definition DoParse {T} (parser : Parser T) (input : list byte)
  : option (T * option error) :=
  match parser (initial input) with
  | Ret result _ err => Some (result, err)
  | Panic => None
  end.

(** [func AndThen[T, U any](parser Parser[T], handler func(T) Parser[U]) Parser[U]] *)
Definition AndThen {T U} `{Zero U}
    (parser : Parser T) (handler : T -> Parser U) : Parser U :=
  fun s =>
    match parser s with
    | Panic => Panic
    | Ret t next (Some err) => Ret zero s (Some err)
    | Ret t next None => handler t next
    end.

(** The loop of [ExactString]: [s] is the entry State, [next] the cursor. *)
Fixpoint ExactString_loop (token : list rune) (s next : State) : outcome Empty :=
  match token with
  | [] => Ret EmptyV next None
  | tokenRune :: token' =>
    match Rune next with
    | Panic => Panic
    | Ret r next' (Some err) => Ret EmptyV s (Some err)
    | Ret r next' None =>
      if negb (tokenRune =? r) then Ret EmptyV s (Some ErrNoMatch)
      else ExactString_loop token' s next'
    end
  end.

(** [func ExactString(token string) Parser[Empty]] *)
Definition ExactString (token : list byte) : Parser Empty :=
  fun s => ExactString_loop (utf8.range token) s s.

Fixpoint ExactBytes_loop (token : list byte) (s next : State) : outcome Empty :=
  match token with
  | [] => Ret EmptyV next None
  | tokenByte :: token' =>
    match Byte next with
    | Panic => Panic
    | Ret b next' (Some err) => Ret EmptyV s (Some err)
    | Ret b next' None =>
      if negb (tokenByte =? b) then Ret EmptyV s (Some ErrNoMatch)
      else ExactBytes_loop token' s next'
    end
  end.

(** [func ExactBytes(token []byte) Parser[Empty]] *)
Definition ExactBytes (token : list byte) : Parser Empty :=
  fun s => ExactBytes_loop token s s.

(** [func Sequence2[T, U, R any](tParser Parser[T], uParser Parser[U],
                                 mapper func(T, U) (R, error)) Parser[R]];
    the second parser is called on [s]. *)
Definition Sequence2 {T U R} `{Zero R}
    (tParser : Parser T) (uParser : Parser U)
    (mapper : T -> U -> R * option error) : Parser R :=
  fun s =>
    match tParser s with
    | Panic => Panic
    | Ret t next (Some err) => Ret zero s (Some err)
    | Ret t next None =>
      match uParser s with
      | Panic => Panic
      | Ret u next (Some err) => Ret zero s (Some err)
      | Ret u next None =>
        match mapper t u with
        | (r, Some err) => Ret zero s (Some err)
        | (r, None) => Ret r next None
        end
      end
    end.

(** [func ConditionRune(cond func(rune) bool) Parser[rune]] *)
Definition ConditionRune (cond : rune -> bool) : Parser rune :=
  fun s =>
    match Rune s with
    | Panic => Panic
    | Ret r next (Some err) => Ret 0 s (Some err)
    | Ret r next None =>
      if negb (cond r) then Ret 0 s (Some ErrNoMatch)
      else Ret r next None
    end.

(** [s.buffer[start:end]]: panics unless [0 <= start <= end <= cap]; the
    capacity of the buffer is taken to be its length. *)
Definition slice (b : list byte) (lo hi : Z) : option (list byte) :=
  if (lo <? 0) || (hi <? lo) || (len b <? hi) then None
  else Some (take (Z.to_nat (hi - lo)) (drop (Z.to_nat lo) b)).

(** [func GetString[T any](parser Parser[T]) Parser[string]];
    both [start] and [end] are read from [s]. *)
Definition GetString {T} (parser : Parser T) : Parser (list byte) :=
  fun s =>
    let start := offset s in
    match parser s with
    | Panic => Panic
    | Ret _ next (Some err) => Ret [] s (Some err)
    | Ret _ next None =>
      let end_ := offset s in
      match slice (buffer s) start end_ with
      | None => Panic
      | Some text => Ret text next None
      end
    end.

(** [func GetBytes[T any](parser Parser[T]) Parser[[]byte]];
    [make([]byte, end-start)] panics on a negative length. *)
Definition GetBytes {T} (parser : Parser T) : Parser (list byte) :=
  fun s =>
    let start := offset s in
    match parser s with
    | Panic => Panic
    | Ret _ next (Some err) => Ret [] s (Some err)
    | Ret _ next None =>
      let end_ := offset s in
      if wrap64 (end_ - start) <? 0 then Panic
      else
        match slice (buffer s) start end_ with
        | None => Panic
        | Some src => Ret (take (Z.to_nat (wrap64 (end_ - start))) src) next None
        end
    end.

(** [func GetPositions[T any](parser Parser[T]) Parser[[2]Position]] *)
Definition GetPositions {T} (parser : Parser T) : Parser (Position * Position) :=
  fun s =>
    let start := State_Position s in
    match parser s with
    | Panic => Panic
    | Ret _ next (Some err) => Ret zero s (Some err)
    | Ret _ next None =>
      let end_ := State_Position s in
      Ret (start, end_) next None
    end.

(** [s.buffer[s.offset:]]: the input a State has not consumed yet. *)
Definition remaining (s : State) : list byte :=
  drop (Z.to_nat (offset s)) (buffer s).

(** The State [n] bytes further on in the same buffer. *)
Definition advance (s : State) (n : Z) : State :=
  mkState (buffer s) (offset s + n) (lineCount s) (lineOffset s).

End InMemory.

(** ** The streaming State: a lazily extended chain of data nodes *)

Module Chunked.

(** *** The store

    [*data] nodes are shared between States and their [next] field is
    assigned after creation, byte slices share backing arrays, and an
    [io.Reader] changes when it is read: all three live in a store and are
    referred to by address. *)

(** What one call [Read(p)] of an [io.Reader] does: the bytes it stored
    into [p] (from index 0), the count [n] and the error it returned. *)
Record ReadResult := mkRead {
  written : list byte;
  count : Z;
  rerr : option error
}.

(** [io.Reader]: [Read] on an object in state [R] with [len(p)] given. *)
Class Reader (R : Type) := Read : R -> Z -> ReadResult * R.

(** A [[]byte] value: backing array, start, length and capacity. *)
Record slice := mkSlice { arr : nat; off : nat; slen : Z; scap : Z }.

(** [type data struct { r io.Reader; err error; buf []byte; next *data }],
    with [rd] for [r] and [derr] for [err]; a nil [r] or [next] is [None],
    any other is the address of the reader or of the node. *)
Record data := mkData {
  rd : option nat;
  derr : option error;
  buf : slice;
  next : option nat
}.

(** The store: backing arrays, [data] nodes and readers, by address. *)
Record world (R : Type) := mkWorld {
  arrays : list (list byte);
  nodes : list data;
  readers : list R
}.
Arguments mkWorld {R} arrays nodes readers.
Arguments arrays {R} w.
Arguments nodes {R} w.
Arguments readers {R} w.

(** [type State struct { data *data; datap int; offset int64;
                         line, column int }], with [sdata] for the field
    [data]; a nil pointer is [None]. *)
Record State := mkState {
  sdata : option nat;
  datap : Z;
  offset : Z;
  line : Z;
  column : Z
}.

(** [State{}] *)
#[global] Instance Zero_State : Zero State := mkState None 0 0 0 0.

(** A call returns with the store it leaves, panics, or the model runs
    out of fuel (the recursion of [Rune] and [Byte] over empty nodes is
    bounded by the reader only). *)
Inductive result (R A : Type) : Type :=
| Done (a : A) (w : world R)
| Panic
| OutOfFuel.
Arguments Done {R A} a w.
Arguments Panic {R A}.
Arguments OutOfFuel {R A}.

Section Store.
Context {R : Type}.

(** The content of the backing array at address [a]. *)
Definition array_at (w : world R) (a : nat) : list byte :=
  default [] (arrays w !! a).

(** The elements [b[0], ..., b[len(b)-1]] of a slice. *)
Definition bytes (w : world R) (b : slice) : list byte :=
  take (Z.to_nat (slen b)) (drop (off b) (array_at w (arr b))).

(** Allocation: the new object gets the next free address. *)
Definition alloc_array (w : world R) (content : list byte) : nat * world R :=
  (length (arrays w),
   mkWorld (arrays w ++ [content]) (nodes w) (readers w)).

Definition alloc_data (w : world R) (d : data) : nat * world R :=
  (length (nodes w),
   mkWorld (arrays w) (nodes w ++ [d]) (readers w)).

(** [d.next = n] on the node at address [a]. *)
Definition set_next (w : world R) (a n : nat) : world R :=
  match nodes w !! a with
  | None => w
  | Some d =>
    mkWorld (arrays w)
            (<[a := mkData (rd d) (derr d) (buf d) (Some n)]> (nodes w))
            (readers w)
  end.

(** [*s.data]; [None] is the nil-pointer dereference. *)
Definition deref (w : world R) (s : State) : option data :=
  match sdata s with
  | None => None
  | Some a => nodes w !! a
  end.

(** [copy(dst, src)] on the contents: the result and the count. *)
Definition copy (dst src : list byte) : list byte * Z :=
  let k := Nat.min (length dst) (length src) in
  (take k src ++ drop k dst, Z.of_nat k).

(** [copy(result[p:], src)] into a fixed-length result; [result[p:]]
    panics unless [0 <= p <= len(result)]. *)
Definition copy_at (result : list byte) (p : Z) (src : list byte)
  : option (list byte * Z) :=
  if (p <? 0) || (len result <? p) then None
  else
    let '(tl, k) := copy (drop (Z.to_nat p) result) src in
    Some (take (Z.to_nat p) result ++ tl, k).

(** [make([]byte, size)] *)
Definition make (size : Z) : list byte := replicate (Z.to_nat size) 0.

End Store.

(** *** Positions *)

(** [func (s State) Line() int] and [func (s State) Column() int] *)
Definition State_Line (s : State) : Z := wrap64 (line s + 1).
Definition State_Column (s : State) : Z := wrap64 (column s + 1).

(** [func (s State) Position() Position] *)
Definition State_Position (s : State) : Position :=
  mkPosition (offset s) (State_Line s) (State_Column s).

(** [func (s State) consume(count int, v rune) (State, error)] *)
Definition consume (s : State) (count : Z) (v : rune) : State * option error :=
  let datap' := wrap64 (datap s + count) in
  let offset' := wrap64 (offset s + count) in
  let column' := wrap64 (column s + 1) in
  if v =? 10 then
    (mkState (sdata s) datap' offset' (wrap64 (line s + 1)) 0, None)
  else
    (mkState (sdata s) datap' offset' (line s) column', None).

Section Operations.
Context {R : Type} `{Reader R}.

(** *** Constructors of nodes and States *)

Definition minDataSize : Z := 8.

(** [func newDataString(s string) *data] *)
Definition newDataString (s : list byte) (w : world R) : nat * world R :=
  let '(a, w1) := alloc_array w s in
  alloc_data w1 (mkData None None (mkSlice a 0 (len s) (len s)) None).

(** [func newDataBytes(b []byte) *data]: a fresh array of [len(b)]
    bytes, then [copy(d.buf, b)]. *)
Definition newDataBytes (b : slice) (w : world R) : nat * world R :=
  let fresh := make (slen b) in
  let '(content, _) := copy fresh (bytes w b) in
  let '(a, w1) := alloc_array w content in
  alloc_data w1 (mkData None None (mkSlice a 0 (slen b) (slen b)) None).

(** [func newDataReaderSize(r io.Reader, size int) *data]: one [Read]
    into a fresh buffer of [size] bytes, which is then cut to the [n]
    bytes read; on [io.EOF] the node keeps neither reader nor error. *)
Definition newDataReaderSize (r : nat) (size : Z) (w : world R)
  : result R nat :=
  if size <? 0 then Panic
  else
    match readers w !! r with
    | None => Panic
    | Some st =>
      let '(res, st') := Read st size in
      let '(content, _) := copy (make size) (written res) in
      let '(a, w1) :=
        alloc_array (mkWorld (arrays w) (nodes w) (<[r := st']> (readers w)))
                    content in
      if (count res <? 0) || (size <? count res) then Panic
      else
        let b := mkSlice a 0 (count res) size in
        let d :=
          match rerr res with
          | Some EOF => mkData None None b None
          | e => mkData (Some r) e b None
          end in
        let '(p, w2) := alloc_data w1 d in
        Done p w2
    end.

(** [func NewStateString(s string) State] *)
Definition NewStateString (s : list byte) (w : world R) : State * world R :=
  let '(p, w1) := newDataString s w in
  (mkState (Some p) 0 0 0 0, w1).

(** [func NewStateBytes(b []byte) State] *)
Definition NewStateBytes (b : slice) (w : world R) : State * world R :=
  let '(p, w1) := newDataBytes b w in
  (mkState (Some p) 0 0 0 0, w1).

(** [func NewStateReaderSize(r io.Reader, size int) State] *)
Definition NewStateReaderSize (r : nat) (size : Z) (w : world R)
  : result R State :=
  let size := Z.max size minDataSize in
  match newDataReaderSize r size w with
  | Done p w1 => Done (mkState (Some p) 0 0 0 0) w1
  | Panic => Panic
  | OutOfFuel => OutOfFuel
  end.

(** [func NewStateReader(r io.Reader) State] *)
Definition NewStateReader (r : nat) (w : world R) : result R State :=
  NewStateReaderSize r 1024 w.

(** *** Reading *)

(** [func (s State) nextDataState() State] *)
Definition nextDataState (s : State) (w : world R) : option State :=
  match deref w s with
  | None => None
  | Some d =>
    match next d with
    | None => None
    | Some p => Some (mkState (Some p) 0 (offset s) (line s) (column s))
    end
  end.

(** [s.data.next = newDataReaderSize(s.data.r, cap(s.data.buf))] *)
Definition extend (s : State) (d : data) (r : nat) (w : world R)
  : result R unit :=
  match newDataReaderSize r (scap (buf d)) w with
  | Done p w1 =>
    match sdata s with
    | Some a => Done tt (set_next w1 a p)
    | None => Panic
    end
  | Panic => Panic
  | OutOfFuel => OutOfFuel
  end.

(** [func (s State) Byte() (byte, State, error)] *)
Fixpoint Byte (fuel : nat) (s : State) (w : world R)
  : result R (byte * State * option error) :=
  match fuel with
  | O => OutOfFuel
  | S fuel' =>
    match deref w s with
    | None => Panic
    | Some d =>
      if datap s <? slen (buf d) then
        if datap s <? 0 then Panic
        else
          match bytes w (buf d) !! Z.to_nat (datap s) with
          | None => Panic
          | Some b =>
            let '(next, err) := consume s 1 b in
            Done (b, next, err) w
          end
      else
        match rd d, next d with
        | Some r, None =>
          match extend s d r w with
          | Done _ w1 =>
            match nextDataState s w1 with
            | None => Panic
            | Some s' => Byte fuel' s' w1
            end
          | Panic => Panic
          | OutOfFuel => OutOfFuel
          end
        | _, Some _ =>
          match nextDataState s w with
          | None => Panic
          | Some s' => Byte fuel' s' w
          end
        | None, None => Done (0, s, Some EOF) w
        end
    end
  end.

(** The second decode of [Rune], once the next node is there: over the
    rest of the node of [s] and up to six bytes of the next node. *)
Definition Rune_across (s : State) (d : data) (tail : list byte) (w : world R)
  : result R (rune * State * option error) :=
  match nextDataState s w with
  | None => Panic
  | Some nextState =>
    match deref w nextState with
    | None => Panic
    | Some dn =>
      let nextDataPMax := Z.min (slen (buf dn)) 6 in
      let runeBytes := tail ++ take (Z.to_nat nextDataPMax) (bytes w (buf dn)) in
      let '(r, rs) := utf8.DecodeRune runeBytes in
      if r =? utf8.RuneError then
        Done (0, s, Some (RuneError (State_Position s))) w
      else
        Done (r,
              mkState (sdata nextState)
                      (wrap64 (rs - wrap64 (slen (buf d) - datap s)))
                      (offset nextState) (line nextState) (column nextState),
              None) w
    end
  end.

(** [func (s State) Rune() (rune, State, error)]; the call of
    [log.Println] on the cached-next path has no effect on the results. *)
Fixpoint Rune (fuel : nat) (s : State) (w : world R)
  : result R (rune * State * option error) :=
  match fuel with
  | O => OutOfFuel
  | S fuel' =>
    match deref w s with
    | None => Panic
    | Some d =>
      if datap s <? slen (buf d) then
        if datap s <? 0 then Panic
        else
          let tail := drop (Z.to_nat (datap s)) (bytes w (buf d)) in
          let '(r, rs) := utf8.DecodeRune tail in
          if r =? utf8.RuneError then
            match rd d, next d with
            | None, _ => Done (0, s, Some (RuneError (State_Position s))) w
            | Some rdr, None =>
              (* There is more data to read and next to initialize. *)
              match extend s d rdr w with
              | Done _ w1 => Rune_across s d tail w1
              | Panic => Panic
              | OutOfFuel => OutOfFuel
              end
            | Some _, Some _ => Rune_across s d tail w
            end
          else
            let '(next, err) := consume s rs r in
            Done (r, next, err) w
      else
        match rd d, next d with
        | Some rdr, None =>
          match extend s d rdr w with
          | Done _ w1 =>
            match nextDataState s w1 with
            | None => Panic
            | Some s' => Rune fuel' s' w1
            end
          | Panic => Panic
          | OutOfFuel => OutOfFuel
          end
        | _, Some _ =>
          match nextDataState s w with
          | None => Panic
          | Some s' => Rune fuel' s' w
          end
        | None, None => Done (0, s, Some EOF) w
        end
    end
  end.

(** *** Span extraction *)

(** [start.data.buf[lo:hi]]: [0 <= lo <= hi <= cap(buf)]. *)
Definition subslice (w : world R) (b : slice) (lo hi : Z) : option (list byte) :=
  if (lo <? 0) || (hi <? lo) || (scap b <? hi) then None
  else Some (take (Z.to_nat (hi - lo))
                  (drop (off b + Z.to_nat lo) (array_at w (arr b)))).

(** [s.data.buf[lo:]]: [0 <= lo <= len(buf)]. *)
Definition suffix (w : world R) (b : slice) (lo : Z) : option (list byte) :=
  if (lo <? 0) || (slen b <? lo) then None
  else Some (drop (Z.to_nat lo) (bytes w b)).

(** The loop of [keepBytes]: copy whole buffers until [end.data]. *)
Fixpoint keepBytes_loop (fuel : nat) (w : world R)
    (result : list byte) (resultp : Z) (current end_ : State)
  : option (list byte * Z) :=
  if decide (sdata current = sdata end_) then Some (result, resultp)
  else
    match fuel with
    | O => None
    | S fuel' =>
      match deref w current with
      | None => None
      | Some d =>
        match copy_at result resultp (bytes w (buf d)) with
        | None => None
        | Some (result', n) =>
          match nextDataState current w with
          | None => None
          | Some current' =>
            keepBytes_loop fuel' w result' (wrap64 (resultp + n)) current' end_
          end
        end
      end
    end.

(** [func keepBytes(start, end State) []byte]; [None] is a panic or a
    chain longer than [fuel] nodes. *)
Definition keepBytes (fuel : nat) (w : world R) (start end_ : State)
  : option (list byte) :=
  match deref w start, deref w end_ with
  | Some ds, Some de =>
    if decide (sdata start = sdata end_) then
      subslice w (buf ds) (datap start) (datap end_)
    else
      let size := wrap64 (offset end_ - offset start) in
      if size <? 0 then None
      else
        let result := make size in
        match suffix w (buf ds) (datap start) with
        | None => None
        | Some src =>
          let '(result, resultp) := copy result src in
          match nextDataState start w with
          | None => None
          | Some current =>
            match keepBytes_loop fuel w result resultp current end_ with
            | None => None
            | Some (result, resultp) =>
              match subslice w (buf de) 0 (datap end_) with
              | None => None
              | Some src =>
                match copy_at result resultp src with
                | None => None
                | Some (result, _) => Some result
                end
              end
            end
          end
        end
  | _, _ => None
  end.

(** *** Full traversals

    [allStateBytes] and [allStateRunes] of the package's tests: read
    until the first error, collecting what was read. *)
Fixpoint allStateBytes (fuel : nat) (s : State) (w : world R)
  : result R (list byte * error) :=
  match fuel with
  | O => OutOfFuel
  | S fuel' =>
    match Byte fuel s w with
    | Done (b, s', None) w1 =>
      match allStateBytes fuel' s' w1 with
      | Done (bs, e) w2 => Done (b :: bs, e) w2
      | other => other
      end
    | Done (_, _, Some e) w1 => Done ([], e) w1
    | Panic => Panic
    | OutOfFuel => OutOfFuel
    end
  end.

Fixpoint allStateRunes (fuel : nat) (s : State) (w : world R)
  : result R (list rune * error) :=
  match fuel with
  | O => OutOfFuel
  | S fuel' =>
    match Rune fuel s w with
    | Done (r, s', None) w1 =>
      match allStateRunes fuel' s' w1 with
      | Done (rs, e) w2 => Done (r :: rs, e) w2
      | other => other
      end
    | Done (_, _, Some e) w1 => Done ([], e) w1
    | Panic => Panic
    | OutOfFuel => OutOfFuel
    end
  end.

End Operations.

(** *** The readers of the package's tests *)

(** [strings.Reader] and [bytes.Reader] (the unread rest of the input),
    and [fullThenZeroReader] of the tests. *)
Inductive reader : Type :=
| StringsReader (rest : list byte)
| FullThenZeroReader (cnt : Z).

#[global] Instance reader_Reader : Reader reader := fun r size =>
  match r with
  | StringsReader rest =>
    match rest with
    | [] => (mkRead [] 0 (Some EOF), r)
    | _ =>
      let k := Z.to_nat size in
      (mkRead (take k rest) (len (take k rest)) None, StringsReader (drop k rest))
    end
  | FullThenZeroReader cnt =>
    if 0 <? cnt then (mkRead [] size None, FullThenZeroReader (wrap64 (cnt - 1)))
    else (mkRead [] 0 (Some EOF), FullThenZeroReader (wrap64 (cnt - 1)))
  end.

(** The empty store with one reader object. *)
Definition with_reader (r : reader) : world reader := mkWorld [] [] [r].

(** *** Vocabulary of the properties *)

Section Vocabulary.
Context {R : Type} `{Reader R}.

(** No node refers to a backing array that was never allocated. *)
Definition wf_store (w : world R) : bool :=
  forallb (fun d => Nat.ltb (arr (buf d)) (length (arrays w))) (nodes w).

(** A node later in time: its reader, error and buffer are as they were,
    a [next] that was set is still the same, and a node without a reader
    has not received a [next]. *)
Definition node_extends (d d' : data) : Prop :=
  rd d' = rd d /\ derr d' = derr d /\ buf d' = buf d /\
  (forall p, next d = Some p -> next d' = Some p) /\
  (rd d = None -> next d' = next d).

(** A store later in time: arrays and nodes were added, nodes only
    changed as [node_extends] allows; readers are unconstrained. *)
Definition extends (w w' : world R) : Prop :=
  arrays w `prefix_of` arrays w' /\
  forall a d, nodes w !! a = Some d ->
    exists d', nodes w' !! a = Some d' /\ node_extends d d'.

(** [n] successive calls of [Byte], each on the State the previous one
    returned. *)
Fixpoint skipBytes (n fuel : nat) (s : State) (w : world R) : result R State :=
  match n with
  | O => Done s w
  | S n' =>
    match Byte fuel s w with
    | Done (_, s', None) w1 => skipBytes n' fuel s' w1
    | Done (_, _, Some _) _ => Panic
    | Panic => Panic
    | OutOfFuel => OutOfFuel
    end
  end.

(** [n] successive calls of [Byte], with the bytes they returned. *)
Fixpoint readBytes (n fuel : nat) (s : State) (w : world R)
  : result R (list byte * State) :=
  match n with
  | O => Done ([], s) w
  | S n' =>
    match Byte fuel s w with
    | Done (b, s', None) w1 =>
      match readBytes n' fuel s' w1 with
      | Done (bs, s'') w2 => Done (b :: bs, s'') w2
      | other => other
      end
    | Done (_, _, Some _) _ => Panic
    | Panic => Panic
    | OutOfFuel => OutOfFuel
    end
  end.

(** A node as the package makes them: the buffer has the length it says,
    within its capacity, and [next] points to a node made later. *)
Definition node_ok (w : world R) (a : nat) (d : data) : Prop :=
  length (bytes w (buf d)) = Z.to_nat (slen (buf d))
  /\ 0 <= slen (buf d) <= scap (buf d) /\ scap (buf d) < 2 ^ 63
  /\ forall p, next d = Some p -> (a < p < length (nodes w))%nat.

Definition chain_ok (w : world R) : Prop :=
  forall a d, nodes w !! a = Some d -> node_ok w a d.

(** A State whose cursor lies within the buffer of its node. *)
Definition state_ok (w : world R) (s : State) : Prop :=
  exists d, deref w s = Some d /\ 0 <= datap s <= slen (buf d).

(** The bytes between two cursors: [dp] in node [a] and [dp'] in node
    [a'], which is [n] nodes further down the chain. *)
Inductive span (w : world R) : nat -> nat -> Z -> nat -> Z -> list byte -> Prop :=
| span_here a d dp dp' :
    nodes w !! a = Some d -> 0 <= dp <= dp' -> dp' <= slen (buf d) ->
    span w 0 a dp a dp'
         (take (Z.to_nat (dp' - dp)) (drop (Z.to_nat dp) (bytes w (buf d))))
| span_next n a d p dp a' dp' r :
    nodes w !! a = Some d -> next d = Some p -> 0 <= dp <= slen (buf d) ->
    span w n p 0 a' dp' r ->
    span w (S n) a dp a' dp' (drop (Z.to_nat dp) (bytes w (buf d)) ++ r).

(** The node that follows the node of [s], fetched if it has to be: the
    store afterwards and the bytes of that node; no bytes follow a node
    that has no reader. [None] when fetching panics. *)
Definition next_bytes (s : State) (w : world R) : option (world R * list byte) :=
  match nextDataState s w with
  | None => None
  | Some s' =>
    match deref w s' with
    | None => None
    | Some dn => Some (w, bytes w (buf dn))
    end
  end.

Definition following (s : State) (d : data) (w : world R)
  : option (world R * list byte) :=
  match rd d, next d with
  | None, _ => Some (w, [])
  | Some rdr, None =>
    match extend s d rdr w with
    | Done _ w1 => next_bytes s w1
    | _ => None
    end
  | Some _, Some _ => next_bytes s w
  end.



End Vocabulary.

(** The line feeds among [bs], and the column counter after [bs] when it
    was [col] before: a line feed sets it to 0, any other byte adds 1. *)
Definition newlines (bs : list byte) : Z :=
  Z.of_nat (count_occ Z.eq_dec bs 10).

Fixpoint column_after (col : Z) (bs : list byte) : Z :=
  match bs with
  | [] => col
  | b :: bs' => column_after (if b =? 10 then 0 else col + 1) bs'
  end.

(** [lo <= b <= hi] *)
Definition between (lo hi b : byte) : bool := (lo <=? b) && (b <=? hi).

(** Well-formed UTF-8 (the Unicode Standard, table 3-7): does [bs] start
    with the encoding of a scalar value? *)
Definition wellformed_start (bs : list byte) : bool :=
  match bs with
  | [] => false
  | b0 :: bs1 =>
    if b0 <? 0x80 then true
    else if between 0xC2 0xDF b0 then
      match bs1 with
      | b1 :: _ => between 0x80 0xBF b1
      | _ => false
      end
    else if between 0xE0 0xEF b0 then
      match bs1 with
      | b1 :: b2 :: _ =>
        (if b0 =? 0xE0 then between 0xA0 0xBF b1
         else if b0 =? 0xED then between 0x80 0x9F b1
         else between 0x80 0xBF b1)
        && between 0x80 0xBF b2
      | _ => false
      end
    else if between 0xF0 0xF4 b0 then
      match bs1 with
      | b1 :: b2 :: b3 :: _ =>
        (if b0 =? 0xF0 then between 0x90 0xBF b1
         else if b0 =? 0xF4 then between 0x80 0x8F b1
         else between 0x80 0xBF b1)
        && between 0x80 0xBF b2 && between 0x80 0xBF b3
      | _ => false
      end
    else false
  end.

(** A malformed encoding: bytes that do not start with a well-formed one. *)
Definition malformed (bs : list byte) : Prop :=
  bs <> [] /\ wellformed_start bs = false.

(** *** Streams behind a strings.Reader *)

(** The State [s] stands in the last node of its chain, [rem] is what is
    left of that node followed by what its [strings.Reader] has left. *)
Definition at_stream (s : State) (w : world reader) (rem : list byte) : Prop :=
  exists d,
    deref w s = Some d /\ next d = None
    /\ 0 <= datap s <= slen (buf d) /\ slen (buf d) <= scap (buf d) < 2 ^ 63
    /\ length (bytes w (buf d)) = Z.to_nat (slen (buf d))
    /\ match rd d with
       | Some r =>
         r = 0%nat /\ 0 < scap (buf d)
         /\ exists rest, readers w !! 0%nat = Some (StringsReader rest)
                         /\ rem = drop (Z.to_nat (datap s)) (bytes w (buf d)) ++ rest
       | None => rem = drop (Z.to_nat (datap s)) (bytes w (buf d))
       end.

(** A node that still has a reader has a buffer of at least [minDataSize]
    bytes of capacity, as [NewStateReaderSize] makes them. *)
Definition roomy {R} (s : State) (w : world R) : Prop :=
  forall d, deref w s = Some d -> rd d <> None -> minDataSize <= scap (buf d).

(** *** Sample inputs *)

(** [NewStateReaderSize(strings.NewReader(input), 8)] followed by [n]
    calls of [Byte]. *)
Definition chunked8 (input : list byte) (n : nat) : result reader State :=
  match NewStateReaderSize 0%nat 8 (with_reader (StringsReader input)) with
  | Done s w => skipBytes n 2 s w
  | other => other
  end.

(** The State and the store a call returned, for sample inputs on which
    it does return. *)
Definition returned {A} `{Zero A} (r : result reader A) : A * world reader :=
  match r with
  | Done a w => (a, w)
  | _ => (zero, mkWorld [] [] [])
  end.

(** "aaaaBBBBccccDDDDee" behind a reader, before any read. *)
Definition replay_sample : State * world reader :=
  returned (chunked8 (str "aaaaBBBBccccDDDDee") 0).

Definition replay_state : State := Eval vm_compute in fst replay_sample.
Definition replay_store : world reader := Eval vm_compute in snd replay_sample.

(** "1234567", the first two bytes of the three-byte encoding of U+221E,
    then "acbd": after 7 bytes the State stands on the byte E2 that ends
    the first node. *)
Definition truncated_sample : State * world reader :=
  returned (chunked8 (str "1234567" ++ [0xE2; 0x88] ++ str "acbd") 7).

Definition truncated_state : State := Eval vm_compute in fst truncated_sample.
Definition truncated_store : world reader := Eval vm_compute in snd truncated_sample.

(** "ab" behind a reader, after both bytes were read. *)
Definition short_sample : State * world reader :=
  returned (chunked8 (str "ab") 2).

Definition short_state : State := Eval vm_compute in fst short_sample.
Definition short_store : world reader := Eval vm_compute in snd short_sample.

(** Three lines, "ab", "cd" and "efghij", behind a reader, before any
    read; the second node starts within the third line. *)
Definition lines_input : list byte :=
  str "ab" ++ [10] ++ str "cd" ++ [10] ++ str "efghij".

Definition lines_sample : State * world reader :=
  returned (chunked8 lines_input 0).

Definition lines_state : State := Eval vm_compute in fst lines_sample.
Definition lines_store : world reader := Eval vm_compute in snd lines_sample.

(** "aaaaBBBBccccDDDDee" behind a reader, after the 8 bytes of the first
    node were read: the next read has to fetch the second node. *)
Definition boundary_sample : State * world reader :=
  returned (chunked8 (str "aaaaBBBBccccDDDDee") 8).

Definition boundary_state : State := Eval vm_compute in fst boundary_sample.
Definition boundary_store : world reader := Eval vm_compute in snd boundary_sample.

End Chunked.

(** * Properties *)

(** ** Machine integers *)

Lemma wrap64_small z : - 2 ^ 63 <= z < 2 ^ 63 -> wrap64 z = z.
Proof.
  intros Hz. unfold wrap64.
  rewrite Z.mod_small by lia. lia.
Qed.

(** ** unicode/utf8 on sample inputs *)

Example decode_infinity : utf8.DecodeRune (str "∞") = (0x221E, 3).
Proof. vm_compute. reflexivity. Qed.

Example range_foo : utf8.range (str "foo") = [102; 111; 111].
Proof. vm_compute. reflexivity. Qed.

(** ** The combinators of parser.go *)

Module InMemoryFacts.
Import InMemory.

(** *** Where a failing combinator leaves the State *)

Lemma ExactString_loop_failure token s : forall cur v next e,
  ExactString_loop token s cur = Ret v next (Some e) -> next = s.
Proof.
  induction token as [|t token IH]; intros cur v next e; simpl.
  - discriminate.
  - destruct (Rune cur) as [r n' [err|]|]; try discriminate.
    + now intros [= _ <- _].
    + destruct (negb (t =? r)).
      * now intros [= _ <- _].
      * apply IH.
Qed.

Lemma ExactString_failure token s v next e :
  ExactString token s = Ret v next (Some e) -> next = s.
Proof. apply ExactString_loop_failure. Qed.

Lemma ExactBytes_loop_failure token s : forall cur v next e,
  ExactBytes_loop token s cur = Ret v next (Some e) -> next = s.
Proof.
  induction token as [|t token IH]; intros cur v next e; simpl.
  - discriminate.
  - destruct (Byte cur) as [r n' [err|]|]; try discriminate.
    + now intros [= _ <- _].
    + destruct (negb (t =? r)).
      * now intros [= _ <- _].
      * apply IH.
Qed.

Lemma ExactBytes_failure token s v next e :
  ExactBytes token s = Ret v next (Some e) -> next = s.
Proof. apply ExactBytes_loop_failure. Qed.

Lemma Sequence2_failure {T U R} `{Zero R}
    (tParser : Parser T) (uParser : Parser U) mapper s v next e :
  Sequence2 tParser uParser mapper s = Ret v next (Some e) -> next = s.
Proof.
  unfold Sequence2.
  destruct (tParser s) as [t n1 [e1|]|]; try discriminate.
  - now intros [= _ <- _].
  - destruct (uParser s) as [u n2 [e2|]|]; try discriminate.
    + now intros [= _ <- _].
    + destruct (mapper t u) as [r [e3|]]; try discriminate.
      now intros [= _ <- _].
Qed.

Lemma ConditionRune_failure cond s v next e :
  ConditionRune cond s = Ret v next (Some e) -> next = s.
Proof.
  unfold ConditionRune.
  destruct (Rune s) as [r n1 [e1|]|]; try discriminate.
  - now intros [= _ <- _].
  - destruct (negb (cond r)); try discriminate.
    now intros [= _ <- _].
Qed.

Lemma GetString_failure {T} (parser : Parser T) s v next e :
  GetString parser s = Ret v next (Some e) -> next = s.
Proof.
  unfold GetString.
  destruct (parser s) as [t n1 [e1|]|]; try discriminate.
  - now intros [= _ <- _].
  - destruct (slice _ _ _); discriminate.
Qed.

Lemma GetBytes_failure {T} (parser : Parser T) s v next e :
  GetBytes parser s = Ret v next (Some e) -> next = s.
Proof.
  unfold GetBytes.
  destruct (parser s) as [t n1 [e1|]|]; try discriminate.
  - now intros [= _ <- _].
  - destruct (_ <? 0); try discriminate.
    destruct (slice _ _ _); discriminate.
Qed.

Lemma GetPositions_failure {T} (parser : Parser T) s v next e :
  GetPositions parser s = Ret v next (Some e) -> next = s.
Proof.
  unfold GetPositions.
  destruct (parser s) as [t n1 [e1|]|]; try discriminate.
  now intros [= _ <- _].
Qed.

(** [AndThen] restores [s] when its first parser fails ... *)
Lemma AndThen_first_failure {T U} `{Zero U}
    (parser : Parser T) (handler : T -> Parser U) s t n1 e :
  parser s = Ret t n1 (Some e) ->
  AndThen parser handler s = Ret zero s (Some e).
Proof. unfold AndThen. now intros ->. Qed.

(** ... and otherwise returns the results of the continuation as they
    are, the State included. *)
Lemma AndThen_success_first {T U} `{Zero U}
    (parser : Parser T) (handler : T -> Parser U) s t n1 :
  parser s = Ret t n1 None ->
  AndThen parser handler s = handler t n1.
Proof. unfold AndThen. now intros ->. Qed.

(** C5 (AndThen): on "foobaz" the combination of the literals "foo" and
    "bar" fails with [ErrNoMatch] and returns the State after "foo"
    (offset 3), not the State it was entered with (offset 0). *)
Theorem AndThen_failure_keeps_intermediate_state :
  AndThen (ExactString (str "foo")) (fun _ => ExactBytes (str "bar"))
          (initial (str "foobaz"))
  = Ret EmptyV (mkState (str "foobaz") 3 0 0) (Some ErrNoMatch)
  /\ mkState (str "foobaz") 3 0 0 <> initial (str "foobaz").
Proof. split; [vm_compute; reflexivity | discriminate]. Qed.

(** *** Sequencing *)

(** [Sequence2] gives its second parser the State it was entered with:
    the first parser's State is dropped. *)
Lemma Sequence2_second_from_entry {T U R} `{Zero R}
    (tParser : Parser T) (uParser : Parser U) mapper s t n1 u n2 r :
  tParser s = Ret t n1 None ->
  uParser s = Ret u n2 None ->
  mapper t u = (r, None) ->
  Sequence2 tParser uParser mapper s = Ret r n2 None.
Proof. unfold Sequence2. now intros -> -> ->. Qed.

(** C2 (Sequence2): on "foobar" the sequence of the literals "foo" and
    "bar" fails with [ErrNoMatch], because "bar" is matched at offset 0;
    [AndThen] of the same two parsers succeeds at offset 6. On "aa" the
    sequence of "a" and "a" succeeds with the State at offset 1. *)
Theorem Sequence2_runs_second_parser_from_entry_state :
  Sequence2 (ExactString (str "foo")) (ExactString (str "bar"))
            (fun _ _ => (EmptyV, None)) (initial (str "foobar"))
  = Ret EmptyV (initial (str "foobar")) (Some ErrNoMatch)
  /\ AndThen (ExactString (str "foo")) (fun _ => ExactString (str "bar"))
             (initial (str "foobar"))
     = Ret EmptyV (mkState (str "foobar") 6 0 0) None
  /\ Sequence2 (ExactString (str "a")) (ExactString (str "a"))
               (fun _ _ => (EmptyV, None)) (initial (str "aa"))
     = Ret EmptyV (mkState (str "aa") 1 0 0) None.
Proof. repeat split. Qed.

(** *** Span capture *)

(** Both ends of the captured span are the offset of the entry State, so
    the span is empty whatever the parser consumed. *)
Lemma GetString_success_empty {T} (parser : Parser T) s t n1 v next :
  parser s = Ret t n1 None ->
  GetString parser s = Ret v next None -> v = [] /\ next = n1.
Proof.
  unfold GetString, slice. intros ->.
  destruct (_ || _); [discriminate|].
  rewrite Z.sub_diag. simpl. now intros [= <- <-].
Qed.

Lemma GetBytes_success_empty {T} (parser : Parser T) s t n1 v next :
  parser s = Ret t n1 None ->
  GetBytes parser s = Ret v next None -> v = [] /\ next = n1.
Proof.
  unfold GetBytes, slice. intros ->.
  rewrite Z.sub_diag. simpl.
  destruct (_ || _); [discriminate|].
  now intros [= <- <-].
Qed.

(** C1 (GetString, GetBytes): around a parser that consumes the three
    bytes of "foo", both return the empty span, not "foo". *)
Theorem GetString_GetBytes_capture_nothing :
  GetString (ExactString (str "foo")) (initial (str "foo"))
  = Ret [] (mkState (str "foo") 3 0 0) None
  /\ GetBytes (ExactString (str "foo")) (initial (str "foo"))
     = Ret [] (mkState (str "foo") 3 0 0) None.
Proof. split; reflexivity. Qed.

(** *** The zero State and positions of the flat-buffer variant *)

(** On the zero State of this variant, [Rune] decodes the empty rest of a
    nil buffer: it returns U+FFFD, the same State and no error. *)
Lemma InMemory_zero_State_Rune_returns :
  Rune zero = Ret utf8.RuneError zero None.
Proof. vm_compute. reflexivity. Qed.

(** The column of this variant is the offset within the line, from 0. *)
Lemma InMemory_fresh_column input :
  State_Position (initial input) = mkPosition 0 1 0.
Proof. reflexivity. Qed.

End InMemoryFacts.

(** ** The streaming State *)

Module ChunkedFacts.
Import Chunked.

Section Reads.
Context {R : Type} `{Reader R}.

(** *** The zero State *)

(** On [State{}], whose node pointer is nil, [Rune] and [Byte] of the
    streaming State panic at their first access to the node; for no
    store and no fuel do they return results, be it data or an error
    value. *)
Theorem zero_State_reads_panic (fuel : nat) (w : world R) :
  Rune (S fuel) zero w = Panic
  /\ Byte (S fuel) zero w = Panic
  /\ (forall a w', Rune fuel zero w <> Done a w')
  /\ (forall a w', Byte fuel zero w <> Done a w').
Proof.
  repeat split; try reflexivity; intros a w'; destruct fuel; discriminate.
Qed.

(** *** Positions *)

Lemma consume_position s cnt v s' e :
  consume s cnt v = (s', e) ->
  e = None /\ sdata s' = sdata s
  /\ datap s' = wrap64 (datap s + cnt)
  /\ offset s' = wrap64 (offset s + cnt)
  /\ (v = 10 -> line s' = wrap64 (line s + 1) /\ column s' = 0)
  /\ (v <> 10 -> line s' = line s /\ column s' = wrap64 (column s + 1)).
Proof.
  unfold consume. destruct (Z.eqb_spec v 10) as [->|Hv]; intros [= <- <-]; simpl;
    repeat split; congruence.
Qed.

Lemma nextDataState_position s (w : world R) s' :
  nextDataState s w = Some s' ->
  datap s' = 0 /\ offset s' = offset s /\ line s' = line s /\ column s' = column s.
Proof.
  unfold nextDataState. destruct (deref w s) as [d|]; [|discriminate].
  destruct (next d); [|discriminate]. now intros [= <-].
Qed.

(** Every byte that [Byte] returns moves the offset by one, and the line
    and column as the byte asks, also when the byte is found in a later
    node. *)
Lemma Byte_position fuel : forall s (w : world R) b s' w',
  Byte fuel s w = Done (b, s', None) w' ->
  offset s' = wrap64 (offset s + 1)
  /\ (b = 10 -> line s' = wrap64 (line s + 1) /\ column s' = 0)
  /\ (b <> 10 -> line s' = line s /\ column s' = wrap64 (column s + 1)).
Proof.
  induction fuel as [|fuel IH]; intros s w b s' w'; simpl; [discriminate|].
  destruct (deref w s) as [d|]; [|discriminate].
  destruct (datap s <? slen (buf d)).
  - destruct (datap s <? 0); [discriminate|].
    destruct (bytes w (buf d) !! Z.to_nat (datap s)) as [b0|]; [|discriminate].
    destruct (consume s 1 b0) as [n e] eqn:Hc.
    intros [= -> -> ->]. apply consume_position in Hc. tauto.
  - assert (Hrec : forall w1, match nextDataState s w1 with
                     | Some s0 => Byte fuel s0 w1
                     | None => Panic
                     end = Done (b, s', None) w' ->
              offset s' = wrap64 (offset s + 1)
              /\ (b = 10 -> line s' = wrap64 (line s + 1) /\ column s' = 0)
              /\ (b <> 10 -> line s' = line s /\ column s' = wrap64 (column s + 1))).
    { intros w1. destruct (nextDataState s w1) as [s0|] eqn:Hn; [|discriminate].
      intros Hb. apply IH in Hb. apply nextDataState_position in Hn.
      destruct Hn as (_ & Ho & Hl & Hc). rewrite Ho, Hl, Hc in Hb. exact Hb. }
    destruct (rd d) as [r|], (next d) as [p|]; try (apply Hrec); try discriminate.
    destruct (extend s d r w) as [[] w1| |]; try discriminate. apply Hrec.
Qed.

(** A State made by a constructor is at offset 0, line 1, column 1. *)
Lemma fresh_State_position (w : world R) (text : list byte) (b : slice) :
  State_Position (fst (NewStateString text w)) = mkPosition 0 1 1
  /\ State_Position (fst (NewStateBytes b w)) = mkPosition 0 1 1
  /\ (forall r size s w', NewStateReaderSize r size w = Done s w' ->
        State_Position s = mkPosition 0 1 1).
Proof.
  split; [reflexivity|]. split; [reflexivity|].
  intros r size s w'. unfold NewStateReaderSize.
  destruct (newDataReaderSize _ _ _); try discriminate.
  now intros [= <- _].
Qed.

(** *** The sentinel U+FFFD *)

Lemma Rune_across_not_sentinel s d tail (w : world R) r s' w' :
  Rune_across s d tail w = Done (r, s', None) w' -> r <> utf8.RuneError.
Proof.
  unfold Rune_across.
  destruct (nextDataState s w) as [ns|]; [|discriminate].
  destruct (deref w ns) as [dn|]; [|discriminate]. cbv zeta.
  destruct (utf8.DecodeRune _) as [r1 rs1].
  destruct (Z.eqb_spec r1 utf8.RuneError) as [->|Hne]; [discriminate|].
  now intros [= <- _ _].
Qed.

(** [Rune] never returns U+FFFD as a decoded scalar value: every decode
    that yields [utf8.RuneError] ends in an error. *)
Lemma Rune_never_returns_sentinel fuel : forall s (w : world R) r s' w',
  Rune fuel s w = Done (r, s', None) w' -> r <> utf8.RuneError.
Proof.
  induction fuel as [|fuel IH]; intros s w r s' w'; simpl; [discriminate|].
  destruct (deref w s) as [d|]; [|discriminate].
  destruct (datap s <? slen (buf d)).
  - destruct (datap s <? 0); [discriminate|].
    destruct (utf8.DecodeRune _) as [r0 rs0].
    destruct (Z.eqb_spec r0 utf8.RuneError) as [->|Hne].
    + destruct (rd d) as [rdr|], (next d) as [p|]; try discriminate.
      * apply Rune_across_not_sentinel.
      * destruct (extend s d rdr w) as [[] w1| |]; try discriminate.
        apply Rune_across_not_sentinel.
    + destruct (consume s rs0 r0) as [n e]. now intros [= <- _ _ _].
  - assert (Hrec : forall w1, match nextDataState s w1 with
                     | Some s0 => Rune fuel s0 w1
                     | None => Panic
                     end = Done (r, s', None) w' -> r <> utf8.RuneError).
    { intros w1. destruct (nextDataState s w1) as [s0|]; [|discriminate].
      apply IH. }
    destruct (rd d) as [rdr|], (next d) as [p|]; try (apply Hrec); try discriminate.
    destruct (extend s d rdr w) as [[] w1| |]; try discriminate. apply Hrec.
Qed.

End Reads.

(** *** Replaying reads in a later store *)

Section Replay.
Context {R : Type} `{Reader R}.

Lemma node_extends_refl d : node_extends d d.
Proof. unfold node_extends; tauto. Qed.

Lemma node_extends_trans d1 d2 d3 :
  node_extends d1 d2 -> node_extends d2 d3 -> node_extends d1 d3.
Proof.
  intros (Hr & He & Hb & Hn & Ht) (Hr' & He' & Hb' & Hn' & Ht').
  unfold node_extends. repeat split; try congruence.
  - intros p Hp. auto.
  - intros Hnone. rewrite Ht', Ht; congruence.
Qed.

Lemma extends_refl (w : world R) : extends w w.
Proof.
  split; [reflexivity|]. intros a d Hd. exists d. split; [assumption|apply node_extends_refl].
Qed.

Lemma extends_trans (w1 w2 w3 : world R) :
  extends w1 w2 -> extends w2 w3 -> extends w1 w3.
Proof.
  intros [Ha H12] [Ha' H23]. split; [etransitivity; eassumption|].
  intros a d Hd. destruct (H12 a d Hd) as (d2 & Hd2 & He2).
  destruct (H23 a d2 Hd2) as (d3 & Hd3 & He3).
  exists d3. split; [assumption|]. eapply node_extends_trans; eassumption.
Qed.

Lemma wf_store_lookup (w : world R) a d :
  wf_store w = true -> nodes w !! a = Some d ->
  (arr (buf d) < length (arrays w))%nat.
Proof.
  unfold wf_store. rewrite forallb_forall. intros Hall Hd.
  apply Nat.ltb_lt, Hall, list_elem_of_In, list_elem_of_lookup. eauto.
Qed.

Lemma array_at_extends (w w' : world R) a :
  extends w w' -> (a < length (arrays w))%nat -> array_at w' a = array_at w a.
Proof.
  intros [Hp _] Hlt. unfold array_at.
  destruct (lookup_lt_is_Some_2 _ _ Hlt) as [x Hx].
  rewrite Hx. now rewrite (prefix_lookup_Some _ _ _ _ Hx Hp).
Qed.

Lemma bytes_extends (w w' : world R) b :
  extends w w' -> (arr b < length (arrays w))%nat -> bytes w' b = bytes w b.
Proof. intros He Hlt. unfold bytes. now rewrite (array_at_extends w w'). Qed.

Lemma bytes_lookup_extends (w w' : world R) b i x :
  extends w w' -> bytes w b !! i = Some x -> bytes w' b !! i = Some x.
Proof.
  intros He Hx. destruct (decide (arr b < length (arrays w))%nat) as [Hlt|Hge].
  - now rewrite (bytes_extends w w').
  - unfold bytes, array_at in Hx.
    rewrite (lookup_ge_None_2 (arrays w) (arr b)) in Hx by lia. simpl in Hx.
    rewrite drop_nil, take_nil in Hx. discriminate.
Qed.

Lemma deref_extends (w w' : world R) s d :
  extends w w' -> deref w s = Some d ->
  exists d', deref w' s = Some d' /\ node_extends d d'.
Proof.
  intros [_ Hn]. unfold deref. destruct (sdata s); [apply Hn|discriminate].
Qed.

Lemma nextDataState_extends (w w' : world R) s s' :
  extends w w' -> nextDataState s w = Some s' -> nextDataState s w' = Some s'.
Proof.
  intros He. unfold nextDataState.
  destruct (deref w s) as [d|] eqn:Hd; [|discriminate].
  destruct (deref_extends _ _ _ _ He Hd) as (d' & -> & (_ & _ & _ & Hnx & _)).
  destruct (next d) as [p|]; [|discriminate].
  now rewrite (Hnx p eq_refl).
Qed.


Lemma wf_store_iff (w : world R) :
  wf_store w = true <->
  forall a d, nodes w !! a = Some d -> (arr (buf d) < length (arrays w))%nat.
Proof.
  split; [intros Hw a d; now apply wf_store_lookup|].
  intros Hall. unfold wf_store. rewrite forallb_forall. intros d Hin.
  apply list_elem_of_In, list_elem_of_lookup in Hin as [a Ha].
  apply Nat.ltb_lt. eauto.
Qed.

(** What [newDataReaderSize] does to the store. *)
Lemma newDataReaderSize_store r size (w : world R) p w1 :
  newDataReaderSize r size w = Done p w1 ->
  p = length (nodes w)
  /\ exists content d,
       arrays w1 = arrays w ++ [content]
       /\ nodes w1 = nodes w ++ [d]
       /\ arr (buf d) = length (arrays w)
       /\ next d = None.
Proof.
  unfold newDataReaderSize.
  destruct (size <? 0); [discriminate|].
  destruct (readers w !! r) as [st|]; [|discriminate].
  destruct (Read st size) as [res st'].
  destruct (copy (make size) (written res)) as [content k].
  unfold alloc_array, alloc_data; simpl.
  destruct (_ || _); [discriminate|].
  intros [= <- <-]; simpl. split; [reflexivity|].
  eexists _, _. split; [reflexivity|]. split; [reflexivity|].
  destruct (rerr res) as [[]|]; split; reflexivity.
Qed.

(** What [extend] does to the store: the node of [s] gets its [next]. *)
Lemma extend_store s d r (w : world R) w1 :
  deref w s = Some d -> next d = None -> rd d = Some r ->
  extend s d r w = Done tt w1 ->
  extends w w1
  /\ (wf_store w = true -> wf_store w1 = true)
  /\ exists d1 p, deref w1 s = Some d1 /\ next d1 = Some p.
Proof.
  intros Hd Hnx Hrd. unfold extend.
  destruct (newDataReaderSize r (scap (buf d)) w) as [p w0| |] eqn:Hnew;
    try discriminate.
  apply newDataReaderSize_store in Hnew as (-> & content & dn & Ha & Hn & Harr & Hdn).
  unfold deref in *. destruct (sdata s) as [a|]; [|discriminate].
  intros [= <-]. unfold set_next.
  assert (Ha0 : nodes w0 !! a = Some d) by (rewrite Hn; now apply lookup_app_l_Some).
  rewrite Ha0. simpl.
  assert (Hlt : (a < length (nodes w0))%nat) by (eapply lookup_lt_Some; eassumption).
  split; [|split].
  - split; simpl; [rewrite Ha; now apply prefix_app_r|].
    intros a' d' Hd'. destruct (decide (a' = a)) as [->|Hne].
    + rewrite list_lookup_insert_eq by assumption. eexists; split; [reflexivity|].
      assert (d' = d) as -> by congruence.
      unfold node_extends; simpl. repeat split; congruence.
    + rewrite list_lookup_insert_ne by congruence.
      exists d'. split; [rewrite Hn; now apply lookup_app_l_Some|apply node_extends_refl].
  - rewrite !wf_store_iff; simpl. intros Hw a' d'. rewrite Ha, length_app; simpl.
    destruct (decide (a' = a)) as [->|Hne].
    + rewrite list_lookup_insert_eq by assumption. intros [= <-]; simpl.
      specialize (Hw a d Hd). lia.
    + rewrite list_lookup_insert_ne by congruence. rewrite Hn.
      intros Hl. apply lookup_app_Some in Hl as [Hl|[_ Hl]].
      * specialize (Hw a' d' Hl). lia.
      * apply list_lookup_singleton_Some in Hl as [_ <-]. lia.
  - eexists _, _. simpl. rewrite list_lookup_insert_eq by assumption.
    split; reflexivity.
Qed.

Lemma Byte_store fuel : forall s (w : world R) res w1,
  Byte fuel s w = Done res w1 ->
  extends w w1 /\ (wf_store w = true -> wf_store w1 = true).
Proof.
  induction fuel as [|fuel IH]; intros s w res w1; simpl; [discriminate|].
  destruct (deref w s) as [d|] eqn:Hd; [|discriminate].
  destruct (datap s <? slen (buf d)).
  - destruct (datap s <? 0); [discriminate|].
    destruct (bytes w (buf d) !! Z.to_nat (datap s)) as [b0|]; [|discriminate].
    destruct (consume s 1 b0) as [n e].
    intros [= _ <-]. split; [apply extends_refl|auto].
  - destruct (rd d) as [r|] eqn:Hrd, (next d) as [p|] eqn:Hnx.
    + destruct (nextDataState s w) as [s0|]; [|discriminate]. apply IH.
    + destruct (extend s d r w) as [[] w0| |] eqn:Hext; try discriminate.
      apply extend_store in Hext as (He & Hw & _); try assumption.
      destruct (nextDataState s w0) as [s0|]; [|discriminate].
      intros Hb. apply IH in Hb as [He' Hw'].
      split; [eapply extends_trans; eassumption|auto].
    + destruct (nextDataState s w) as [s0|]; [|discriminate]. apply IH.
    + intros [= _ <-]. split; [apply extends_refl|auto].
Qed.

(** A read that returned returns the same again in every later store, and
    leaves that store as it is. *)
Lemma Byte_replay fuel : forall s (w : world R) res w1 w',
  Byte fuel s w = Done res w1 -> extends w1 w' ->
  Byte fuel s w' = Done res w'.
Proof.
  induction fuel as [|fuel IH]; intros s w res w1 w' Hb He; [discriminate|].
  pose proof (Byte_store _ _ _ _ _ Hb) as [Hww1 _].
  simpl in Hb |- *.
  destruct (deref w s) as [d|] eqn:Hd; [|discriminate].
  destruct (deref_extends _ _ _ _ (extends_trans _ _ _ Hww1 He) Hd)
    as (d' & Hd' & (Hr' & _ & Hb' & Hn' & Ht')).
  rewrite Hd', Hb', Hr'.
  destruct (datap s <? slen (buf d)).
  - destruct (datap s <? 0); [discriminate|].
    destruct (bytes w (buf d) !! Z.to_nat (datap s)) as [b0|] eqn:Hl; [|discriminate].
    destruct (consume s 1 b0) as [n e] eqn:Hc.
    injection Hb as <- <-.
    now rewrite (bytes_lookup_extends _ _ _ _ _ He Hl), Hc.
  - destruct (rd d) as [r|] eqn:Hrd, (next d) as [p|] eqn:Hnx.
    + rewrite (Hn' p eq_refl).
      destruct (nextDataState s w) as [s0|] eqn:Hs0; [|discriminate].
      rewrite (nextDataState_extends _ _ _ _ (extends_trans _ _ _ Hww1 He) Hs0).
      eapply IH; eassumption.
    + destruct (extend s d r w) as [[] w0| |] eqn:Hext; try discriminate.
      apply extend_store in Hext as (Hww0 & _ & d1 & p & Hd1 & Hp); try assumption.
      destruct (nextDataState s w0) as [s0|] eqn:Hs0; [|discriminate].
      pose proof (Byte_store _ _ _ _ _ Hb) as [Hw0w1 _].
      assert (Hw0w' : extends w0 w') by (eapply extends_trans; eassumption).
      pose proof (nextDataState_extends _ _ _ _ Hw0w' Hs0) as Hs0'.
      assert (Hsome : exists q, next d' = Some q).
      { unfold nextDataState in Hs0'. rewrite Hd' in Hs0'.
        destruct (next d'); [eauto|discriminate]. }
      destruct Hsome as [q Hq]. rewrite Hq, Hs0'.
      eapply IH; eassumption.
    + rewrite (Hn' p eq_refl).
      destruct (nextDataState s w) as [s0|] eqn:Hs0; [|discriminate].
      rewrite (nextDataState_extends _ _ _ _ (extends_trans _ _ _ Hww1 He) Hs0).
      eapply IH; eassumption.
    + rewrite (Ht' eq_refl). congruence.
Qed.


Lemma deref_wf (w : world R) s d :
  wf_store w = true -> deref w s = Some d ->
  (arr (buf d) < length (arrays w))%nat.
Proof.
  unfold deref. destruct (sdata s) as [a|]; [|discriminate].
  apply wf_store_lookup.
Qed.

Lemma Rune_across_store s d tail (w : world R) res w1 :
  Rune_across s d tail w = Done res w1 -> w1 = w.
Proof.
  unfold Rune_across.
  destruct (nextDataState s w) as [ns|]; [|discriminate].
  destruct (deref w ns) as [dn|]; [|discriminate]. cbv zeta.
  destruct (utf8.DecodeRune _) as [r1 rs1].
  destruct (r1 =? utf8.RuneError); now intros [= _ <-].
Qed.

Lemma Rune_across_buf s d d' tail (w : world R) :
  buf d' = buf d -> Rune_across s d' tail w = Rune_across s d tail w.
Proof. unfold Rune_across. now intros ->. Qed.

Lemma Rune_across_replay s d tail (w : world R) res w1 w' :
  Rune_across s d tail w = Done res w1 ->
  wf_store w = true -> extends w w' ->
  Rune_across s d tail w' = Done res w'.
Proof.
  unfold Rune_across. intros Hr Hw He.
  destruct (nextDataState s w) as [ns|] eqn:Hns; [|discriminate].
  rewrite (nextDataState_extends _ _ _ _ He Hns).
  destruct (deref w ns) as [dn|] eqn:Hdn; [|discriminate].
  destruct (deref_extends _ _ _ _ He Hdn) as (dn' & -> & (_ & _ & -> & _)).
  rewrite (bytes_extends w w') by eauto using deref_wf.
  cbv zeta in *.
  destruct (utf8.DecodeRune _) as [r1 rs1].
  destruct (r1 =? utf8.RuneError); now injection Hr as <- _.
Qed.

Lemma Rune_store fuel : forall s (w : world R) res w1,
  Rune fuel s w = Done res w1 ->
  extends w w1 /\ (wf_store w = true -> wf_store w1 = true).
Proof.
  induction fuel as [|fuel IH]; intros s w res w1; simpl; [discriminate|].
  destruct (deref w s) as [d|] eqn:Hd; [|discriminate].
  destruct (datap s <? slen (buf d)).
  - destruct (datap s <? 0); [discriminate|].
    destruct (utf8.DecodeRune _) as [r0 rs0].
    destruct (r0 =? utf8.RuneError).
    + destruct (rd d) as [rdr|] eqn:Hrd, (next d) as [p|] eqn:Hnx.
      * intros ->%Rune_across_store. split; [apply extends_refl|auto].
      * destruct (extend s d rdr w) as [[] w0| |] eqn:Hext; try discriminate.
        apply extend_store in Hext as (He & Hw & _); try assumption.
        intros ->%Rune_across_store. split; assumption.
      * intros [= _ <-]. split; [apply extends_refl|auto].
      * intros [= _ <-]. split; [apply extends_refl|auto].
    + destruct (consume s rs0 r0) as [n e].
      intros [= _ <-]. split; [apply extends_refl|auto].
  - destruct (rd d) as [r|] eqn:Hrd, (next d) as [p|] eqn:Hnx.
    + destruct (nextDataState s w) as [s0|]; [|discriminate]. apply IH.
    + destruct (extend s d r w) as [[] w0| |] eqn:Hext; try discriminate.
      apply extend_store in Hext as (He & Hw & _); try assumption.
      destruct (nextDataState s w0) as [s0|]; [|discriminate].
      intros Hb. apply IH in Hb as [He' Hw'].
      split; [eapply extends_trans; eassumption|auto].
    + destruct (nextDataState s w) as [s0|]; [|discriminate]. apply IH.
    + intros [= _ <-]. split; [apply extends_refl|auto].
Qed.

(** In a later store the node of [s] has the [next] it had. *)
Lemma next_extends (w w' : world R) s s' d' :
  extends w w' -> nextDataState s w = Some s' -> deref w' s = Some d' ->
  exists q, next d' = Some q.
Proof.
  intros He Hs Hd'. pose proof (nextDataState_extends _ _ _ _ He Hs) as Hs'.
  unfold nextDataState in Hs'. rewrite Hd' in Hs'.
  destruct (next d'); [eauto|discriminate].
Qed.

Lemma Rune_replay fuel : forall s (w : world R) res w1 w',
  Rune fuel s w = Done res w1 -> wf_store w = true -> extends w1 w' ->
  Rune fuel s w' = Done res w'.
Proof.
  induction fuel as [|fuel IH]; intros s w res w1 w' Hb Hw He; [discriminate|].
  pose proof (Rune_store _ _ _ _ _ Hb) as [Hww1 _].
  pose proof (extends_trans _ _ _ Hww1 He) as Hww'.
  simpl in Hb |- *.
  destruct (deref w s) as [d|] eqn:Hd; [|discriminate].
  destruct (deref_extends _ _ _ _ Hww' Hd)
    as (d' & Hd' & (Hr' & _ & Hb' & Hn' & Ht')).
  rewrite Hd', Hb', Hr'.
  rewrite (bytes_extends w w') by eauto using deref_wf.
  destruct (datap s <? slen (buf d)).
  - destruct (datap s <? 0); [discriminate|].
    destruct (utf8.DecodeRune _) as [r0 rs0].
    destruct (r0 =? utf8.RuneError).
    + destruct (rd d) as [rdr|] eqn:Hrd, (next d) as [p|] eqn:Hnx.
      * rewrite (Hn' p eq_refl), (Rune_across_buf _ _ _ _ _ Hb').
        pose proof (Rune_across_store _ _ _ _ _ _ Hb) as ->.
        eapply Rune_across_replay; eassumption.
      * destruct (extend s d rdr w) as [[] w0| |] eqn:Hext; try discriminate.
        apply extend_store in Hext as (Hww0 & Hw0 & _); try assumption.
        pose proof (Rune_across_store _ _ _ _ _ _ Hb) as ->.
        assert (Hq : exists q, next d' = Some q).
        { unfold Rune_across in Hb.
          destruct (nextDataState s w0) as [ns|] eqn:Hns; [|discriminate].
          exact (next_extends _ _ _ _ _ He Hns Hd'). }
        destruct Hq as [q ->]. rewrite (Rune_across_buf _ _ _ _ _ Hb').
        eapply Rune_across_replay; eauto.
      * injection Hb as <- <-. reflexivity.
      * injection Hb as <- <-. reflexivity.
    + destruct (consume s rs0 r0) as [n e].
      injection Hb as <- <-. reflexivity.
  - destruct (rd d) as [r|] eqn:Hrd, (next d) as [p|] eqn:Hnx.
    + rewrite (Hn' p eq_refl).
      destruct (nextDataState s w) as [s0|] eqn:Hs0; [|discriminate].
      rewrite (nextDataState_extends _ _ _ _ Hww' Hs0).
      eapply IH; eassumption.
    + destruct (extend s d r w) as [[] w0| |] eqn:Hext; try discriminate.
      apply extend_store in Hext as (Hww0 & Hw0 & _); try assumption.
      destruct (nextDataState s w0) as [s0|] eqn:Hs0; [|discriminate].
      pose proof (Rune_store _ _ _ _ _ Hb) as [Hw0w1 _].
      assert (Hw0w' : extends w0 w') by (eapply extends_trans; eassumption).
      destruct (next_extends _ _ _ _ _ Hw0w' Hs0 Hd') as [q ->].
      rewrite (nextDataState_extends _ _ _ _ Hw0w' Hs0).
      eapply IH; eauto.
    + rewrite (Hn' p eq_refl).
      destruct (nextDataState s w) as [s0|] eqn:Hs0; [|discriminate].
      rewrite (nextDataState_extends _ _ _ _ Hww' Hs0).
      eapply IH; eassumption.
    + rewrite (Ht' eq_refl). congruence.
Qed.

(** [io.EOF] is the only error [Byte] returns. *)
Lemma Byte_error_EOF fuel : forall s (w : world R) b s' e w1,
  Byte fuel s w = Done (b, s', Some e) w1 -> e = EOF.
Proof.
  induction fuel as [|fuel IH]; intros s w b s' e w1; simpl; [discriminate|].
  destruct (deref w s) as [d|]; [|discriminate].
  destruct (datap s <? slen (buf d)).
  - destruct (datap s <? 0); [discriminate|].
    destruct (bytes w (buf d) !! Z.to_nat (datap s)) as [b0|]; [|discriminate].
    unfold consume. destruct (b0 =? 10); discriminate.
  - destruct (rd d) as [r|], (next d) as [p|].
    + destruct (nextDataState s w) as [s0|]; [|discriminate]. apply IH.
    + destruct (extend s d r w) as [[] w0| |]; try discriminate.
      destruct (nextDataState s w0) as [s0|]; [|discriminate]. apply IH.
    + destruct (nextDataState s w) as [s0|]; [|discriminate]. apply IH.
    + now intros [= _ _ <- _].
Qed.

Lemma allStateBytes_replay fuel : forall s (w : world R) res w1 w',
  allStateBytes fuel s w = Done res w1 -> extends w1 w' ->
  allStateBytes fuel s w' = Done res w' /\ extends w w1 /\ snd res = EOF.
Proof.
  induction fuel as [|fuel IH]; intros s w res w1 w' Ha He; [discriminate|].
  cbn [allStateBytes] in *.
  destruct (Byte (S fuel) s w) as [[[b s'] [e|]] w0| |] eqn:Hb; try discriminate.
  - injection Ha as <- <-.
    rewrite (Byte_replay _ _ _ _ _ _ Hb He).
    split; [reflexivity|]. split; [eapply Byte_store; eassumption|].
    eapply Byte_error_EOF; eassumption.
  - destruct (allStateBytes fuel s' w0) as [[bs e] w2| |] eqn:Hrec; try discriminate.
    injection Ha as <- <-.
    destruct (IH _ _ _ _ _ Hrec He) as (Hrec' & Hw0w1 & Heof).
    pose proof (Byte_store _ _ _ _ _ Hb) as [Hww0 _].
    rewrite (Byte_replay _ _ _ _ _ w' Hb) by (eapply extends_trans; eassumption).
    rewrite Hrec'. split; [reflexivity|]. split; [eapply extends_trans; eassumption|assumption].
Qed.

Lemma allStateRunes_replay fuel : forall s (w : world R) res w1 w',
  allStateRunes fuel s w = Done res w1 -> wf_store w = true -> extends w1 w' ->
  allStateRunes fuel s w' = Done res w' /\ extends w w1.
Proof.
  induction fuel as [|fuel IH]; intros s w res w1 w' Ha Hw He; [discriminate|].
  cbn [allStateRunes] in *.
  destruct (Rune (S fuel) s w) as [[[b s'] [e|]] w0| |] eqn:Hb; try discriminate.
  - injection Ha as <- <-.
    rewrite (Rune_replay _ _ _ _ _ _ Hb Hw He).
    split; [reflexivity|]. eapply Rune_store; eassumption.
  - destruct (allStateRunes fuel s' w0) as [[bs e] w2| |] eqn:Hrec; try discriminate.
    injection Ha as <- <-.
    pose proof (Rune_store _ _ _ _ _ Hb) as [Hww0 Hw0].
    destruct (IH _ _ _ _ _ Hrec (Hw0 Hw) He) as (Hrec' & Hw0w1).
    rewrite (Rune_replay _ _ _ _ _ w' Hb Hw) by (eapply extends_trans; eassumption).
    rewrite Hrec'. split; [reflexivity|]. eapply extends_trans; eassumption.
Qed.

(** Both kinds of full traversal, replayed in the store they left. *)
Lemma traversals_replay (fuel : nat) (s : State) (w : world R) :
  (forall out e w1,
     allStateBytes fuel s w = Done (out, e) w1 ->
     e = EOF /\ allStateBytes fuel s w1 = Done (out, EOF) w1)
  /\ (forall out e w1,
        wf_store w = true ->
        allStateRunes fuel s w = Done (out, e) w1 ->
        allStateRunes fuel s w1 = Done (out, e) w1).
Proof.
  split.
  - intros out e w1 Ha.
    destruct (allStateBytes_replay _ _ _ _ _ w1 Ha (extends_refl w1)) as (Hr & _ & He).
    simpl in He. subst e. split; [reflexivity|assumption].
  - intros out e w1 Hw Ha.
    now destruct (allStateRunes_replay _ _ _ _ _ w1 Ha Hw (extends_refl w1)).
Qed.

End Replay.

(** *** Malformed encodings *)

Ltac cmp_cases :=
  repeat (match goal with
          | |- context [Z.ltb ?a ?b] => destruct (Z.ltb_spec a b)
          | |- context [Z.leb ?a ?b] => destruct (Z.leb_spec a b)
          | |- context [Z.eqb ?a ?b] => destruct (Z.eqb_spec a b)
          end; cbn [andb orb negb]; try lia).

(** A well-formed start stays one when more bytes follow. *)
Lemma wellformed_start_app p q :
  wellformed_start p = true -> wellformed_start (p ++ q) = true.
Proof.
  destruct p as [|p0 [|b1 [|b2 [|b3 rest]]]]; cbn [app wellformed_start];
    try discriminate;
    repeat match goal with
           | |- context [if ?c then _ else _] => destruct c; try discriminate; try tauto
           end.
Qed.

(** [DecodeRune] yields a rune other than [RuneError] only for a
    well-formed start. *)
Lemma DecodeRune_wellformed p :
  fst (utf8.DecodeRune p) <> utf8.RuneError -> wellformed_start p = true.
Proof.
  destruct p as [|p0 [|b1 [|b2 [|b3 rest]]]];
    unfold utf8.DecodeRune, utf8.first, wellformed_start, between, utf8.cont,
           utf8.locb, utf8.hicb, len;
    cbn [length fst];
    cmp_cases; cbn [fst]; try congruence; try reflexivity; try lia.
Qed.

Lemma DecodeRune_malformed_prefix p q :
  wellformed_start (p ++ q) = false -> fst (utf8.DecodeRune p) = utf8.RuneError.
Proof.
  intros Hm. destruct (Z.eq_dec (fst (utf8.DecodeRune p)) utf8.RuneError) as [|Hne];
    [assumption|].
  apply DecodeRune_wellformed, (wellformed_start_app p q) in Hne. congruence.
Qed.

Section Malformed.
Context {R : Type} `{Reader R}.

Lemma Rune_across_malformed s d tail (w w1 : world R) rest :
  next_bytes s w = Some (w1, rest) ->
  wellformed_start (tail ++ rest) = false ->
  Rune_across s d tail w = Done (0, s, Some (RuneError (State_Position s))) w1.
Proof.
  unfold next_bytes, Rune_across.
  destruct (nextDataState s w) as [ns|]; [|discriminate].
  destruct (deref w ns) as [dn|]; [|discriminate].
  intros [= <- <-] Hm. cbv zeta.
  destruct (utf8.DecodeRune _) as [r1 rs1] eqn:Hdec.
  assert (Hr : r1 = utf8.RuneError).
  { change r1 with (fst (r1, rs1)). rewrite <- Hdec.
    apply (DecodeRune_malformed_prefix _ (drop (Z.to_nat (Z.min (slen (buf dn)) 6)) (bytes w (buf dn)))).
    now rewrite <- app_assoc, take_drop. }
  now rewrite Hr.
Qed.

(** Let [s] stand on a byte of its node, and let the rest of that node,
    followed by the bytes of the next node when the node has a reader
    (fetched now if it was not yet), be malformed: then [Rune] fails with
    [RuneError] carrying the Position that [s] holds, and returns [s]
    itself. This covers the sequence that lies within one node and the
    one that straddles two. Whether the Position [s] holds is that of the
    byte it stands on is another matter: behind a rune that straddled two
    nodes it is not. *)
Theorem Rune_reports_start_of_malformed
    (fuel : nat) (s : State) (d : data) (w w1 : world R) (rest : list byte) :
  deref w s = Some d ->
  0 <= datap s < slen (buf d) ->
  following s d w = Some (w1, rest) ->
  malformed (drop (Z.to_nat (datap s)) (bytes w (buf d)) ++ rest) ->
  Rune (S fuel) s w = Done (0, s, Some (RuneError (State_Position s))) w1.
Proof.
  intros Hd [Hlo Hhi] Hf [_ Hm]. simpl. rewrite Hd.
  destruct (Z.ltb_spec (datap s) (slen (buf d))); [|lia].
  destruct (Z.ltb_spec (datap s) 0); [lia|].
  destruct (utf8.DecodeRune _) as [r0 rs0] eqn:Hdec.
  assert (Hr : r0 = utf8.RuneError).
  { change r0 with (fst (r0, rs0)). rewrite <- Hdec.
    eapply DecodeRune_malformed_prefix; eassumption. }
  rewrite Hr. cbn [Z.eqb utf8.RuneError Pos.eqb].
  unfold following in Hf.
  destruct (rd d) as [rdr|], (next d) as [p|].
  - eapply Rune_across_malformed; eassumption.
  - destruct (extend s d rdr w) as [[] w0| |]; try discriminate.
    eapply Rune_across_malformed; eassumption.
  - injection Hf as <- <-. reflexivity.
  - injection Hf as <- <-. reflexivity.
Qed.

End Malformed.

(** *** The copy made by NewStateBytes *)

Section Copy.
Context {R : Type} `{Reader R}.



End Copy.

(** *** Error positions and the bytes of a copied node *)

Section ErrorPositions.
Context {R : Type} `{Reader R}.

(** Whatever node [Rune] ends up in, a [RuneError] it returns carries the
    Position of the State it was called on. *)
Lemma Rune_error_position fuel : forall s (w : world R) r s' p w1,
  Rune fuel s w = Done (r, s', Some (RuneError p)) w1 -> p = State_Position s.
Proof.
  induction fuel as [|fuel IH]; intros s w r s' p w1; simpl; [discriminate|].
  destruct (deref w s) as [d|]; [|discriminate].
  assert (Hacross : forall w0 tail,
            Rune_across s d tail w0 = Done (r, s', Some (RuneError p)) w1 ->
            p = State_Position s).
  { intros w0 tail. unfold Rune_across.
    destruct (nextDataState s w0) as [ns|]; [|discriminate].
    destruct (deref w0 ns) as [dn|]; [|discriminate]. cbv zeta.
    destruct (utf8.DecodeRune _) as [r1 rs1].
    destruct (r1 =? utf8.RuneError); [|discriminate].
    now intros [= _ _ <- _]. }
  assert (Hrec : forall w0,
            match nextDataState s w0 with
            | Some s0 => Rune fuel s0 w0
            | None => Panic
            end = Done (r, s', Some (RuneError p)) w1 ->
            p = State_Position s).
  { intros w0. destruct (nextDataState s w0) as [s0|] eqn:Hn; [|discriminate].
    intros Hr. apply IH in Hr. apply nextDataState_position in Hn.
    destruct Hn as (_ & Ho & Hl & Hc).
    unfold State_Position, State_Line, State_Column in *. now rewrite <- Ho, <- Hl, <- Hc. }
  destruct (datap s <? slen (buf d)).
  - destruct (datap s <? 0); [discriminate|].
    destruct (utf8.DecodeRune _) as [r0 rs0].
    destruct (r0 =? utf8.RuneError).
    + destruct (rd d) as [rdr|], (next d) as [q|].
      * apply Hacross.
      * destruct (extend s d rdr w) as [[] w0| |]; try discriminate. apply Hacross.
      * now intros [= _ _ <- _].
      * now intros [= _ _ <- _].
    + unfold consume. destruct (r0 =? 10); discriminate.
  - destruct (rd d) as [rdr|], (next d) as [q|]; try apply Hrec; try discriminate.
    destruct (extend s d rdr w) as [[] w0| |]; try discriminate. apply Hrec.
Qed.

(** The node [NewStateBytes] makes holds the bytes [b] had, and neither
    reader nor next. *)
Lemma NewStateBytes_bytes (w : world R) (b : slice) :
  length (bytes w b) = Z.to_nat (slen b) ->
  let '(s, w1) := NewStateBytes b w in
  exists d, deref w1 s = Some d /\ bytes w1 (buf d) = bytes w b
            /\ rd d = None /\ next d = None.
Proof.
  intros Hlen. unfold NewStateBytes, newDataBytes, copy, make.
  cbn [alloc_array alloc_data].
  eexists. split; [unfold deref; cbn; apply list_lookup_middle; reflexivity|].
  split; [|split; reflexivity].
  unfold bytes at 1, array_at; cbn.
  rewrite list_lookup_middle by reflexivity. cbn.
  rewrite length_replicate, Hlen, Nat.min_id.
  rewrite drop_replicate, Nat.sub_diag. cbn. rewrite app_nil_r.
  rewrite drop_0, take_take, Nat.min_id. apply take_ge. lia.
Qed.

End ErrorPositions.

(** *** Traversing the input of a strings.Reader *)

Lemma Byte_in_node fuel s (w : world reader) d b rem' :
  deref w s = Some d -> 0 <= datap s < slen (buf d) ->
  drop (Z.to_nat (datap s)) (bytes w (buf d)) = b :: rem' ->
  Byte (S fuel) s w = Done (b, fst (consume s 1 b), None) w.
Proof.
  intros Hd [Hlo Hhi] Hdrop. simpl. rewrite Hd.
  destruct (Z.ltb_spec (datap s) (slen (buf d))); [|lia].
  destruct (Z.ltb_spec (datap s) 0); [lia|].
  assert (Hl : bytes w (buf d) !! Z.to_nat (datap s) = Some b).
  { rewrite <- (Nat.add_0_r (Z.to_nat (datap s))), <- lookup_drop, Hdrop. reflexivity. }
  rewrite Hl. unfold consume. destruct (b =? 10); reflexivity.
Qed.

Lemma at_stream_step s (w : world reader) d b rem' rem :
  deref w s = Some d -> next d = None ->
  0 <= datap s < slen (buf d) -> slen (buf d) <= scap (buf d) < 2 ^ 63 ->
  length (bytes w (buf d)) = Z.to_nat (slen (buf d)) ->
  drop (Z.to_nat (datap s)) (bytes w (buf d)) = b :: rem' ->
  match rd d with
  | Some r =>
    r = 0%nat /\ 0 < scap (buf d)
    /\ exists rest, readers w !! 0%nat = Some (StringsReader rest)
                    /\ rem = rem' ++ rest
  | None => rem = rem'
  end ->
  at_stream (fst (consume s 1 b)) w rem.
Proof.
  intros Hd Hn Hdp Hcap Hlen Hdrop Hrd.
  assert (Hs : sdata (fst (consume s 1 b)) = sdata s
               /\ datap (fst (consume s 1 b)) = datap s + 1).
  { unfold consume. destruct (b =? 10); cbn; (split; [reflexivity|apply wrap64_small; lia]). }
  destruct Hs as [Hs Hp].
  exists d. unfold deref in *. rewrite Hs, Hp.
  split; [assumption|]. split; [assumption|]. split; [lia|]. split; [assumption|].
  split; [assumption|].
  assert (Hdrop' : drop (Z.to_nat (datap s + 1)) (bytes w (buf d)) = rem').
  { replace (Z.to_nat (datap s + 1)) with (Z.to_nat (datap s) + 1)%nat by lia.
    rewrite <- drop_drop, Hdrop. reflexivity. }
  rewrite Hdrop'. exact Hrd.
Qed.

(** What one [Read] of a [strings.Reader] adds to the store. *)
Lemma newDataReaderSize_StringsReader (w : world reader) rest size :
  readers w !! 0%nat = Some (StringsReader rest) -> 0 < size ->
  exists d w1,
    newDataReaderSize 0%nat size w = Done (length (nodes w)) w1
    /\ nodes w1 = nodes w ++ [d]
    /\ next d = None /\ scap (buf d) = size /\ slen (buf d) <= size
    /\ bytes w1 (buf d) = take (Z.to_nat size) rest
    /\ slen (buf d) = len (take (Z.to_nat size) rest)
    /\ readers w1 !! 0%nat = Some (StringsReader (drop (Z.to_nat size) rest))
    /\ rd d = match rest with [] => None | _ => Some 0%nat end.
Proof.
  intros Hr Hsize. unfold newDataReaderSize.
  destruct (Z.ltb_spec size 0); [lia|]. rewrite Hr.
  assert (Hlt : (0 < length (readers w))%nat) by (eapply lookup_lt_Some; eassumption).
  destruct rest as [|x rest].
  - cbn. destruct (Z.ltb_spec size 0); [lia|].
    eexists _, _. split; [reflexivity|].
    split; [reflexivity|]. simpl. rewrite !take_nil, !drop_nil.
    split; [reflexivity|]. split; [reflexivity|].
    split; [lia|]. split; [reflexivity|]. split; [reflexivity|].
    split; [now apply list_lookup_insert_eq|reflexivity].
  - cbn [Read reader_Reader]. set (k := Z.to_nat size).
    set (chunk := take k (x :: rest)).
    assert (Hchunk : (length chunk <= k)%nat) by (subst chunk; rewrite length_take; lia).
    unfold copy, make. fold k. rewrite length_replicate.
    replace (Nat.min k (length chunk)) with (length chunk) by lia.
    cbn [alloc_array alloc_data written count rerr arrays nodes readers].
    unfold len.
    destruct (Z.ltb_spec (Z.of_nat (length chunk)) 0); [lia|].
    destruct (Z.ltb_spec size (Z.of_nat (length chunk))); [lia|].
    cbn [orb]. eexists _, _. split; [reflexivity|].
    split; [reflexivity|]. simpl.
    split; [reflexivity|]. split; [reflexivity|].
    split; [lia|]. split; [|split; [reflexivity|]].
    + unfold bytes, array_at; cbn. rewrite list_lookup_middle by reflexivity. cbn.
      rewrite drop_0, Nat2Z.id, (Nat.min_r k (length chunk)) by lia.
      rewrite (take_ge chunk) by lia. apply take_app_length.
    + split; [now apply list_lookup_insert_eq|reflexivity].
Qed.

(** Extending the chain of a [strings.Reader] by one node. *)
Lemma extend_StringsReader s (w : world reader) d rest :
  deref w s = Some d -> rd d = Some 0%nat -> next d = None ->
  0 < scap (buf d) ->
  readers w !! 0%nat = Some (StringsReader rest) ->
  exists d' w2 s1,
    extend s d 0%nat w = Done tt w2
    /\ nextDataState s w2 = Some s1
    /\ deref w2 s1 = Some d' /\ datap s1 = 0
    /\ next d' = None /\ scap (buf d') = scap (buf d)
    /\ bytes w2 (buf d') = take (Z.to_nat (scap (buf d))) rest
    /\ slen (buf d') = len (take (Z.to_nat (scap (buf d))) rest)
    /\ readers w2 !! 0%nat
       = Some (StringsReader (drop (Z.to_nat (scap (buf d))) rest))
    /\ rd d' = match rest with [] => None | _ => Some 0%nat end.
Proof.
  intros Hd Hrd Hnx Hcap Hr.
  destruct (newDataReaderSize_StringsReader w rest (scap (buf d)) Hr Hcap)
    as (d' & w1 & Hnew & Hnodes & Hn' & Hc' & _ & Hb' & Hl' & Hr' & Hrd').
  unfold extend. rewrite Hnew.
  unfold deref in Hd. destruct (sdata s) as [a|] eqn:Hs; [|discriminate].
  assert (Hlt : (a < length (nodes w))%nat) by (eapply lookup_lt_Some; eassumption).
  assert (Ha1 : nodes w1 !! a = Some d) by (rewrite Hnodes; now apply lookup_app_l_Some).
  exists d', (set_next w1 a (length (nodes w))),
         (mkState (Some (length (nodes w))) 0 (offset s) (line s) (column s)).
  split; [reflexivity|].
  unfold set_next. rewrite Ha1.
  unfold nextDataState, deref; cbn [sdata nodes arrays readers Chunked.next].
  rewrite Hs, Hnodes.
  rewrite list_lookup_insert_eq by (rewrite length_app; lia).
  cbn [Chunked.next].
  split; [reflexivity|].
  split.
  { rewrite list_lookup_insert_ne by lia. apply list_lookup_middle. reflexivity. }
  split; [reflexivity|]. split; [assumption|]. split; [assumption|].
  split; [exact Hb'|]. split; [assumption|]. split; assumption.
Qed.

Lemma Byte_at_stream fuel s (w : world reader) rem :
  at_stream s w rem ->
  match rem with
  | [] => exists s' w', Byte (S (S fuel)) s w = Done (0, s', Some EOF) w'
  | b :: rem' =>
    exists s' w', Byte (S (S fuel)) s w = Done (b, s', None) w'
                  /\ at_stream s' w' rem'
  end.
Proof.
  intros (d & Hd & Hn & Hdp & Hcap & Hlen & Hrd).
  destruct (Z.lt_ge_cases (datap s) (slen (buf d))) as [Hin|Hend].
  - (* a byte of this node *)
    destruct (drop (Z.to_nat (datap s)) (bytes w (buf d))) as [|b tl] eqn:Hdrop.
    { apply (f_equal length) in Hdrop. rewrite length_drop, Hlen in Hdrop.
      simpl in Hdrop. lia. }
    assert (Hrem : exists rem', rem = b :: rem'
              /\ match rd d with
                 | Some r => r = 0%nat /\ 0 < scap (buf d)
                             /\ exists rest, readers w !! 0%nat = Some (StringsReader rest)
                                             /\ rem' = tl ++ rest
                 | None => rem' = tl
                 end).
    { destruct (rd d) as [r|].
      - destruct Hrd as (-> & Hpos & rest & Hr & ->).
        exists (tl ++ rest). split; [reflexivity|]. eauto.
      - subst rem. eauto. }
    destruct Hrem as (rem' & -> & Hrd').
    exists (fst (consume s 1 b)), w. split.
    + eapply Byte_in_node; eauto; lia.
    + eapply at_stream_step; eauto; lia.
  - (* at the end of the node *)
    assert (Hdrop : drop (Z.to_nat (datap s)) (bytes w (buf d)) = [])
      by (apply drop_ge; lia).
    rewrite Hdrop in Hrd.
    assert (Hstep : Byte (S (S fuel)) s w =
              match rd d, next d with
              | Some r, None =>
                match extend s d r w with
                | Done _ w1 =>
                  match nextDataState s w1 with
                  | None => Panic
                  | Some s' => Byte (S fuel) s' w1
                  end
                | Panic => Panic
                | OutOfFuel => OutOfFuel
                end
              | _, Some _ =>
                match nextDataState s w with
                | None => Panic
                | Some s' => Byte (S fuel) s' w
                end
              | None, None => Done (0, s, Some EOF) w
              end).
    { cbn [Byte]. rewrite Hd.
      destruct (Z.ltb_spec (datap s) (slen (buf d))); [lia|reflexivity]. }
    rewrite Hstep, Hn. clear Hstep.
    destruct (rd d) as [r|] eqn:Hr.
    + destruct Hrd as (-> & Hpos & rest & Hrest & ->). cbn [app].
      destruct (extend_StringsReader s w d rest Hd Hr Hn Hpos Hrest)
        as (d' & w2 & s1 & -> & -> & Hd' & Hp1 & Hn' & Hc' & Hb' & Hl' & Hr' & Hrd').
      destruct rest as [|x rest].
      * (* the reader is at its end *)
        exists s1, w2. cbn [Byte]. rewrite Hd', Hrd', Hn', Hp1, Hl'.
        rewrite take_nil. reflexivity.
      * assert (Hk : (0 < Z.to_nat (scap (buf d)))%nat) by lia.
        destruct (Z.to_nat (scap (buf d))) as [|k] eqn:Hkk; [lia|].
        cbn [take drop] in Hb', Hl', Hr'.
        exists (fst (consume s1 1 x)), w2. split.
        -- eapply Byte_in_node; [exact Hd'| |rewrite Hp1, Hb'; reflexivity].
           rewrite Hp1, Hl'. unfold len. cbn [length]. lia.
        -- eapply (at_stream_step s1 w2 d' x (take k rest)); try eassumption.
           ++ rewrite Hp1, Hl'. unfold len. cbn [length]. lia.
           ++ rewrite Hl', Hc'. unfold len. cbn [length].
              rewrite length_take. lia.
           ++ rewrite Hb', Hl'. unfold len. now rewrite Nat2Z.id.
           ++ rewrite Hp1, Hb'. reflexivity.
           ++ rewrite Hrd'. split; [reflexivity|]. split; [lia|].
              eexists. split; [exact Hr'|]. now rewrite take_drop.
    + subst rem. eauto.
Qed.

Lemma allStateBytes_S fuel s (w : world reader) :
  allStateBytes (S fuel) s w =
  match Byte (S fuel) s w with
  | Done (b, s', None) w1 =>
    match allStateBytes fuel s' w1 with
    | Done (bs, e) w2 => Done (b :: bs, e) w2
    | other => other
    end
  | Done (_, _, Some e) w1 => Done ([], e) w1
  | Panic => Panic
  | OutOfFuel => OutOfFuel
  end.
Proof. reflexivity. Qed.

Lemma allStateBytes_at_stream rem : forall s (w : world reader),
  at_stream s w rem ->
  exists w', allStateBytes (S (S (length rem))) s w = Done (rem, EOF) w'.
Proof.
  induction rem as [|b rem IH]; intros s w Hs; rewrite allStateBytes_S.
  - destruct (Byte_at_stream (length (@nil Z)) s w [] Hs) as (s' & w' & ->).
    eauto.
  - destruct (Byte_at_stream (length (b :: rem)) s w (b :: rem) Hs)
      as (s' & w' & -> & Hs').
    destruct (IH s' w' Hs') as (w'' & Hrec).
    exists w''. cbn [length]. now rewrite Hrec.
Qed.

Lemma NewStateReaderSize_at_stream data size :
  size < 2 ^ 63 ->
  exists s w,
    NewStateReaderSize 0%nat size (with_reader (StringsReader data)) = Done s w
    /\ at_stream s w data.
Proof.
  intros Hsize. unfold NewStateReaderSize, minDataSize.
  set (size' := Z.max size 8).
  destruct (newDataReaderSize_StringsReader
              (with_reader (StringsReader data)) data size' eq_refl ltac:(lia))
    as (d & w1 & -> & Hnodes & Hn & Hc & Hle & Hb & Hl & Hr & Hrd).
  eexists _, _. split; [reflexivity|].
  exists d. unfold deref; cbn [sdata datap with_reader nodes length].
  rewrite Hnodes. cbn [nodes with_reader app lookup list_lookup].
  split; [reflexivity|]. split; [assumption|].
  split; [rewrite Hl; unfold len; lia|]. split; [lia|].
  split; [rewrite Hb, Hl; unfold len; now rewrite Nat2Z.id|].
  rewrite Hrd, Hb. change (Z.to_nat 0) with 0%nat. rewrite drop_0.
  destruct data as [|x data]; [now rewrite take_nil|].
  split; [reflexivity|]. split; [lia|].
  eexists. split; [exact Hr|]. now rewrite take_drop.
Qed.

Lemma NewStateString_at_stream (w : world reader) data :
  len data < 2 ^ 63 ->
  at_stream (fst (NewStateString data w)) (snd (NewStateString data w)) data.
Proof.
  intros Hlen. unfold NewStateString, newDataString, alloc_array, alloc_data.
  cbn [fst snd]. eexists. unfold deref. cbn [sdata nodes arrays].
  split; [apply list_lookup_middle; reflexivity|].
  cbn [Chunked.next buf slen scap rd datap]. split; [reflexivity|].
  unfold len in *. split; [lia|]. split; [lia|].
  assert (Hb : forall rs, bytes (mkWorld (arrays w ++ [data]) (nodes w ++ rs) (readers w))
                 (mkSlice (length (arrays w)) 0 (Z.of_nat (length data)) (Z.of_nat (length data)))
               = data).
  { intros rs. unfold bytes, array_at. cbn [arrays arr off slen].
    rewrite list_lookup_middle by reflexivity. cbn [default].
    rewrite drop_0, Nat2Z.id. apply take_ge. lia. }
  rewrite Hb. split; [now rewrite Nat2Z.id|reflexivity].
Qed.

(** Byte by byte, the input behind a [strings.Reader] comes out as it is,
    whatever the chunk size, and ends in [io.EOF]; a second traversal from
    the same State returns the same. *)
Lemma StringsReader_traversal data size :
  size < 2 ^ 63 ->
  exists s w w1,
    NewStateReaderSize 0%nat size (with_reader (StringsReader data)) = Done s w
    /\ allStateBytes (S (S (length data))) s w = Done (data, EOF) w1
    /\ allStateBytes (S (S (length data))) s w1 = Done (data, EOF) w1.
Proof.
  intros Hsize.
  destruct (NewStateReaderSize_at_stream data size Hsize) as (s & w & Hnew & Hs).
  destruct (allStateBytes_at_stream data s w Hs) as (w1 & Ha).
  exists s, w, w1. split; [assumption|]. split; [assumption|].
  now destruct (allStateBytes_replay _ _ _ _ _ w1 Ha (extends_refl w1)).
Qed.

(** *** Span extraction *)

Section SpanFacts.
Context {R : Type} `{Reader R}.

Lemma span_le (w : world R) n a dp a' dp' r :
  chain_ok w -> span w n a dp a' dp' r ->
  (a + n <= a')%nat /\ (a' < length (nodes w))%nat.
Proof.
  intros Hok Hs. induction Hs as [a d dp dp' Hd _ _|n a d p dp a' dp' r Hd Hn _ _ IH].
  - split; [lia|]. eapply lookup_lt_Some; eassumption.
  - destruct (Hok a d Hd) as (_ & _ & _ & Hp). specialize (Hp p Hn). lia.
Qed.

Lemma span_end (w : world R) n a dp a' dp' r :
  span w n a dp a' dp' r ->
  exists d', nodes w !! a' = Some d' /\ 0 <= dp' <= slen (buf d').
Proof.
  induction 1 as [a d dp dp' Hd Hdp Hle|]; [|assumption].
  exists d. split; [assumption|lia].
Qed.

Lemma bytes_prefix (w w' : world R) b :
  arrays w `prefix_of` arrays w' ->
  length (bytes w b) = Z.to_nat (slen b) ->
  bytes w' b = bytes w b.
Proof.
  intros Hp Hlen. unfold bytes in *.
  destruct (decide (arr b < length (arrays w))%nat) as [Hlt|Hge].
  - unfold array_at. destruct (lookup_lt_is_Some_2 _ _ Hlt) as [x Hx].
    now rewrite Hx, (prefix_lookup_Some _ _ _ _ Hx Hp).
  - unfold array_at in Hlen. rewrite lookup_ge_None_2 in Hlen by lia.
    cbn in Hlen. rewrite drop_nil, take_nil in Hlen. cbn in Hlen.
    rewrite <- Hlen. now rewrite !take_0.
Qed.

Lemma span_extends (w w' : world R) n a dp a' dp' r :
  chain_ok w -> extends w w' ->
  span w n a dp a' dp' r -> span w' n a dp a' dp' r.
Proof.
  intros Hok [Harr Hnodes] Hs.
  induction Hs as [a d dp dp' Hd Hdp Hle|n a d p dp a' dp' r Hd Hn Hdp _ IH].
  - destruct (Hnodes a d Hd) as (d1 & Hd1 & (_ & _ & Hb & _)).
    destruct (Hok a d Hd) as (Hlen & _).
    rewrite <- (bytes_prefix w w' (buf d) Harr Hlen), <- Hb.
    apply span_here; [assumption|lia|rewrite Hb; lia].
  - destruct (Hnodes a d Hd) as (d1 & Hd1 & (_ & _ & Hb & Hnx & _)).
    destruct (Hok a d Hd) as (Hlen & _).
    rewrite <- (bytes_prefix w w' (buf d) Harr Hlen), <- Hb.
    apply (span_next w' n a d1 p); [exact Hd1|exact (Hnx p Hn)|rewrite Hb; lia|exact IH].
Qed.

Lemma take_drop_split {A} (l : list A) (i j k : nat) :
  (i <= j <= k)%nat ->
  take (j - i) (drop i l) ++ take (k - j) (drop j l) = take (k - i) (drop i l).
Proof.
  intros Hijk.
  replace (drop j l) with (drop (j - i) (drop i l))
    by (rewrite drop_drop; f_equal; lia).
  rewrite take_take_drop. f_equal. lia.
Qed.

Lemma take_drop_rest {A} (l : list A) (i j : nat) :
  (i <= j)%nat -> take (j - i) (drop i l) ++ drop j l = drop i l.
Proof.
  intros Hij.
  replace (drop j l) with (drop (j - i) (drop i l))
    by (rewrite drop_drop; f_equal; lia).
  apply take_drop.
Qed.

(** Spans compose. *)
Lemma span_app (w : world R) n a dp a1 dp1 X :
  span w n a dp a1 dp1 X ->
  forall m a' dp' Y,
    span w m a1 dp1 a' dp' Y -> span w (n + m) a dp a' dp' (X ++ Y).
Proof.
  intros Hs.
  induction Hs as [a d dp dp1 Hd Hdp Hle|n a d p dp a1 dp1 r Hd Hn Hdp _ IH];
    intros m a' dp' Y Hs2.
  - inversion Hs2 as [a0 d0 dp0 dp0' Hd0 Hdp0 Hle0|m0 a0 d0 p dp0 a0' dp0' r Hd0 Hn0 Hdp0 Hrest];
      subst; assert (d0 = d) as -> by congruence; cbn [Nat.add].
    + rewrite !Z2Nat.inj_sub by lia.
      rewrite take_drop_split by lia. rewrite <- Z2Nat.inj_sub by lia.
      apply span_here; [assumption|lia|assumption].
    + rewrite app_assoc, Z2Nat.inj_sub by lia.
      rewrite take_drop_rest by lia.
      eapply span_next; [eassumption|eassumption|lia|assumption].
  - rewrite <- app_assoc. cbn [Nat.add].
    eapply span_next; [eassumption|eassumption|assumption|]. now apply IH.
Qed.


Lemma length_copy (dst src : list byte) : length (fst (copy dst src)) = length dst.
Proof.
  unfold copy. cbn [fst]. rewrite length_app, length_take, length_drop. lia.
Qed.

(** A fetched node is as [node_ok] says, and the others stay so. *)
Lemma newDataReaderSize_chain_ok r size (w : world R) p w1 :
  newDataReaderSize r size w = Done p w1 ->
  chain_ok w -> size < 2 ^ 63 ->
  p = length (nodes w)
  /\ exists d, nodes w1 = nodes w ++ [d] /\ node_ok w1 p d
               /\ scap (buf d) = size /\ next d = None
               /\ arrays w `prefix_of` arrays w1
               /\ forall a d0, nodes w !! a = Some d0 -> node_ok w1 a d0.
Proof.
  unfold newDataReaderSize. intros Hnew Hok Hsize.
  destruct (Z.ltb_spec size 0); [discriminate|].
  destruct (readers w !! r) as [st|]; [|discriminate].
  destruct (Read st size) as [res st'].
  pose proof (length_copy (make size) (written res)) as Hlen.
  destruct (copy (make size) (written res)) as [content k].
  cbn [fst] in Hlen. unfold make in Hlen. rewrite length_replicate in Hlen.
  cbn [alloc_array alloc_data arrays nodes readers] in Hnew.
  destruct (Z.ltb_spec (count res) 0); [discriminate|].
  destruct (Z.ltb_spec size (count res)); [discriminate|].
  cbn [orb] in Hnew.
  set (b := mkSlice (length (arrays w)) 0 (count res) size) in *.
  assert (Hb : forall w' : world R, arrays w' = arrays w ++ [content] ->
                 length (bytes w' b) = Z.to_nat (slen b)).
  { intros w' Hw'. unfold bytes, array_at, b. rewrite Hw'. cbn [arr off slen].
    rewrite list_lookup_middle by reflexivity. cbn [default from_option id].
    rewrite drop_0, length_take, Hlen. lia. }
  assert (Hold : forall (w' : world R) a d0,
            arrays w' = arrays w ++ [content] ->
            (length (nodes w) <= length (nodes w'))%nat ->
            nodes w !! a = Some d0 -> node_ok w' a d0).
  { intros w' a d0 Hw' Hlen' Hd0.
    destruct (Hok a d0 Hd0) as (Hl & Hs & Hc & Hp).
    split; [|split; [assumption|split; [assumption|]]].
    - rewrite (bytes_prefix w w'); [assumption| |assumption].
      rewrite Hw'. now apply prefix_app_r.
    - intros q Hq. specialize (Hp q Hq). lia. }
  set (d := match rerr res with
            | Some EOF => mkData None None b None
            | e => mkData (Some r) e b None
            end) in *.
  assert (Hd : buf d = b /\ next d = None) by (subst d; destruct (rerr res) as [[]|]; auto).
  destruct Hd as [Hbuf Hnx].
  injection Hnew as <- <-. split; [reflexivity|].
  exists d. cbn [nodes arrays].
  split; [reflexivity|].
  split.
  { split; [rewrite Hbuf; now apply Hb|].
    rewrite Hbuf. unfold b. cbn [slen scap]. split; [lia|]. split; [lia|].
    intros q Hq. congruence. }
  split; [now rewrite Hbuf|]. split; [assumption|].
  split; [now apply prefix_app_r|].
  intros a d0 Hd0.
  apply Hold; [reflexivity|cbn [nodes]; rewrite length_app; lia|assumption].
Qed.

Lemma extend_chain_ok s d r (w : world R) w1 :
  deref w s = Some d -> next d = None -> rd d = Some r ->
  extend s d r w = Done tt w1 ->
  chain_ok w -> chain_ok w1.
Proof.
  intros Hd Hnx Hrd Hext Hok. unfold extend in Hext.
  destruct (newDataReaderSize r (scap (buf d)) w) as [p w0| |] eqn:Hnew;
    try discriminate.
  unfold deref in Hd. destruct (sdata s) as [a|]; [|discriminate].
  destruct (Hok a d Hd) as (_ & _ & Hcap & _).
  apply newDataReaderSize_chain_ok in Hnew
    as (-> & dn & Hn & Hdn & _ & Hdnx & _ & Hold); try assumption.
  injection Hext as <-. unfold set_next.
  assert (Ha0 : nodes w0 !! a = Some d) by (rewrite Hn; now apply lookup_app_l_Some).
  assert (Hlt : (a < length (nodes w))%nat) by (eapply lookup_lt_Some; eassumption).
  rewrite Ha0.
  assert (Hnode : forall a' d', node_ok w0 a' d' ->
            node_ok (mkWorld (arrays w0)
                       (<[a := mkData (rd d) (derr d) (buf d) (Some (length (nodes w)))]> (nodes w0))
                       (readers w0)) a' d').
  { intros a' d' (Hl & Hs & Hc & Hp). split; [exact Hl|].
    split; [assumption|]. split; [assumption|].
    cbn [nodes]. now rewrite length_insert. }
  intros a' d'. cbn [nodes].
  destruct (decide (a' = a)) as [->|Hne].
  - rewrite list_lookup_insert_eq by (rewrite Hn, length_app; lia).
    intros [= <-]. destruct (Hold a d Hd) as (Hl & Hs & Hc & _).
    split; [exact Hl|]. split; [assumption|]. split; [assumption|].
    cbn [Chunked.next nodes]. intros q [= <-].
    rewrite length_insert, Hn, length_app. cbn. lia.
  - rewrite list_lookup_insert_ne by congruence.
    intros Hl. apply Hnode. rewrite Hn in Hl.
    apply lookup_app_Some in Hl as [Hl|[Hge Hl]]; [now apply Hold|].
    apply list_lookup_singleton_Some in Hl as [Hz <-].
    replace a' with (length (nodes w)) by lia. assumption.
Qed.


Lemma nextDataState_inv s (w : world R) s0 a :
  nextDataState s w = Some s0 -> sdata s = Some a ->
  exists d p, nodes w !! a = Some d /\ next d = Some p
              /\ sdata s0 = Some p /\ datap s0 = 0.
Proof.
  unfold nextDataState, deref. intros Hn Hs. rewrite Hs in Hn.
  destruct (nodes w !! a) as [d|]; [|discriminate].
  destruct (next d) as [p|] eqn:Hp; [|discriminate].
  injection Hn as <-. eauto 6.
Qed.

(** The byte [Byte] returns is the span from the State it was called on
    to the State it returns. *)
Lemma Byte_span fuel : forall s (w : world R) b s1 w1 a d,
  Byte fuel s w = Done (b, s1, None) w1 ->
  chain_ok w ->
  sdata s = Some a -> nodes w !! a = Some d -> 0 <= datap s <= slen (buf d) ->
  chain_ok w1
  /\ exists n a1, sdata s1 = Some a1 /\ span w1 n a (datap s) a1 (datap s1) [b].
Proof.
  induction fuel as [|fuel IH]; intros s w b s1 w1 a d Hb Hok Hs Hd Hdp;
    [discriminate|].
  destruct (Hok a d Hd) as (Hlen & Hslen & Hcap & Hnext).
  cbn [Byte] in Hb. unfold deref in Hb. rewrite Hs, Hd in Hb.
  destruct (Z.ltb_spec (datap s) (slen (buf d))) as [Hin|Hend].
  - destruct (Z.ltb_spec (datap s) 0); [discriminate|].
    destruct (bytes w (buf d) !! Z.to_nat (datap s)) as [b0|] eqn:Hl; [|discriminate].
    assert (Hc : consume s 1 b0
                 = (fst (consume s 1 b0), None)
                 /\ sdata (fst (consume s 1 b0)) = sdata s
                 /\ datap (fst (consume s 1 b0)) = datap s + 1).
    { unfold consume. destruct (b0 =? 10); cbn;
        (split; [reflexivity|split; [reflexivity|apply wrap64_small; lia]]). }
    destruct Hc as (Hc & Hcs & Hcp). rewrite Hc in Hb.
    injection Hb as <- <- <-. split; [assumption|].
    exists 0%nat, a. rewrite Hcs, Hcp. split; [assumption|].
    replace [b0] with (take (Z.to_nat (datap s + 1 - datap s))
                            (drop (Z.to_nat (datap s)) (bytes w (buf d)))).
    { apply span_here; [assumption|lia|lia]. }
    rewrite (drop_S _ _ _ Hl). replace (datap s + 1 - datap s) with 1 by lia.
    reflexivity.
  - assert (Hstep : forall w0,
              chain_ok w0 -> extends w w0 ->
              match nextDataState s w0 with
              | Some s0 => Byte fuel s0 w0
              | None => Panic
              end = Done (b, s1, None) w1 ->
              chain_ok w1
              /\ exists n a1, sdata s1 = Some a1
                              /\ span w1 n a (datap s) a1 (datap s1) [b]).
    { intros w0 Hok0 Hext0 Hrec.
      destruct (nextDataState s w0) as [s0|] eqn:Hs0; [|discriminate].
      destruct (nextDataState_inv _ _ _ _ Hs0 Hs) as (d0 & p & Hd0 & Hp & Hsp & Hdp0).
      destruct (Hok0 a d0 Hd0) as (_ & _ & _ & Hnext0).
      destruct (lookup_lt_is_Some_2 (nodes w0) p) as [dp Hdpn];
        [specialize (Hnext0 p Hp); lia|].
      destruct (Hok0 p dp Hdpn) as (_ & Hslenp & _).
      destruct (IH s0 w0 b s1 w1 p dp Hrec Hok0 Hsp Hdpn) as (Hok1 & n & a1 & Hs1 & Hspan);
        [rewrite Hdp0; lia|].
      split; [assumption|]. exists (S n), a1. split; [assumption|].
      pose proof (Byte_store _ _ _ _ _ Hrec) as [Hext1 _].
      destruct Hext1 as [_ Hnodes1].
      destruct (Hnodes1 a d0 Hd0) as (d1 & Hd1 & (_ & _ & Hb1 & Hn1 & _)).
      destruct Hext0 as [_ Hnodes0].
      destruct (Hnodes0 a d Hd) as (d0' & Hd0' & (_ & _ & Hb0 & _)).
      assert (d0' = d0) as -> by congruence.
      destruct (Hok1 a d1 Hd1) as (Hlen1 & _).
      replace [b] with (drop (Z.to_nat (datap s)) (bytes w1 (buf d1)) ++ [b]).
      { eapply span_next; [exact Hd1|exact (Hn1 p Hp)|rewrite Hb1, Hb0; lia|].
        rewrite Hdp0 in Hspan. exact Hspan. }
      rewrite drop_ge; [reflexivity|]. rewrite Hlen1, Hb1, Hb0. lia. }
    destruct (rd d) as [r|] eqn:Hrd, (next d) as [p|] eqn:Hnx.
    + apply (Hstep w Hok (extends_refl w) Hb).
    + destruct (extend s d r w) as [[] w0| |] eqn:Hext; try discriminate.
      assert (Hds : deref w s = Some d) by (unfold deref; now rewrite Hs).
      pose proof (extend_chain_ok _ _ _ _ _ Hds Hnx Hrd Hext Hok) as Hok0.
      apply extend_store in Hext as (Hext0 & _); try assumption.
      apply (Hstep w0 Hok0 Hext0 Hb).
    + apply (Hstep w Hok (extends_refl w) Hb).
    + discriminate.
Qed.


Lemma readBytes_extends n : forall fuel s (w : world R) r w',
  readBytes n fuel s w = Done r w' -> extends w w'.
Proof.
  induction n as [|n IH]; intros fuel s w r w'; cbn [readBytes].
  - intros [= _ <-]. apply extends_refl.
  - destruct (Byte fuel s w) as [[[b s1] [e|]] w1| |] eqn:Hb; try discriminate.
    destruct (readBytes n fuel s1 w1) as [[bs s2] w2| |] eqn:Hr; try discriminate.
    intros [= _ <-]. pose proof (Byte_store _ _ _ _ _ Hb) as [He _].
    eapply extends_trans; [exact He|]. eapply IH; eassumption.
Qed.

(** The bytes that [n] calls of [Byte] return are the span from the first
    State to the last, and they move the offset by [n]. *)
Lemma readBytes_span n : forall fuel s (w : world R) bs s' w' a d,
  readBytes n fuel s w = Done (bs, s') w' ->
  chain_ok w ->
  sdata s = Some a -> nodes w !! a = Some d -> 0 <= datap s <= slen (buf d) ->
  - 2 ^ 63 <= offset s -> offset s + Z.of_nat n < 2 ^ 63 ->
  chain_ok w' /\ length bs = n /\ offset s' = offset s + Z.of_nat n
  /\ exists m a', sdata s' = Some a' /\ span w' m a (datap s) a' (datap s') bs.
Proof.
  induction n as [|n IH]; intros fuel s w bs s' w' a d Hr Hok Hs Hd Hdp Hlo Hhi;
    cbn [readBytes] in Hr.
  - injection Hr as <- <- <-. split; [assumption|]. split; [reflexivity|].
    split; [lia|]. exists 0%nat, a. split; [assumption|].
    replace (@nil Z) with (take (Z.to_nat (datap s - datap s))
                                (drop (Z.to_nat (datap s)) (bytes w (buf d))))
      by (now rewrite Z.sub_diag).
    apply span_here; [assumption|lia|lia].
  - destruct (Byte fuel s w) as [[[b s1] [e|]] w1| |] eqn:Hb; try discriminate.
    destruct (readBytes n fuel s1 w1) as [[bs1 s2] w2| |] eqn:Hr1; try discriminate.
    injection Hr as <- <- <-.
    destruct (Byte_span _ _ _ _ _ _ _ _ Hb Hok Hs Hd Hdp) as (Hok1 & k & a1 & Hs1 & Hsp).
    destruct (span_end _ _ _ _ _ _ _ Hsp) as (d1 & Hd1 & Hdp1).
    destruct (Byte_position _ _ _ _ _ _ Hb) as (Hoff & _).
    rewrite wrap64_small in Hoff by lia.
    destruct (IH _ _ _ _ _ _ _ _ Hr1 Hok1 Hs1 Hd1 Hdp1) as (Hok2 & Hlen & Hoff2 & m & a' & Hs2 & Hsp2);
      [lia|lia|].
    split; [assumption|]. split; [cbn; lia|]. split; [lia|].
    exists (k + m)%nat, a'. split; [assumption|].
    change (b :: bs1) with ([b] ++ bs1).
    eapply span_app; [|exact Hsp2].
    eapply span_extends; [exact Hok1| |exact Hsp].
    eapply readBytes_extends; eassumption.
Qed.


(** [copy] and [copy_at] into a result whose unwritten part is zero. *)
Lemma copy_zeros (m : nat) (src : list byte) :
  (length src <= m)%nat ->
  copy (replicate m 0) src = (src ++ replicate (m - length src) 0, len src).
Proof.
  intros Hle. unfold copy, len. rewrite length_replicate.
  replace (Nat.min m (length src)) with (length src) by lia.
  now rewrite take_ge, drop_replicate by lia.
Qed.

Lemma copy_at_zeros (written : list byte) (m : nat) (src : list byte) :
  (length src <= m)%nat ->
  copy_at (written ++ replicate m 0) (len written) src
  = Some ((written ++ src) ++ replicate (m - length src) 0, len src).
Proof.
  intros Hle. unfold copy_at, len.
  destruct (Z.ltb_spec (Z.of_nat (length written)) 0); [lia|].
  rewrite length_app, length_replicate.
  destruct (Z.ltb_spec (Z.of_nat (length written + m)) (Z.of_nat (length written)));
    [lia|].
  cbn [orb]. rewrite Nat2Z.id, drop_app_length, take_app_length.
  rewrite copy_zeros by assumption. unfold len. now rewrite app_assoc.
Qed.

Lemma take_drop_take {A} (l : list A) (n i m : nat) :
  (i + n <= m)%nat -> take n (drop i (take m l)) = take n (drop i l).
Proof.
  intros Hle. rewrite !take_drop_commute, take_take.
  f_equal. f_equal. lia.
Qed.

(** The direct slice [buf[lo:hi]] within the length of the buffer. *)
Lemma subslice_bytes (w : world R) (b : slice) lo hi :
  0 <= lo <= hi -> hi <= slen b -> slen b <= scap b ->
  subslice w b lo hi
  = Some (take (Z.to_nat (hi - lo)) (drop (Z.to_nat lo) (bytes w b))).
Proof.
  intros Hlo Hhi Hcap. unfold subslice, bytes.
  destruct (Z.ltb_spec lo 0); [lia|].
  destruct (Z.ltb_spec hi lo); [lia|].
  destruct (Z.ltb_spec (scap b) hi); [lia|].
  cbn [orb]. f_equal.
  rewrite take_drop_take by lia. now rewrite drop_drop.
Qed.

(** The loop of [keepBytes] writes the whole nodes of a span. *)
Lemma keepBytes_loop_span (w : world R) (L : nat) n p a' dp' r :
  chain_ok w ->
  span w n p 0 a' dp' r ->
  forall fuel written cur end_ de,
    (n <= fuel)%nat ->
    sdata cur = Some p -> sdata end_ = Some a' -> nodes w !! a' = Some de ->
    (length written + length r = L)%nat -> Z.of_nat L < 2 ^ 63 ->
    exists written',
      keepBytes_loop fuel w (written ++ replicate (L - length written) 0)
                     (len written) cur end_
      = Some (written' ++ replicate (L - length written') 0, len written')
      /\ written' ++ take (Z.to_nat dp') (bytes w (buf de)) = written ++ r.
Proof.
  intros Hok Hsp.
  remember 0 as dp0 eqn:Hdp0.
  induction Hsp as [a d dp dp' Hd Hdp Hle|n a d p dp a' dp' r Hd Hn Hdp Hsp IH];
    intros fuel written cur end_ de Hfuel Hcur Hend Hde Hlen HL; subst dp.
  - assert (de = d) as -> by congruence.
    exists written. split.
    + destruct fuel; cbn [keepBytes_loop];
        (destruct (decide (sdata cur = sdata end_)) as [_|Hne]; [reflexivity|congruence]).
    + now rewrite Z.sub_0_r, drop_0.
  - destruct (span_le _ _ _ _ _ _ _ Hok Hsp) as [Hlt _].
    destruct (Hok a d Hd) as (Hbl & _ & _ & Hnext). specialize (Hnext p Hn).
    destruct fuel as [|fuel]; [lia|]. cbn [keepBytes_loop].
    destruct (decide (sdata cur = sdata end_)) as [He|_];
      [rewrite Hcur, Hend in He; injection He; lia|].
    unfold deref, nextDataState, deref. rewrite Hcur, Hd, Hn.
    change (Z.to_nat 0) with 0%nat in Hlen. rewrite drop_0, length_app in Hlen.
    replace (L - length written)%nat
      with (length (bytes w (buf d)) + (L - length (written ++ bytes w (buf d))))%nat
      by (rewrite length_app; lia).
    rewrite copy_at_zeros by lia.
    replace (length (bytes w (buf d)) + (L - length (written ++ bytes w (buf d)))
             - length (bytes w (buf d)))%nat
      with (L - length (written ++ bytes w (buf d)))%nat by lia.
    replace (wrap64 (len written + len (bytes w (buf d))))
      with (len (written ++ bytes w (buf d)))
      by (unfold len; rewrite length_app, wrap64_small; lia).
    destruct (IH eq_refl fuel (written ++ bytes w (buf d))
                 (mkState (Some p) 0 (offset cur) (line cur) (column cur)) end_ de)
      as (written' & Hloop & Heq); try assumption; try reflexivity; try lia.
    { rewrite length_app. lia. }
    exists written'. split; [exact Hloop|].
    rewrite Heq. change (Z.to_nat 0) with 0%nat. now rewrite drop_0, app_assoc.
Qed.


(** [keepBytes] returns the span between its two States when their
    offsets differ by its length. *)
Lemma keepBytes_of_span (w : world R) s s' a a' n bs k :
  chain_ok w ->
  sdata s = Some a -> sdata s' = Some a' ->
  span w n a (datap s) a' (datap s') bs ->
  offset s' - offset s = len bs -> len bs < 2 ^ 63 ->
  (n <= k)%nat ->
  keepBytes k w s s' = Some bs.
Proof.
  intros Hok Hs Hs' Hsp Hoff HL Hk.
  destruct (span_end _ _ _ _ _ _ _ Hsp) as (de & Hde & Hdpe).
  unfold keepBytes, deref. rewrite Hs, Hs', Hde.
  inversion Hsp as [a0 d dp dp' Hd Hdp Hle|n' a0 d p dp a0' dp' r Hd Hn Hdp Hrest];
    subst.
  - assert (de = d) as -> by congruence. rewrite Hd.
    destruct (decide (Some a' = Some a')) as [_|Hne]; [|congruence].
    destruct (Hok a' d Hd) as (_ & Hslen & _).
    apply subslice_bytes; lia.
  - rewrite Hd.
    destruct (span_le _ _ _ _ _ _ _ Hok Hrest) as [Hlt _].
    destruct (Hok a d Hd) as (Hbl & Hslen & _ & Hnext). specialize (Hnext p Hn).
    destruct (Hok a' de Hde) as (_ & Hslene & _).
    destruct (decide (Some a = Some a')) as [He|_]; [injection He; lia|].
    rewrite Hoff, wrap64_small by (unfold len in *; lia).
    destruct (Z.ltb_spec (len (drop (Z.to_nat (datap s)) (bytes w (buf d)) ++ r)) 0);
      [unfold len in *; lia|].
    unfold suffix.
    destruct (Z.ltb_spec (datap s) 0); [lia|].
    destruct (Z.ltb_spec (slen (buf d)) (datap s)); [lia|].
    cbn [orb]. unfold make, len. rewrite Nat2Z.id.
    set (src := drop (Z.to_nat (datap s)) (bytes w (buf d))) in *.
    set (L := length (src ++ r)).
    rewrite copy_zeros by (subst L; rewrite length_app; lia).
    unfold nextDataState, deref. rewrite Hs, Hd, Hn.
    destruct (keepBytes_loop_span w L n' p a' (datap s') r Hok Hrest k src
                (mkState (Some p) 0 (offset s) (line s) (column s)) s' de)
      as (written' & Hloop & Heq); try assumption; try reflexivity; try lia.
    { subst L. now rewrite length_app. }
    fold (len src). rewrite Hloop.
    rewrite subslice_bytes by lia.
    rewrite Z.sub_0_r. change (Z.to_nat 0) with 0%nat. rewrite drop_0.
    assert (HL' : (L - length written')%nat
                  = length (take (Z.to_nat (datap s')) (bytes w (buf de)))).
    { apply (f_equal length) in Heq. rewrite !length_app in Heq.
      subst L. rewrite length_app. lia. }
    rewrite HL', copy_at_zeros by lia.
    now rewrite Nat.sub_diag, app_nil_r, Heq.
Qed.

(** Span extraction is right for every stretch of input that was read
    byte by byte: [keepBytes] between the first and the last State
    returns the bytes that were read. *)
Lemma keepBytes_readBytes n fuel s (w : world R) bs s' w' :
  readBytes n fuel s w = Done (bs, s') w' ->
  chain_ok w -> state_ok w s ->
  0 <= offset s -> offset s + Z.of_nat n < 2 ^ 63 ->
  keepBytes (length (nodes w')) w' s s' = Some bs.
Proof.
  intros Hr Hok (d & Hd & Hdp) Hlo Hhi.
  unfold deref in Hd. destruct (sdata s) as [a|] eqn:Hs; [|discriminate].
  destruct (readBytes_span _ _ _ _ _ _ _ _ _ Hr Hok Hs Hd Hdp ltac:(lia) Hhi)
    as (Hok' & Hlen & Hoff & m & a' & Hs' & Hsp).
  destruct (span_le _ _ _ _ _ _ _ Hok' Hsp) as [Hle Hlt].
  eapply keepBytes_of_span; try eassumption; unfold len; lia.
Qed.


(** The stores and States the constructors make satisfy the conditions. *)
Lemma chain_ok_empty (rs : list R) : chain_ok (mkWorld [] [] rs).
Proof. intros a d Hd. discriminate. Qed.

Lemma NewStateReaderSize_ok r size (w : world R) s w1 :
  NewStateReaderSize r size w = Done s w1 ->
  chain_ok w -> size < 2 ^ 63 ->
  chain_ok w1 /\ state_ok w1 s /\ offset s = 0.
Proof.
  unfold NewStateReaderSize, minDataSize. intros Hnew Hok Hsize.
  destruct (newDataReaderSize r (Z.max size 8) w) as [p w0| |] eqn:Hn;
    try discriminate.
  injection Hnew as <- <-.
  apply newDataReaderSize_chain_ok in Hn
    as (-> & d & Hnodes & Hd & _ & _ & _ & Hold); [|assumption|lia].
  split; [|split; [|reflexivity]].
  - intros a d0. rewrite Hnodes. intros Hl.
    apply lookup_app_Some in Hl as [Hl|[Hge Hl]]; [now apply Hold|].
    apply list_lookup_singleton_Some in Hl as [Hz <-].
    replace a with (length (nodes w)) by lia. assumption.
  - exists d. unfold deref. cbn [sdata datap]. rewrite Hnodes.
    split; [now apply list_lookup_middle|].
    destruct Hd as (_ & Hs & _). lia.
Qed.

End SpanFacts.

(** *** The theorems at sample inputs *)

(** The sample States and stores are what the calls return. *)
Example samples_computed :
  (replay_state, replay_store) = replay_sample
  /\ (truncated_state, truncated_store) = truncated_sample.
Proof. split; vm_compute; reflexivity. Qed.

(** The truncated encoding across the boundary is reported at offset 7,
    where it starts. *)
Lemma Rune_reports_start_of_malformed_witness :
  State_Position truncated_state = mkPosition 7 1 8
  /\ exists w1,
       Rune 1 truncated_state truncated_store
       = Done (0, truncated_state,
               Some (RuneError (State_Position truncated_state))) w1.
Proof.
  split; [vm_compute; reflexivity|].
  eexists.
  eapply (Rune_reports_start_of_malformed 0%nat).
  - vm_compute. reflexivity.
  - vm_compute. split; [discriminate|reflexivity].
  - vm_compute. reflexivity.
  - split; [discriminate|]. vm_compute. reflexivity.
Defined.


(** *** Rune on the malformed inputs of the package's tests *)

(** "1" and the first two bytes of the encoding of U+221E, in memory:
    [RuneError] at offset 1. *)
Example Rune_truncated_in_one_node :
  let '(s, w) := NewStateString (str "1" ++ [0xE2; 0x88])
                                (mkWorld [] [] ([] : list reader)) in
  match skipBytes 1 1 s w with
  | Done s1 w1 =>
    Rune 1 s1 w1 = Done (0, s1, Some (RuneError (mkPosition 1 1 2))) w1
  | _ => False
  end.
Proof. vm_compute. reflexivity. Qed.

(** The same two bytes at the end of the first node of 8 bytes, followed
    by "acbd" in the second: the traversal by [Rune] ends with
    [RuneError] at offset 7. *)
Example Rune_truncated_across_nodes :
  match chunked8 (str "1234567" ++ [0xE2; 0x88] ++ str "acbd") 0 with
  | Done s w =>
    exists w1,
      allStateRunes 10 s w
      = Done (str "1234567", RuneError (mkPosition 7 1 8)) w1
  | _ => False
  end.
Proof. vm_compute. eexists. reflexivity. Qed.

(** *** keepBytes on sample inputs *)

(** "1234abcd5678efgh90" in chunks of 8 bytes: the span between the first
    State and the State 18 bytes later, which lies two nodes further, is
    the input. *)
Example keepBytes_across_nodes :
  match chunked8 (str "1234abcd5678efgh90") 0 with
  | Done s w =>
    match skipBytes 18 2 s w with
    | Done s' w' => keepBytes 4 w' s s' = Some (str "1234abcd5678efgh90")
    | _ => False
    end
  | _ => False
  end.
Proof. vm_compute. reflexivity. Qed.

(** The span over a rune that [Rune] decoded across a boundary is sized by
    the offsets of the two States, which are equal: it is empty. *)
Example keepBytes_over_straddling_Rune :
  match chunked8 (str "1234567∞") 7 with
  | Done s w =>
    match Rune 1 s w with
    | Done (_, s', _) w' => keepBytes 4 w' s s' = Some []
    | _ => False
    end
  | _ => False
  end.
Proof. vm_compute. reflexivity. Qed.

(** C3: the three bytes EF BF BD are the well-formed encoding of U+FFFD,
    which [utf8.DecodeRune] decodes with width 3; on a State made from
    them by [NewStateBytes], [Rune] fails with [RuneError] at offset 0
    and returns the State where it was. *)
Theorem Rune_rejects_encoded_sentinel :
  let sentinel := [0xEF; 0xBF; 0xBD] in
  let w0 := mkWorld [sentinel] [] ([] : list reader) in
  let '(s, w) := NewStateBytes (mkSlice 0 0 3 3) w0 in
  wellformed_start sentinel = true
  /\ utf8.DecodeRune sentinel = (utf8.RuneError, 3)
  /\ Rune 1 s w = Done (0, s, Some (RuneError (mkPosition 0 1 1))) w.
Proof. vm_compute. repeat split. Qed.

(** C4: "1234567∞" read in chunks of 8 bytes leaves the first byte of the
    three-byte "∞" at the end of the first node. After 7 bytes the offset
    is 7; [Rune] then returns U+221E and a State in the second node, past
    the two remaining bytes, whose offset is still 7, not 10. [Byte]
    called three times from the same State reaches offset 10. *)
Theorem straddling_Rune_keeps_offset :
  match chunked8 (str "1234567∞") 7 with
  | Done s w =>
    offset s = 7
    /\ match Rune 1 s w with
       | Done (r, s', None) _ =>
         r = 0x221E /\ sdata s' <> sdata s /\ datap s' = 2 /\ offset s' = 7
       | _ => False
       end
    /\ match skipBytes 3 2 s w with
       | Done s3 _ => sdata s3 <> sdata s /\ datap s3 = 2 /\ offset s3 = 10
       | _ => False
       end
  | _ => False
  end.
Proof. vm_compute. repeat split; discriminate. Qed.

(** C8: in the same situation, the column reported for the State that
    [Rune] returns is the column of the State before it (8): the scalar
    value U+221E, which is not a line feed, was consumed without the
    column moving on. *)
Theorem straddling_Rune_keeps_column :
  match chunked8 (str "1234567∞") 7 with
  | Done s w =>
    State_Position s = mkPosition 7 1 8
    /\ match Rune 1 s w with
       | Done (r, s', None) _ =>
         r = 0x221E /\ State_Position s' = mkPosition 7 1 8
       | _ => False
       end
  | _ => False
  end.
Proof. vm_compute. repeat split. Qed.

End ChunkedFacts.

(** ** The decoder looks at one encoding only *)

Module DecoderFacts.

Ltac decode_cases :=
  repeat (match goal with
          | |- context [Z.ltb ?a ?b] => destruct (Z.ltb_spec a b)
          | |- context [Z.leb ?a ?b] => destruct (Z.leb_spec a b)
          | |- context [Z.eqb ?a ?b] => destruct (Z.eqb_spec a b)
          end; cbn [andb orb negb]; try lia).

(** The width [DecodeRune] reports lies within the input, is at most 4,
    and is at least 1 unless the input is empty. *)
Lemma DecodeRune_width p :
  0 <= snd (utf8.DecodeRune p) <= len p
  /\ snd (utf8.DecodeRune p) <= 4
  /\ (p <> [] -> 1 <= snd (utf8.DecodeRune p)).
Proof.
  destruct p as [|p0 [|b1 [|b2 [|b3 tl]]]];
    unfold utf8.DecodeRune, utf8.first, utf8.cont, utf8.locb, utf8.hicb, len;
    cbn [length];
    decode_cases; cbn [snd];
    (split; [lia|split; [lia|intros; congruence || lia]]).
Qed.

(** A rune other than [RuneError] is decoded from the first [width]
    bytes alone: bytes that follow do not change it, ... *)
Lemma DecodeRune_app p q r w :
  utf8.DecodeRune p = (r, w) -> r <> utf8.RuneError ->
  utf8.DecodeRune (p ++ q) = (r, w).
Proof.
  destruct p as [|p0 [|b1 [|b2 [|b3 tl]]]];
    unfold utf8.DecodeRune, utf8.first, utf8.cont, utf8.locb, utf8.hicb, len;
    cbn [length app];
    try rewrite !length_app;
    decode_cases; intros [= <- <-] Hr; try congruence;
    destruct q as [|q0 [|q1 [|q2 q]]]; cbn [app length] in *; try lia;
    decode_cases; try congruence; try reflexivity; try lia.
Qed.

(** ... and cutting the input after them does not either. *)
Lemma DecodeRune_take p r w :
  utf8.DecodeRune p = (r, w) -> r <> utf8.RuneError ->
  utf8.DecodeRune (take (Z.to_nat w) p) = (r, w).
Proof.
  destruct p as [|p0 [|b1 [|b2 [|b3 tl]]]];
    unfold utf8.DecodeRune, utf8.first, utf8.cont, utf8.locb, utf8.hicb, len;
    cbn [length];
    decode_cases; intros [= <- <-] Hr; try congruence;
    (change (Z.to_nat 1) with 1%nat || change (Z.to_nat 2) with 2%nat
     || change (Z.to_nat 3) with 3%nat || change (Z.to_nat 4) with 4%nat);
    cbn [take length]; decode_cases; try congruence; try reflexivity.
Qed.

Lemma DecodeRune_prefix p q r w :
  utf8.DecodeRune (p ++ q) = (r, w) -> r <> utf8.RuneError -> w <= len p ->
  utf8.DecodeRune p = (r, w).
Proof.
  intros E Hr Hw.
  pose proof (DecodeRune_width (p ++ q)) as (Hw0 & _). rewrite E in Hw0.
  cbn [snd] in Hw0.
  pose proof (DecodeRune_take _ _ _ E Hr) as Et.
  rewrite take_app_le in Et by (unfold len in Hw; lia).
  rewrite <- (take_drop (Z.to_nat w) p) at 1.
  apply DecodeRune_app; assumption.
Qed.

Lemma DecodeRune_ascii b tl :
  b < 0x80 -> utf8.DecodeRune (b :: tl) = (b, 1).
Proof.
  intros Hb. unfold utf8.DecodeRune, utf8.first.
  destruct (Z.ltb_spec b 0x80); [reflexivity|lia].
Qed.

(** [range] has fuel to spare: every step consumes a byte or more. *)
Lemma range_fuel_enough n : forall l,
  (length l <= n)%nat -> utf8.range_fuel n l = utf8.range l.
Proof.
  unfold utf8.range.
  induction n as [n IH] using lt_wf_ind. intros l Hl.
  destruct l as [|b l'].
  - destruct n; reflexivity.
  - destruct n as [|n]; [cbn in Hl; lia|].
    cbn [length utf8.range_fuel].
    destruct (utf8.DecodeRune (b :: l')) as [r w] eqn:E.
    pose proof (DecodeRune_width (b :: l')) as (Hw & _ & Hw1).
    rewrite E in Hw, Hw1. cbn [snd] in *. specialize (Hw1 ltac:(discriminate)).
    f_equal.
    assert (Hd : (length (drop (Z.to_nat w) (b :: l')) <= length l')%nat).
    { rewrite length_drop. cbn [length]. lia. }
    rewrite (IH n) by (cbn in Hl; lia || lia).
    rewrite (IH (length l')); [reflexivity| cbn in Hl; lia | lia].
Qed.

Lemma range_nil : utf8.range [] = [].
Proof. reflexivity. Qed.

Lemma range_cons p r w :
  p <> [] -> utf8.DecodeRune p = (r, w) ->
  utf8.range p = r :: utf8.range (drop (Z.to_nat w) p).
Proof.
  intros Hp E. destruct p as [|b l]; [congruence|].
  unfold utf8.range at 1. cbn [length utf8.range_fuel]. rewrite E.
  f_equal. apply range_fuel_enough.
  pose proof (DecodeRune_width (b :: l)) as (Hw & _ & Hw1).
  rewrite E in Hw, Hw1. cbn [snd] in *. specialize (Hw1 ltac:(discriminate)).
  rewrite length_drop. cbn [length]. lia.
Qed.

Lemma take_app_drop {A} (l : list A) (n m : nat) :
  take (n + m) l = take n l ++ take m (drop n l).
Proof.
  revert l. induction n as [|n IH]; intros [|x l]; cbn;
    rewrite ?take_nil; try reflexivity.
  f_equal. apply IH.
Qed.

End DecoderFacts.

(** ** More on the combinators of parser.go *)

Module CombinatorFacts.
Import InMemory DecoderFacts.

(** *** The reads of the flat-buffer State *)

Lemma InMemory_Rune_no_error s v n e : Rune s <> Ret v n (Some e).
Proof.
  unfold Rune, consume.
  destruct (_ || _); [discriminate|].
  destruct (utf8.DecodeRune _); discriminate.
Qed.

Lemma InMemory_Byte_no_error s v n e : Byte s <> Ret v n (Some e).
Proof.
  unfold Byte, consume.
  destruct (_ <? _); [discriminate|].
  destruct (_ !! _); discriminate.
Qed.

Lemma remaining_advance s n :
  0 <= offset s -> 0 <= n ->
  remaining (advance s n) = drop (Z.to_nat n) (remaining s).
Proof.
  intros. unfold remaining, advance. cbn [offset buffer].
  rewrite drop_drop. f_equal. lia.
Qed.

Lemma advance_0 s : advance s 0 = s.
Proof. destruct s. unfold advance. cbn. f_equal. lia. Qed.

Lemma advance_advance s n m : advance (advance s n) m = advance s (n + m).
Proof. unfold advance. cbn. f_equal. lia. Qed.

Lemma Byte_remaining cur :
  0 <= offset cur -> len (buffer cur) < 2 ^ 63 ->
  Byte cur =
    match remaining cur with
    | [] => Panic
    | b :: _ => Ret b (advance cur 1) None
    end.
Proof.
  intros H0 Hl. unfold Byte, remaining.
  destruct (Z.ltb_spec (offset cur) 0); [lia|].
  destruct (buffer cur !! Z.to_nat (offset cur)) eqn:E.
  - rewrite (drop_S _ _ _ E). unfold consume, advance.
    apply lookup_lt_Some in E. unfold len in Hl.
    rewrite wrap64_small by lia. reflexivity.
  - apply lookup_ge_None_1 in E. rewrite drop_ge by lia. reflexivity.
Qed.

Lemma Rune_remaining cur :
  0 <= offset cur <= len (buffer cur) -> len (buffer cur) < 2 ^ 63 ->
  Rune cur =
    Ret (fst (utf8.DecodeRune (remaining cur)))
        (advance cur (snd (utf8.DecodeRune (remaining cur)))) None.
Proof.
  intros H0 Hl. unfold Rune, remaining.
  destruct (Z.ltb_spec (offset cur) 0); [lia|].
  destruct (Z.ltb_spec (len (buffer cur)) (offset cur)); [lia|].
  cbn [orb].
  pose proof (DecodeRune_width (drop (Z.to_nat (offset cur)) (buffer cur)))
    as (Hw & _).
  destruct (utf8.DecodeRune _) as [r w]. cbn [fst snd] in *.
  unfold consume, advance, len in *. rewrite length_drop in Hw.
  rewrite wrap64_small by lia. reflexivity.
Qed.

(** *** What the literal matchers accept *)

Lemma ExactString_loop_error token : forall s cur v n e,
  ExactString_loop token s cur = Ret v n (Some e) -> e = ErrNoMatch /\ n = s.
Proof.
  induction token as [|t ts IH]; intros s cur v n e; cbn [ExactString_loop].
  - discriminate.
  - destruct (Rune cur) as [r c' [e'|]|] eqn:E; try discriminate.
    + exfalso. exact (InMemory_Rune_no_error _ _ _ _ E).
    + destruct (negb _).
      * intros [= _ <- <-]. auto.
      * apply IH.
Qed.

Lemma ExactBytes_loop_error token : forall s cur v n e,
  ExactBytes_loop token s cur = Ret v n (Some e) -> e = ErrNoMatch /\ n = s.
Proof.
  induction token as [|t ts IH]; intros s cur v n e; cbn [ExactBytes_loop].
  - discriminate.
  - destruct (Byte cur) as [r c' [e'|]|] eqn:E; try discriminate.
    + exfalso. exact (InMemory_Byte_no_error _ _ _ _ E).
    + destruct (negb _).
      * intros [= _ <- <-]. auto.
      * apply IH.
Qed.

Lemma ExactBytes_loop_remaining token : forall s cur,
  0 <= offset cur -> len (buffer cur) < 2 ^ 63 ->
  (token `prefix_of` remaining cur ->
   ExactBytes_loop token s cur = Ret EmptyV (advance cur (len token)) None)
  /\ (remaining cur `prefix_of` token -> remaining cur <> token ->
      ExactBytes_loop token s cur = Panic)
  /\ (~ token `prefix_of` remaining cur -> ~ remaining cur `prefix_of` token ->
      ExactBytes_loop token s cur = Ret EmptyV s (Some ErrNoMatch)).
Proof.
  induction token as [|t ts IH]; intros s cur H0 Hl.
  - cbn [ExactBytes_loop]. rewrite advance_0.
    split; [reflexivity|]. split.
    + intros Hp Hne. apply prefix_nil_inv in Hp. congruence.
    + intros Hn. destruct Hn. apply prefix_nil.
  - cbn [ExactBytes_loop]. rewrite (Byte_remaining cur H0 Hl).
    destruct (remaining cur) as [|b rs] eqn:Er.
    + split; [intros Hp; apply prefix_nil_inv in Hp; discriminate|].
      split; [reflexivity|]. intros _ Hn. destruct Hn. apply prefix_nil.
    + assert (Hr1 : remaining (advance cur 1) = rs).
      { rewrite remaining_advance by lia. rewrite Er. reflexivity. }
      destruct (Z.eqb_spec t b) as [->|Hne]; cbn [negb].
      * destruct (IH s (advance cur 1)) as (I1 & I2 & I3);
          [cbn; lia | exact Hl |].
        rewrite Hr1 in I1, I2, I3. rewrite advance_advance in I1.
        replace (1 + len ts) with (len (b :: ts)) in I1
          by (unfold len; cbn [length]; lia).
        split; [|split].
        -- intros Hp. apply I1. eapply prefix_cons_inv_2, Hp.
        -- intros Hp Hn. apply I2; [eapply prefix_cons_inv_2, Hp|congruence].
        -- intros Hn1 Hn2. apply I3; intros Hp;
             [apply Hn1|apply Hn2]; apply prefix_cons, Hp.
      * split; [|split].
        -- intros Hp. apply prefix_cons_inv_1 in Hp. congruence.
        -- intros Hp. apply prefix_cons_inv_1 in Hp. congruence.
        -- reflexivity.
Qed.

Lemma ExactString_loop_remaining runes : forall s cur,
  utf8.RuneError ∉ runes ->
  0 <= offset cur <= len (buffer cur) -> len (buffer cur) < 2 ^ 63 ->
  (runes `prefix_of` utf8.range (remaining cur) ->
   exists k, 0 <= k <= len (remaining cur)
     /\ ExactString_loop runes s cur = Ret EmptyV (advance cur k) None
     /\ utf8.range (take (Z.to_nat k) (remaining cur)) = runes)
  /\ (~ runes `prefix_of` utf8.range (remaining cur) ->
      ExactString_loop runes s cur = Ret EmptyV s (Some ErrNoMatch)).
Proof.
  induction runes as [|t ts IH]; intros s cur Hne H0 Hl.
  - split.
    + intros _. exists 0. rewrite advance_0. cbn [ExactString_loop].
      split; [unfold len; lia|]. split; reflexivity.
    + intros Hn. destruct Hn. apply prefix_nil.
  - cbn [ExactString_loop]. rewrite (Rune_remaining cur H0 Hl).
    apply not_elem_of_cons in Hne as [Ht Hts].
    destruct (remaining cur) as [|b rs] eqn:Er.
    + cbn [utf8.DecodeRune fst snd].
      destruct (Z.eqb_spec t utf8.RuneError) as [E|_]; [congruence|].
      cbn [negb]. rewrite range_nil. split; [|reflexivity].
      intros Hp. apply prefix_nil_inv in Hp. discriminate.
    + pose proof (DecodeRune_width (b :: rs)) as (Hw & _ & Hw1).
      specialize (Hw1 ltac:(discriminate)).
      destruct (utf8.DecodeRune (b :: rs)) as [r w] eqn:Ed.
      cbn [fst snd] in *.
      rewrite (range_cons (b :: rs) r w ltac:(discriminate) Ed).
      assert (Hlen : len (b :: rs) = len (buffer cur) - offset cur).
      { rewrite <- Er. unfold remaining, len in *. rewrite length_drop. lia. }
      assert (Hr1 : remaining (advance cur w) = drop (Z.to_nat w) (b :: rs)).
      { rewrite remaining_advance by lia. rewrite Er. reflexivity. }
      destruct (Z.eqb_spec t r) as [->|Hd]; cbn [negb].
      * destruct (IH s (advance cur w) Hts) as (I1 & I2);
          [unfold advance; cbn [offset buffer]; lia | exact Hl |].
        rewrite Hr1 in I1, I2.
        split.
        -- intros Hp. apply prefix_cons_inv_2 in Hp.
           destruct (I1 Hp) as (k & Hk & Hres & Hrange).
           unfold len in Hk. rewrite length_drop in Hk.
           exists (w + k). rewrite advance_advance in Hres.
           split; [unfold len in *; lia|]. split; [exact Hres|].
           replace (Z.to_nat (w + k)) with (Z.to_nat w + Z.to_nat k)%nat by lia.
           rewrite take_app_drop.
           rewrite (range_cons _ r w).
           ++ f_equal. rewrite drop_app_length'; [exact Hrange|].
              rewrite length_take. unfold len in *. lia.
           ++ replace (Z.to_nat w) with (S (Z.to_nat w - 1)) by lia.
              discriminate.
           ++ apply DecodeRune_app; [|congruence].
              apply DecodeRune_take; [exact Ed|congruence].
        -- intros Hn. apply I2. intros Hp. apply Hn. apply prefix_cons, Hp.
      * split; [|reflexivity].
        intros Hp. apply prefix_cons_inv_1 in Hp. congruence.
Qed.

Lemma ExactString_loop_own n : forall token s cur q,
  (length token <= n)%nat ->
  utf8.RuneError ∉ utf8.range token ->
  0 <= offset cur -> len (buffer cur) < 2 ^ 63 ->
  remaining cur = token ++ q ->
  ExactString_loop (utf8.range token) s cur
  = Ret EmptyV (advance cur (len token)) None.
Proof.
  induction n as [|n IH]; intros token s cur q Hn Hv H0 Hl Hrest.
  - destruct token; [|cbn in Hn; lia].
    rewrite range_nil. cbn [ExactString_loop]. now rewrite advance_0.
  - destruct token as [|b t].
    { rewrite range_nil. cbn [ExactString_loop]. now rewrite advance_0. }
    destruct (utf8.DecodeRune (b :: t)) as [r wd] eqn:Hdec.
    pose proof (DecodeRune_width (b :: t)) as (Hw & _ & Hw1).
    rewrite Hdec in Hw, Hw1. cbn [snd] in Hw, Hw1.
    specialize (Hw1 ltac:(discriminate)).
    rewrite (range_cons (b :: t) r wd ltac:(discriminate) Hdec) in Hv |- *.
    apply not_elem_of_cons in Hv as [Hr Hv].
    assert (Hin : offset cur <= len (buffer cur)).
    { unfold remaining in Hrest. unfold len.
      destruct (decide (Z.to_nat (offset cur) <= length (buffer cur))%nat);
        [lia|]. rewrite drop_ge in Hrest by lia. discriminate. }
    assert (Hlen : len (b :: t) <= len (buffer cur) - offset cur).
    { apply (f_equal length) in Hrest. unfold remaining in Hrest.
      rewrite length_drop, length_app in Hrest. unfold len in *. lia. }
    cbn [ExactString_loop]. rewrite (Rune_remaining cur ltac:(lia) Hl), Hrest.
    rewrite (DecodeRune_app (b :: t) q r wd Hdec ltac:(congruence)).
    cbn [fst snd]. rewrite Z.eqb_refl. cbn [negb].
    rewrite (IH (drop (Z.to_nat wd) (b :: t)) s (advance cur wd) q).
    + rewrite advance_advance. f_equal. f_equal. unfold len.
      rewrite length_drop. unfold len in Hw. lia.
    + rewrite length_drop. cbn [length] in *. lia.
    + exact Hv.
    + unfold advance. cbn [offset]. lia.
    + exact Hl.
    + rewrite remaining_advance by lia. rewrite Hrest.
      apply drop_app_le. unfold len in Hw. lia.
Qed.

(** X11: the reads of the flat-buffer State never return an error: past
    the end of the buffer [Byte] panics and [Rune] returns U+FFFD. So the
    only error [ExactString], [ExactBytes] and [ConditionRune] return is
    [ErrNoMatch], and they return it with the State they were called on. *)
Theorem matchers_fail_with_ErrNoMatch_only :
  (forall (s : State) r next e, Rune s <> Ret r next (Some e))
  /\ (forall (s : State) b next e, Byte s <> Ret b next (Some e))
  /\ (forall token s v next e,
        ExactString token s = Ret v next (Some e) -> e = ErrNoMatch /\ next = s)
  /\ (forall token s v next e,
        ExactBytes token s = Ret v next (Some e) -> e = ErrNoMatch /\ next = s)
  /\ (forall cond s v next e,
        ConditionRune cond s = Ret v next (Some e) ->
        e = ErrNoMatch /\ next = s).
Proof.
  split; [exact InMemory_Rune_no_error|].
  split; [exact InMemory_Byte_no_error|].
  split; [intros token s; apply ExactString_loop_error|].
  split; [intros token s; apply ExactBytes_loop_error|].
  intros cond s v n e. unfold ConditionRune.
  destruct (Rune s) as [r c' [e'|]|] eqn:E; try discriminate.
  - exfalso. exact (InMemory_Rune_no_error _ _ _ _ E).
  - destruct (negb _); [|discriminate]. intros [= _ <- <-]. auto.
Qed.

(** "foo" against "bar" fails with [ErrNoMatch] at the entry State. *)
Lemma matchers_fail_with_ErrNoMatch_only_witness :
  exists e next,
    ExactString (str "foo") (initial (str "bar")) = Ret EmptyV next (Some e)
    /\ (e = ErrNoMatch /\ next = initial (str "bar")).
Proof.
  eexists _, _. split; [vm_compute; reflexivity|].
  eapply (proj1 (proj2 (proj2 matchers_fail_with_ErrNoMatch_only))
            (str "foo") (initial (str "bar"))).
  vm_compute. reflexivity.
Defined.

(** X12: on a State within a buffer, [ExactBytes(token)] succeeds exactly
    when the unconsumed input starts with [token], and then returns the
    State [len(token)] bytes further on; when the input ends inside the
    token it panics (index out of range); in every other case it returns
    [ErrNoMatch] and the State it was called on. *)
Theorem ExactBytes_matches_prefix token s :
  0 <= offset s -> len (buffer s) < 2 ^ 63 ->
  (token `prefix_of` remaining s ->
   ExactBytes token s = Ret EmptyV (advance s (len token)) None)
  /\ (remaining s `prefix_of` token -> remaining s <> token ->
      ExactBytes token s = Panic)
  /\ (~ token `prefix_of` remaining s -> ~ remaining s `prefix_of` token ->
      ExactBytes token s = Ret EmptyV s (Some ErrNoMatch)).
Proof. apply ExactBytes_loop_remaining. Qed.

(** "foo" on "foobar" leaves "bar"; "foobar" on "foo" panics. *)
Lemma ExactBytes_matches_prefix_witness :
  ExactBytes (str "foo") (initial (str "foobar"))
  = Ret EmptyV (advance (initial (str "foobar")) 3) None
  /\ ExactBytes (str "foobar") (initial (str "foo")) = Panic.
Proof.
  split.
  - apply (ExactBytes_matches_prefix (str "foo") (initial (str "foobar"))).
    + vm_compute. discriminate.
    + vm_compute. reflexivity.
    + exists (str "bar"). vm_compute. reflexivity.
  - apply (ExactBytes_matches_prefix (str "foobar") (initial (str "foo"))).
    + vm_compute. discriminate.
    + vm_compute. reflexivity.
    + exists (str "bar"). vm_compute. reflexivity.
    + vm_compute. discriminate.
Defined.

(** X13: [ExactString] compares runes. For a token whose runes do not
    include U+FFFD and a State within a buffer, it succeeds exactly when
    the runes of the token are the first runes of the unconsumed input,
    and the bytes it then consumes decode to the runes of the token; in
    every other case it returns [ErrNoMatch] and the State it was called
    on. It does not panic, also when the input ends inside the token. *)
Theorem ExactString_matches_runes token s :
  utf8.RuneError ∉ utf8.range token ->
  0 <= offset s <= len (buffer s) -> len (buffer s) < 2 ^ 63 ->
  (utf8.range token `prefix_of` utf8.range (remaining s) ->
   exists k, 0 <= k <= len (remaining s)
     /\ ExactString token s = Ret EmptyV (advance s k) None
     /\ utf8.range (take (Z.to_nat k) (remaining s)) = utf8.range token)
  /\ (~ utf8.range token `prefix_of` utf8.range (remaining s) ->
      ExactString token s = Ret EmptyV s (Some ErrNoMatch)).
Proof. intros. apply ExactString_loop_remaining; assumption. Qed.

(** "foobar" on "foo", where [ExactBytes] panics: [ErrNoMatch]. *)
Lemma ExactString_matches_runes_witness :
  ExactString (str "foobar") (initial (str "foo"))
  = Ret EmptyV (initial (str "foo")) (Some ErrNoMatch).
Proof.
  apply (ExactString_matches_runes (str "foobar") (initial (str "foo"))).
  - apply (bool_decide_unpack _). vm_compute. exact I.
  - vm_compute. split; discriminate.
  - vm_compute. reflexivity.
  - apply (bool_decide_unpack _). vm_compute. exact I.
Defined.

(** X14: when the unconsumed input starts with the bytes of [token], and
    the runes of [token] do not include U+FFFD, [ExactString(token)]
    succeeds and returns the State [len(token)] bytes further on. *)
Theorem ExactString_accepts_its_token token q s :
  utf8.RuneError ∉ utf8.range token ->
  0 <= offset s -> len (buffer s) < 2 ^ 63 ->
  remaining s = token ++ q ->
  ExactString token s = Ret EmptyV (advance s (len token)) None.
Proof.
  intros. unfold ExactString. eapply ExactString_loop_own; eauto.
Qed.

(** The three bytes of U+221E, followed by "abc". *)
Lemma ExactString_accepts_its_token_witness :
  ExactString (str "∞") (initial (str "∞abc"))
  = Ret EmptyV (advance (initial (str "∞abc")) 3) None.
Proof.
  apply (ExactString_accepts_its_token (str "∞") (str "abc")
           (initial (str "∞abc"))).
  - apply (bool_decide_unpack _). vm_compute. exact I.
  - vm_compute. discriminate.
  - vm_compute. reflexivity.
  - vm_compute. reflexivity.
Defined.

(** *** Sequencing *)

(** X15: [DoParse] of [ExactString(a)] followed through [AndThen] by
    [ExactBytes(b)] accepts every input that starts with the bytes of [a]
    and then those of [b], when the runes of [a] do not include
    U+FFFD. *)
Theorem DoParse_accepts_ExactString_then_ExactBytes (a b q : list byte) :
  utf8.RuneError ∉ utf8.range a ->
  len (a ++ b ++ q) < 2 ^ 63 ->
  DoParse (AndThen (ExactString a) (fun _ => ExactBytes b)) (a ++ b ++ q)
  = Some (EmptyV, None).
Proof.
  intros Hv Hl. unfold DoParse, AndThen.
  rewrite (ExactString_loop_own (length a) a (initial (a ++ b ++ q))
             (initial (a ++ b ++ q)) (b ++ q) (le_n _) Hv
             ltac:(cbn; lia) Hl eq_refl
           : ExactString a (initial (a ++ b ++ q)) = _).
  set (s1 := advance (initial (a ++ b ++ q)) (len a)).
  assert (Hr : remaining s1 = b ++ q).
  { unfold s1. rewrite remaining_advance by (cbn; unfold len; lia).
    unfold remaining, initial, len. cbn [offset buffer]. rewrite drop_0.
    rewrite Nat2Z.id. apply drop_app_length. }
  destruct (ExactBytes_loop_remaining b s1 s1) as (I1 & _).
  - unfold s1, advance, initial, len. cbn [offset]. lia.
  - exact Hl.
  - unfold ExactBytes. rewrite I1; [reflexivity|].
    rewrite Hr. apply prefix_app_r. reflexivity.
Qed.

(** "foo" then "bar" on "foobar", as in the package's test. *)
Lemma DoParse_accepts_ExactString_then_ExactBytes_witness :
  DoParse (AndThen (ExactString (str "foo")) (fun _ => ExactBytes (str "bar")))
          (str "foo" ++ str "bar" ++ [])
  = Some (EmptyV, None).
Proof.
  apply (DoParse_accepts_ExactString_then_ExactBytes
           (str "foo") (str "bar") []).
  - apply (bool_decide_unpack _). vm_compute. exact I.
  - vm_compute. reflexivity.
Defined.

(** X16: [AndThen] is associative but for the State of a failure: nesting
    to the left or to the right gives the same results, except when the
    first parser succeeds and the second fails. Then both return the
    same error, the left nesting with the State the whole was called on
    and the right nesting with the State after the first parser. *)
Theorem AndThen_associative_up_to_failure_State
    {T U V} `{Zero U, Zero V}
    (p : Parser T) (f : T -> Parser U) (g : U -> Parser V) (s : State) :
  match p s with
  | Ret t next None =>
    match f t next with
    | Ret _ _ (Some e) =>
      AndThen (AndThen p f) g s = Ret zero s (Some e)
      /\ AndThen p (fun t => AndThen (f t) g) s = Ret zero next (Some e)
    | _ => AndThen (AndThen p f) g s = AndThen p (fun t => AndThen (f t) g) s
    end
  | _ => AndThen (AndThen p f) g s = AndThen p (fun t => AndThen (f t) g) s
  end.
Proof.
  unfold AndThen.
  destruct (p s) as [t next [e|]|]; try reflexivity.
  destruct (f t next) as [u n2 [e|]|]; try reflexivity.
  split; reflexivity.
Qed.

(** *** Position capture *)

(** X18: when [GetPositions(parser)] succeeds, the two Positions it
    returns are both the Position of the State it was called on, however
    far the parser went; the State it returns is the one the parser
    returned. *)
Theorem GetPositions_returns_the_entry_Position_twice
    {T} (parser : Parser T) (s : State) v next :
  GetPositions parser s = Ret v next None ->
  v = (State_Position s, State_Position s)
  /\ exists t, parser s = Ret t next None.
Proof.
  unfold GetPositions.
  destruct (parser s) as [t n1 [e1|]|]; try discriminate.
  intros [= <- <-]. eauto.
Qed.

(** Around "foo" on "foobar": both Positions at offset 0, the State
    returned at offset 3. *)
Lemma GetPositions_returns_the_entry_Position_twice_witness :
  exists next,
    GetPositions (ExactString (str "foo")) (initial (str "foobar"))
    = Ret (mkPosition 0 1 0, mkPosition 0 1 0) next None
    /\ offset next = 3
    /\ ((mkPosition 0 1 0, mkPosition 0 1 0)
        = (State_Position (initial (str "foobar")),
           State_Position (initial (str "foobar")))
        /\ exists t, ExactString (str "foo") (initial (str "foobar"))
                     = Ret t next None).
Proof.
  eexists. split; [vm_compute; reflexivity|].
  split; [vm_compute; reflexivity|].
  eapply (GetPositions_returns_the_entry_Position_twice
            (ExactString (str "foo")) (initial (str "foobar"))).
  vm_compute. reflexivity.
Defined.

End CombinatorFacts.

(** ** More on the streaming State *)

Module StreamFacts.
Import Chunked ChunkedFacts DecoderFacts.

Section Reading.
Context {R : Type} `{Reader R}.

(** *** The end of the input *)

(** Where [Byte] returns an error: the State it returns with it stands
    at the end of a node that has neither reader nor next. *)
Lemma Byte_EOF_state fuel : forall s (w : world R) b s' e w1,
  Byte fuel s w = Done (b, s', Some e) w1 ->
  b = 0 /\ e = EOF
  /\ offset s' = offset s /\ line s' = line s /\ column s' = column s
  /\ exists d, deref w1 s' = Some d /\ rd d = None /\ next d = None
               /\ ~ datap s' < slen (buf d).
Proof.
  induction fuel as [|fuel IH]; intros s w b s' e w1; [discriminate|].
  cbn [Byte].
  destruct (deref w s) as [d|] eqn:Hd; [|discriminate].
  destruct (Z.ltb_spec (datap s) (slen (buf d))).
  - destruct (datap s <? 0); [discriminate|].
    destruct (bytes w (buf d) !! _); [|discriminate].
    unfold consume. destruct (_ =? 10); discriminate.
  - destruct (rd d) as [r|] eqn:Hr, (next d) as [p|] eqn:Hn.
    + destruct (nextDataState s w) as [s0|] eqn:Hs0; [|discriminate].
      intros E. apply IH in E.
      apply nextDataState_position in Hs0 as (_ & Ho & Hl & Hc).
      rewrite Ho, Hl, Hc in E. exact E.
    + destruct (extend s d r w) as [[] w2| |]; try discriminate.
      destruct (nextDataState s w2) as [s0|] eqn:Hs0; [|discriminate].
      intros E. apply IH in E.
      apply nextDataState_position in Hs0 as (_ & Ho & Hl & Hc).
      rewrite Ho, Hl, Hc in E. exact E.
    + destruct (nextDataState s w) as [s0|] eqn:Hs0; [|discriminate].
      intros E. apply IH in E.
      apply nextDataState_position in Hs0 as (_ & Ho & Hl & Hc).
      rewrite Ho, Hl, Hc in E. exact E.
    + intros [= <- <- <- <-]. repeat split; try reflexivity.
      exists d. repeat split; try assumption. lia.
Qed.

Lemma Byte_at_end fuel s (w : world R) d :
  deref w s = Some d -> rd d = None -> next d = None ->
  ~ datap s < slen (buf d) ->
  Byte (S fuel) s w = Done (0, s, Some EOF) w.
Proof.
  intros Hd Hr Hn Hp. cbn [Byte]. rewrite Hd, Hr, Hn.
  destruct (Z.ltb_spec (datap s) (slen (buf d))); [lia|reflexivity].
Qed.

Lemma Rune_at_end fuel s (w : world R) d :
  deref w s = Some d -> rd d = None -> next d = None ->
  ~ datap s < slen (buf d) ->
  Rune (S fuel) s w = Done (0, s, Some EOF) w.
Proof.
  intros Hd Hr Hn Hp. cbn [Rune]. rewrite Hd, Hr, Hn.
  destruct (Z.ltb_spec (datap s) (slen (buf d))); [lia|reflexivity].
Qed.

(** X1: the only error [Byte] returns is [io.EOF], whatever errors the
    reader returned; it comes with the byte 0 and a State that has the
    Position of the State [Byte] was called on. Reading on from that
    State, by [Byte] or by [Rune], returns [io.EOF] again and pulls
    nothing: the store stays as it is. *)
Theorem Byte_fails_only_at_the_end_of_input
    (fuel : nat) (s : State) (w : world R) b s' e w1 :
  Byte fuel s w = Done (b, s', Some e) w1 ->
  b = 0 /\ e = EOF /\ State_Position s' = State_Position s
  /\ forall fuel',
       Byte (S fuel') s' w1 = Done (0, s', Some EOF) w1
       /\ Rune (S fuel') s' w1 = Done (0, s', Some EOF) w1.
Proof.
  intros E.
  destruct (Byte_EOF_state _ _ _ _ _ _ _ E)
    as (-> & -> & Ho & Hl & Hc & d & Hd & Hr & Hn & Hp).
  split; [reflexivity|]. split; [reflexivity|]. split.
  - unfold State_Position, State_Line, State_Column. now rewrite Ho, Hl, Hc.
  - intros fuel'. split;
      [eapply Byte_at_end|eapply Rune_at_end]; eassumption.
Qed.

(** *** Positions along a run of Byte calls *)

Lemma readBytes_positions n : forall fuel s (w : world R) bs s' w',
  readBytes n fuel s w = Done (bs, s') w' ->
  0 <= offset s -> 0 <= line s -> 0 <= column s ->
  offset s + Z.of_nat n < 2 ^ 63 ->
  line s + Z.of_nat n < 2 ^ 63 ->
  column s + Z.of_nat n < 2 ^ 63 ->
  length bs = n
  /\ offset s' = offset s + len bs
  /\ line s' = line s + newlines bs
  /\ column s' = column_after (column s) bs
  /\ 0 <= column s' <= column s + len bs.
Proof.
  induction n as [|n IH]; intros fuel s w bs s' w'; cbn [readBytes].
  - intros [= <- <-] **. unfold newlines, len. cbn. repeat split; lia.
  - destruct (Byte fuel s w) as [[[b s1] [e|]] w1| |] eqn:Eb; try discriminate.
    destruct (readBytes n fuel s1 w1) as [[bs1 s2] w2| |] eqn:Er;
      try discriminate.
    intros [= <- <- <-] Ho Hl Hc Hno Hnl Hnc.
    destruct (Byte_position _ _ _ _ _ _ Eb) as (Ho1 & Hnl1 & Hnn1).
    rewrite wrap64_small in Ho1 by lia.
    assert (Hlc : 0 <= line s1 <= line s + 1 /\ 0 <= column s1 <= column s + 1
                  /\ line s1 = line s + (if b =? 10 then 1 else 0)
                  /\ column s1 = (if b =? 10 then 0 else column s + 1)).
    { destruct (Z.eqb_spec b 10) as [E|E].
      - destruct (Hnl1 E) as [-> ->]. rewrite wrap64_small by lia. lia.
      - destruct (Hnn1 E) as [-> ->]. rewrite wrap64_small by lia. lia. }
    destruct Hlc as (Hl1 & Hc1 & Hl1' & Hc1').
    destruct (IH _ _ _ _ _ _ Er) as (I1 & I2 & I3 & I4 & I5); try lia.
    cbn [column_after length]. rewrite <- Hc1'.
    unfold newlines, len in *. cbn [count_occ length].
    split; [lia|]. split; [lia|]. split.
    + rewrite I3, Hl1'.
      destruct (Z.eq_dec b 10) as [E|E]; destruct (Z.eqb_spec b 10); try lia.
    + split; [exact I4|lia].
Qed.

(** X2: after [n] calls of [Byte] that returned the bytes [bs], the
    Position is determined by [bs] alone, wherever the node boundaries
    fall: the offset has grown by [len(bs)], the line by the number of
    line feeds in [bs], and the column counts the bytes since the last
    line feed (short of overflow of the counters). *)
Theorem Byte_positions_follow_the_bytes
    (n fuel : nat) (s : State) (w : world R) bs s' w' :
  readBytes n fuel s w = Done (bs, s') w' ->
  0 <= offset s -> 0 <= line s -> 0 <= column s ->
  offset s + Z.of_nat n < 2 ^ 63 - 1 ->
  line s + Z.of_nat n < 2 ^ 63 - 1 ->
  column s + Z.of_nat n < 2 ^ 63 - 1 ->
  State_Position s'
  = mkPosition (offset s + len bs)
               (line s + newlines bs + 1)
               (column_after (column s) bs + 1).
Proof.
  intros E Ho Hl Hc Hno Hnl Hnc.
  destruct (readBytes_positions _ _ _ _ _ _ _ E) as (I1 & I2 & I3 & I4 & I5);
    try lia.
  assert (0 <= newlines bs <= Z.of_nat n).
  { unfold newlines. pose proof (count_occ_bound Z.eq_dec 10 bs). lia. }
  unfold State_Position, State_Line, State_Column, len in *.
  rewrite I2, I3, <- I4. rewrite !wrap64_small by lia. reflexivity.
Qed.

(** *** What Rune returns *)

Lemma allStateRunes_no_sentinel fuel : forall s (w : world R) out e w1,
  allStateRunes fuel s w = Done (out, e) w1 -> utf8.RuneError ∉ out.
Proof.
  induction fuel as [|fuel IH]; intros s w out e w1; [discriminate|].
  cbn [allStateRunes].
  destruct (Rune (S fuel) s w) as [[[r s'] [e'|]] w0| |] eqn:Er;
    try discriminate.
  - intros [= <- _ _]. apply not_elem_of_nil.
  - destruct (allStateRunes fuel s' w0) as [[rs e0] w2| |] eqn:Ea;
      try discriminate.
    intros [= <- _ _]. apply not_elem_of_cons. split.
    + intros E. symmetry in E. revert E.
      eapply Rune_never_returns_sentinel. exact Er.
    + eapply IH. exact Ea.
Qed.

(** X3: [Rune] never returns the rune U+FFFD without an error, whatever
    the input and the store, so no traversal by [Rune] ever collects
    it. *)
Theorem Rune_never_yields_U_FFFD :
  (forall fuel s (w : world R) r s' w',
     Rune fuel s w = Done (r, s', None) w' -> r <> utf8.RuneError)
  /\ (forall fuel s (w : world R) out e w',
        allStateRunes fuel s w = Done (out, e) w' -> utf8.RuneError ∉ out).
Proof.
  split.
  - intros fuel. apply Rune_never_returns_sentinel.
  - intros fuel. apply allStateRunes_no_sentinel.
Qed.

(** X4: an error [Rune] returns is [io.EOF] or a [RuneError] that carries
    the Position of the State [Rune] was called on, never an error of the
    reader; it comes with the rune 0 and a State that has that same
    Position. *)
Theorem Rune_errors_are_EOF_or_RuneError_here
    (fuel : nat) (s : State) (w : world R) r s' e w1 :
  Rune fuel s w = Done (r, s', Some e) w1 ->
  r = 0 /\ (e = EOF \/ e = RuneError (State_Position s))
  /\ State_Position s' = State_Position s.
Proof.
  revert s w r s' e w1.
  induction fuel as [|fuel IH]; intros s w r s' e w1; simpl; [discriminate|].
  destruct (deref w s) as [d|]; [|discriminate].
  assert (Hacross : forall w0 tail,
            Rune_across s d tail w0 = Done (r, s', Some e) w1 ->
            r = 0 /\ (e = EOF \/ e = RuneError (State_Position s))
            /\ State_Position s' = State_Position s).
  { intros w0 tail. unfold Rune_across.
    destruct (nextDataState s w0) as [ns|]; [|discriminate].
    destruct (deref w0 ns) as [dn|]; [|discriminate]. cbv zeta.
    destruct (utf8.DecodeRune _) as [r1 rs1].
    destruct (r1 =? utf8.RuneError); [|discriminate].
    intros [= <- <- <- _]. auto. }
  assert (Hrec : forall w0,
            match nextDataState s w0 with
            | Some s0 => Rune fuel s0 w0
            | None => Panic
            end = Done (r, s', Some e) w1 ->
            r = 0 /\ (e = EOF \/ e = RuneError (State_Position s))
            /\ State_Position s' = State_Position s).
  { intros w0. destruct (nextDataState s w0) as [s0|] eqn:Hn; [|discriminate].
    intros Hr. apply IH in Hr. apply nextDataState_position in Hn.
    destruct Hn as (_ & Ho & Hl & Hc).
    unfold State_Position, State_Line, State_Column in *.
    now rewrite <- Ho, <- Hl, <- Hc. }
  destruct (datap s <? slen (buf d)).
  - destruct (datap s <? 0); [discriminate|].
    destruct (utf8.DecodeRune _) as [r0 rs0].
    destruct (r0 =? utf8.RuneError).
    + destruct (rd d) as [rdr|], (next d) as [q|].
      * apply Hacross.
      * destruct (extend s d rdr w) as [[] w0| |]; try discriminate. apply Hacross.
      * intros [= <- <- <- _]. auto.
      * intros [= <- <- <- _]. auto.
    + unfold consume. destruct (r0 =? 10); discriminate.
  - destruct (rd d) as [rdr|], (next d) as [q|]; try apply Hrec; try discriminate.
    + destruct (extend s d rdr w) as [[] w0| |]; try discriminate. apply Hrec.
    + intros [= <- <- <- _]. auto.
Qed.

(** *** The store under reads *)

(** X5: a read only adds to the store. After [Byte] or [Rune] every node
    that was there has the reader, error and buffer it had, a [next] that
    was set is the same, a node without reader has got no [next], and the
    bytes of every buffer are what they were. *)
Theorem reads_only_add_to_the_store
    (fuel : nat) (s : State) (w : world R) res w1 :
  Byte fuel s w = Done res w1 \/ Rune fuel s w = Done res w1 ->
  wf_store w = true ->
  extends w w1 /\ wf_store w1 = true
  /\ forall a d, nodes w !! a = Some d -> bytes w1 (buf d) = bytes w (buf d).
Proof.
  intros E Hwf.
  assert (Hx : extends w w1 /\ (wf_store w = true -> wf_store w1 = true)).
  { destruct E as [E|E]; [eapply Byte_store|eapply Rune_store]; exact E. }
  destruct Hx as [Hx Hwf1]. split; [exact Hx|]. split; [auto|].
  intros a d Ha. apply bytes_extends; [exact Hx|].
  eapply wf_store_lookup; eassumption.
Qed.

(** X6: a read that has returned returns the same again, from the same
    State, in the store it left and in any store that other reads have
    extended since, and then leaves the store as it finds it: what was
    pulled once is not pulled again. *)
Theorem single_reads_replay
    (fuel : nat) (s : State) (w : world R) res w1 w' :
  extends w1 w' ->
  (Byte fuel s w = Done res w1 -> Byte fuel s w' = Done res w')
  /\ (wf_store w = true -> Rune fuel s w = Done res w1 ->
      Rune fuel s w' = Done res w').
Proof.
  intros Hx. split.
  - intros E. eapply Byte_replay; eassumption.
  - intros Hwf E. eapply Rune_replay; eassumption.
Qed.

(** *** Rune and Byte *)

(** X7: where [Byte] returns an ASCII byte, or [io.EOF] with the byte 0,
    [Rune] returns the same: that byte as the rune, the same State, the
    same error and the same store. *)
Theorem Rune_agrees_with_Byte_on_ASCII
    (fuel : nat) (s : State) (w : world R) b s' e w1 :
  Byte fuel s w = Done (b, s', e) w1 ->
  b < 0x80 ->
  Rune fuel s w = Done (b, s', e) w1.
Proof.
  revert s w b s' e w1.
  induction fuel as [|fuel IH]; intros s w b s' e w1; [discriminate|].
  cbn [Byte Rune].
  destruct (deref w s) as [d|] eqn:Hd; [|discriminate].
  destruct (Z.ltb_spec (datap s) (slen (buf d))).
  - destruct (Z.ltb_spec (datap s) 0); [discriminate|].
    destruct (bytes w (buf d) !! Z.to_nat (datap s)) as [x|] eqn:Hx;
      [|discriminate].
    rewrite (drop_S _ _ _ Hx).
    destruct (consume s 1 x) as [n0 e0] eqn:Ec.
    intros [= <- <- <- <-] Hb.
    rewrite (DecodeRune_ascii x _ Hb).
    destruct (Z.eqb_spec x utf8.RuneError) as [E|_];
      [unfold utf8.RuneError in E; lia|].
    rewrite Ec. reflexivity.
  - destruct (rd d) as [r|] eqn:Hr, (next d) as [p|] eqn:Hn.
    + destruct (nextDataState s w) as [s0|]; [|discriminate]. apply IH.
    + destruct (extend s d r w) as [[] w2| |]; try discriminate.
      destruct (nextDataState s w2) as [s0|]; [|discriminate]. apply IH.
    + destruct (nextDataState s w) as [s0|]; [|discriminate]. apply IH.
    + intros E _. exact E.
Qed.

(** *** Span extraction *)

(** X8: [keepBytes] between a State and the State reached from it by
    [n] calls of [Byte] returns the [n] bytes those calls returned,
    however many nodes they crossed. *)
Theorem keepBytes_returns_the_bytes_read
    (n fuel : nat) (s : State) (w : world R) bs s' w' :
  readBytes n fuel s w = Done (bs, s') w' ->
  chain_ok w -> state_ok w s ->
  0 <= offset s -> offset s + Z.of_nat n < 2 ^ 63 ->
  keepBytes (length (nodes w')) w' s s' = Some bs.
Proof. apply keepBytes_readBytes. Qed.

(** *** States over a string or a byte slice *)

Lemma Byte_in_buffer fuel s (w : world R) d b rem' :
  deref w s = Some d -> 0 <= datap s < slen (buf d) ->
  drop (Z.to_nat (datap s)) (bytes w (buf d)) = b :: rem' ->
  Byte (S fuel) s w = Done (b, fst (consume s 1 b), None) w.
Proof.
  intros Hd [Hlo Hhi] Hdrop. simpl. rewrite Hd.
  destruct (Z.ltb_spec (datap s) (slen (buf d))); [|lia].
  destruct (Z.ltb_spec (datap s) 0); [lia|].
  assert (Hl : bytes w (buf d) !! Z.to_nat (datap s) = Some b).
  { rewrite <- (Nat.add_0_r (Z.to_nat (datap s))), <- lookup_drop, Hdrop.
    reflexivity. }
  rewrite Hl. unfold consume. destruct (b =? 10); reflexivity.
Qed.

Lemma Rune_in_buffer fuel s (w : world R) d r wd :
  deref w s = Some d -> 0 <= datap s < slen (buf d) ->
  utf8.DecodeRune (drop (Z.to_nat (datap s)) (bytes w (buf d))) = (r, wd) ->
  r <> utf8.RuneError ->
  Rune (S fuel) s w = Done (r, fst (consume s wd r), None) w.
Proof.
  intros Hd [Hlo Hhi] Hdec Hr. simpl. rewrite Hd.
  destruct (Z.ltb_spec (datap s) (slen (buf d))); [|lia].
  destruct (Z.ltb_spec (datap s) 0); [lia|].
  rewrite Hdec. destruct (Z.eqb_spec r utf8.RuneError); [congruence|].
  unfold consume. destruct (r =? 10); reflexivity.
Qed.

Lemma consume_cursor s cnt v :
  - 2 ^ 63 <= datap s + cnt < 2 ^ 63 ->
  sdata (fst (consume s cnt v)) = sdata s
  /\ datap (fst (consume s cnt v)) = datap s + cnt.
Proof.
  intros Hc. unfold consume.
  destruct (v =? 10); cbn; (split; [reflexivity|apply wrap64_small; lia]).
Qed.

Lemma terminal_allStateBytes rem : forall s (w : world R) d,
  deref w s = Some d -> rd d = None -> next d = None ->
  0 <= datap s <= slen (buf d) -> slen (buf d) < 2 ^ 63 ->
  length (bytes w (buf d)) = Z.to_nat (slen (buf d)) ->
  drop (Z.to_nat (datap s)) (bytes w (buf d)) = rem ->
  allStateBytes (S (length rem)) s w = Done (rem, EOF) w.
Proof.
  induction rem as [|b rem IH]; intros s w d Hd Hr Hn Hdp Hcap Hlen Hdrop.
  - cbn [allStateBytes length].
    assert (Hend : ~ datap s < slen (buf d)).
    { apply (f_equal length) in Hdrop. rewrite length_drop, Hlen in Hdrop.
      cbn in Hdrop. lia. }
    rewrite (Byte_at_end 0 s w d Hd Hr Hn Hend). reflexivity.
  - assert (Hin : datap s < slen (buf d)).
    { apply (f_equal length) in Hdrop. rewrite length_drop, Hlen in Hdrop.
      cbn in Hdrop. lia. }
    cbn [length]. change (allStateBytes (S (S (length rem))) s w)
      with (match Byte (S (S (length rem))) s w with
            | Done (b, s', None) w1 =>
              match allStateBytes (S (length rem)) s' w1 with
              | Done (bs, e) w2 => Done (b :: bs, e) w2
              | other => other
              end
            | Done (_, _, Some e) w1 => Done ([], e) w1
            | Panic => Panic
            | OutOfFuel => OutOfFuel
            end).
    rewrite (Byte_in_buffer _ s w d b rem Hd ltac:(lia) Hdrop).
    destruct (consume_cursor s 1 b ltac:(lia)) as [Hs Hp].
    rewrite (IH (fst (consume s 1 b)) w d); [reflexivity|..]; try assumption.
    + unfold deref in *. now rewrite Hs.
    + lia.
    + rewrite Hp. replace (Z.to_nat (datap s + 1))
        with (Z.to_nat (datap s) + 1)%nat by lia.
      rewrite <- drop_drop, Hdrop. reflexivity.
Qed.

Lemma terminal_allStateRunes n : forall rem s (w : world R) d,
  (length rem <= n)%nat ->
  deref w s = Some d -> rd d = None -> next d = None ->
  0 <= datap s <= slen (buf d) -> slen (buf d) < 2 ^ 63 ->
  length (bytes w (buf d)) = Z.to_nat (slen (buf d)) ->
  drop (Z.to_nat (datap s)) (bytes w (buf d)) = rem ->
  utf8.RuneError ∉ utf8.range rem ->
  allStateRunes (S n) s w = Done (utf8.range rem, EOF) w.
Proof.
  induction n as [|n IH]; intros rem s w d Hn0 Hd Hr Hn Hdp Hcap Hlen Hdrop Hv.
  - destruct rem; [|cbn in Hn0; lia].
    cbn [allStateRunes].
    assert (Hend : ~ datap s < slen (buf d)).
    { apply (f_equal length) in Hdrop. rewrite length_drop, Hlen in Hdrop.
      cbn in Hdrop. lia. }
    rewrite (Rune_at_end 0 s w d Hd Hr Hn Hend). reflexivity.
  - change (allStateRunes (S (S n)) s w)
      with (match Rune (S (S n)) s w with
            | Done (r, s', None) w1 =>
              match allStateRunes (S n) s' w1 with
              | Done (rs, e) w2 => Done (r :: rs, e) w2
              | other => other
              end
            | Done (_, _, Some e) w1 => Done ([], e) w1
            | Panic => Panic
            | OutOfFuel => OutOfFuel
            end).
    destruct rem as [|b rem'].
    + assert (Hend : ~ datap s < slen (buf d)).
      { apply (f_equal length) in Hdrop. rewrite length_drop, Hlen in Hdrop.
        cbn in Hdrop. lia. }
      rewrite (Rune_at_end _ s w d Hd Hr Hn Hend). reflexivity.
    + assert (Hin : datap s < slen (buf d)).
      { apply (f_equal length) in Hdrop. rewrite length_drop, Hlen in Hdrop.
        cbn in Hdrop. lia. }
      destruct (utf8.DecodeRune (b :: rem')) as [r wd] eqn:Hdec.
      pose proof (DecodeRune_width (b :: rem')) as (Hw & _ & Hw1).
      rewrite Hdec in Hw, Hw1. cbn [snd] in Hw, Hw1.
      specialize (Hw1 ltac:(discriminate)).
      rewrite (range_cons (b :: rem') r wd ltac:(discriminate) Hdec) in Hv |- *.
      apply not_elem_of_cons in Hv as [Hr0 Hv].
      assert (Hlr : len (b :: rem') = slen (buf d) - datap s).
      { rewrite <- Hdrop. unfold len. rewrite length_drop, Hlen. lia. }
      rewrite <- Hdrop in Hdec.
      rewrite (Rune_in_buffer _ s w d r wd Hd ltac:(lia) Hdec ltac:(congruence)).
      destruct (consume_cursor s wd r ltac:(lia)) as [Hs Hp].
      rewrite (IH (drop (Z.to_nat wd) (b :: rem'))
                  (fst (consume s wd r)) w d); [reflexivity|..];
        try assumption.
      * rewrite length_drop. cbn [length] in *. lia.
      * unfold deref in *. now rewrite Hs.
      * lia.
      * rewrite Hp. replace (Z.to_nat (datap s + wd))
          with (Z.to_nat (datap s) + Z.to_nat wd)%nat by lia.
        rewrite <- drop_drop, Hdrop. reflexivity.
Qed.

Lemma NewStateString_node (w : world R) data :
  let '(s, w1) := NewStateString data w in
  exists d, deref w1 s = Some d /\ rd d = None /\ next d = None
            /\ datap s = 0 /\ slen (buf d) = len data
            /\ bytes w1 (buf d) = data.
Proof.
  unfold NewStateString, newDataString, alloc_array, alloc_data.
  eexists. unfold deref. cbn [sdata nodes arrays].
  split; [apply list_lookup_middle; reflexivity|].
  cbn [Chunked.next buf slen scap rd datap].
  repeat (split; [reflexivity|]).
  unfold bytes, array_at, len. cbn [arrays arr off slen].
  rewrite list_lookup_middle by reflexivity. cbn [default].
  rewrite drop_0, Nat2Z.id. apply take_ge. lia.
Qed.

Lemma NewStateBytes_node (w : world R) (b : slice) :
  length (bytes w b) = Z.to_nat (slen b) ->
  let '(s, w1) := NewStateBytes b w in
  exists d, deref w1 s = Some d /\ rd d = None /\ next d = None
            /\ datap s = 0 /\ slen (buf d) = slen b
            /\ bytes w1 (buf d) = bytes w b.
Proof.
  intros Hlen. unfold NewStateBytes, newDataBytes, copy, make.
  cbn [alloc_array alloc_data].
  eexists. split; [unfold deref; cbn; apply list_lookup_middle; reflexivity|].
  repeat (split; [reflexivity|]).
  unfold bytes at 1, array_at; cbn.
  rewrite list_lookup_middle by reflexivity. cbn.
  rewrite length_replicate, Hlen, Nat.min_id.
  rewrite drop_replicate, Nat.sub_diag. cbn. rewrite app_nil_r.
  rewrite drop_0, take_take, Nat.min_id. apply take_ge. lia.
Qed.

(** X9: a State made by [NewStateString] or [NewStateBytes] gives back
    its input: the traversal by [Byte] returns the bytes of the string,
    or the bytes the slice had, and ends in [io.EOF] (at once when the
    input is empty); when the runes of the input do not include U+FFFD,
    the traversal by [Rune] returns those runes and ends in [io.EOF].
    Neither changes the store. *)
Theorem in_memory_States_read_back_their_input (w : world R) :
  (forall data, len data < 2 ^ 63 ->
     let '(s, w1) := NewStateString data w in
     allStateBytes (S (length data)) s w1 = Done (data, EOF) w1
     /\ (utf8.RuneError ∉ utf8.range data ->
         allStateRunes (S (length data)) s w1
         = Done (utf8.range data, EOF) w1))
  /\ (forall b, length (bytes w b) = Z.to_nat (slen b) -> 0 <= slen b < 2 ^ 63 ->
        let '(s, w1) := NewStateBytes b w in
        allStateBytes (S (length (bytes w b))) s w1
        = Done (bytes w b, EOF) w1
        /\ (utf8.RuneError ∉ utf8.range (bytes w b) ->
            allStateRunes (S (length (bytes w b))) s w1
            = Done (utf8.range (bytes w b), EOF) w1)).
Proof.
  split.
  - intros data Hlen. pose proof (NewStateString_node w data) as Hnode.
    destruct (NewStateString data w) as [s w1].
    destruct Hnode as (d & Hd & Hr & Hn & Hp & Hl & Hb).
    assert (Hdrop : drop (Z.to_nat (datap s)) (bytes w1 (buf d)) = data)
      by (rewrite Hp, Hb; reflexivity).
    assert (Hlb : length (bytes w1 (buf d)) = Z.to_nat (slen (buf d)))
      by (rewrite Hb, Hl; unfold len; lia).
    unfold len in *.
    split; [|intros Hv].
    + eapply terminal_allStateBytes; eauto; lia.
    + eapply terminal_allStateRunes; eauto; lia.
  - intros b Hb Hcap. pose proof (NewStateBytes_node w b Hb) as Hnode.
    destruct (NewStateBytes b w) as [s w1].
    destruct Hnode as (d & Hd & Hr & Hn & Hp & Hl & Hbytes).
    assert (Hdrop : drop (Z.to_nat (datap s)) (bytes w1 (buf d)) = bytes w b)
      by (rewrite Hp, Hbytes; reflexivity).
    split; [|intros Hv].
    + eapply terminal_allStateBytes; eauto; try lia. rewrite Hbytes. lia.
    + eapply terminal_allStateRunes; eauto; try lia. rewrite Hbytes. lia.
Qed.

(** *** A rune within a node *)

(** X17: when the bytes from the cursor to the end of the node start with
    the encoding of a rune other than U+FFFD, [Rune] returns that rune
    and leaves the store alone; the State it returns stands in the same
    node, further on by the width of the encoding, in [datap] and in
    [offset]; and [keepBytes] between the two States returns the bytes of
    the encoding. *)
Theorem Rune_within_a_node
    (fuel k : nat) (s : State) (w : world R) d r wd :
  deref w s = Some d -> 0 <= datap s < slen (buf d) ->
  slen (buf d) <= scap (buf d) -> slen (buf d) < 2 ^ 63 ->
  length (bytes w (buf d)) = Z.to_nat (slen (buf d)) ->
  utf8.DecodeRune (drop (Z.to_nat (datap s)) (bytes w (buf d))) = (r, wd) ->
  r <> utf8.RuneError ->
  exists s',
    Rune (S fuel) s w = Done (r, s', None) w
    /\ sdata s' = sdata s /\ datap s' = datap s + wd
    /\ offset s' = wrap64 (offset s + wd)
    /\ 1 <= wd <= 4
    /\ keepBytes k w s s'
       = Some (take (Z.to_nat wd) (drop (Z.to_nat (datap s)) (bytes w (buf d)))).
Proof.
  intros Hd Hdp Hcap Hlt Hlen Hdec Hr.
  pose proof (DecodeRune_width (drop (Z.to_nat (datap s)) (bytes w (buf d))))
    as (Hw & Hw4 & Hw1).
  rewrite Hdec in Hw, Hw4, Hw1. cbn [snd] in Hw, Hw4, Hw1.
  unfold len in Hw. rewrite length_drop, Hlen in Hw.
  assert (H1 : 1 <= wd).
  { apply Hw1. intros E. apply (f_equal length) in E.
    rewrite length_drop, Hlen in E. cbn in E. lia. }
  exists (fst (consume s wd r)).
  split; [apply (Rune_in_buffer fuel s w d r wd Hd Hdp Hdec Hr)|].
  destruct (consume_cursor s wd r ltac:(lia)) as [Hs Hp].
  split; [exact Hs|]. split; [exact Hp|].
  split; [unfold consume; destruct (r =? 10); reflexivity|].
  split; [lia|].
  unfold keepBytes.
  assert (Hd' : deref w (fst (consume s wd r)) = Some d)
    by (unfold deref in *; now rewrite Hs).
  rewrite Hd, Hd'.
  destruct (decide (sdata s = sdata (fst (consume s wd r)))) as [_|Hne];
    [|congruence].
  rewrite subslice_bytes by lia. rewrite Hp. do 2 f_equal. lia.
Qed.

End Reading.

(** *** Runes behind a strings.Reader *)

(** One [Rune] on a State that stands on a byte of its node, when the
    stream goes on with a rune other than U+FFFD: within the node, or
    into the node that follows. *)
Lemma Rune_at_stream_in_node fuel s (w : world reader) rem d r wd :
  at_stream s w rem -> roomy s w ->
  deref w s = Some d -> datap s < slen (buf d) ->
  utf8.DecodeRune rem = (r, wd) -> r <> utf8.RuneError ->
  exists s' w',
    Rune (S fuel) s w = Done (r, s', None) w'
    /\ at_stream s' w' (drop (Z.to_nat wd) rem) /\ roomy s' w'.
Proof.
  intros (d0 & Hd & Hn & Hdp & Hcap & Hlen & Hrd) Hroomy Hd' Hin Hdec Hr.
  rewrite Hd in Hd'. injection Hd' as ->.
  set (tail := drop (Z.to_nat (datap s)) (bytes w (buf d))) in *.
  assert (Htl : len tail = slen (buf d) - datap s).
  { unfold len, tail. rewrite length_drop, Hlen. lia. }
  assert (Hrem : exists rest, rem = tail ++ rest
                 /\ (rd d = None -> rest = [])).
  { destruct (rd d) as [r0|].
    - destruct Hrd as (_ & _ & rest & _ & ->). exists rest.
      split; [reflexivity|discriminate].
    - exists []. rewrite app_nil_r. auto. }
  destruct Hrem as (rest & Hrem & Hrest).
  pose proof (DecodeRune_width rem) as (Hw & Hw4 & _).
  rewrite Hdec in Hw, Hw4. cbn [snd] in Hw, Hw4.
  destruct (Z_le_gt_dec wd (len tail)) as [Hfit|Hover].
  - (* the encoding lies in this node *)
    assert (Hdt : utf8.DecodeRune tail = (r, wd)).
    { apply (DecodeRune_prefix tail rest); [rewrite <- Hrem|..]; assumption. }
    exists (fst (consume s wd r)), w.
    split; [apply (Rune_in_buffer fuel s w d r wd Hd ltac:(lia) Hdt Hr)|].
    destruct (consume_cursor s wd r ltac:(lia)) as [Hs Hp].
    split.
    + exists d. unfold deref in *. rewrite Hs, Hp.
      split; [assumption|]. split; [assumption|]. split; [lia|].
      split; [assumption|]. split; [assumption|].
      assert (Hdrop : drop (Z.to_nat (datap s + wd)) (bytes w (buf d))
                      = drop (Z.to_nat wd) tail).
      { unfold tail. rewrite drop_drop. f_equal. lia. }
      rewrite Hdrop.
      destruct (rd d) as [r0|].
      * destruct Hrd as (-> & Hpos & rest' & Hrs & Hrem').
        split; [reflexivity|]. split; [assumption|].
        exists rest'. split; [assumption|].
        rewrite Hrem'. apply drop_app_le. unfold len in Hfit. lia.
      * rewrite Hrd. reflexivity.
    + intros d1 Hd1. unfold deref in *. rewrite Hs in Hd1.
      apply Hroomy. exact Hd1.
  - (* the encoding runs into the next node *)
    assert (Hdt : fst (utf8.DecodeRune tail) = utf8.RuneError).
    { destruct (utf8.DecodeRune tail) as [r0 w0] eqn:E0. cbn [fst].
      destruct (Z.eq_dec r0 utf8.RuneError) as [|Hne]; [assumption|].
      exfalso.
      pose proof (DecodeRune_app tail rest r0 w0 E0 Hne) as E1.
      rewrite <- Hrem, Hdec in E1. injection E1 as -> ->.
      pose proof (DecodeRune_width tail) as (Hw0 & _).
      rewrite E0 in Hw0. cbn [snd] in Hw0. lia. }
    destruct (rd d) as [r0|] eqn:Hrd0.
    2:{ rewrite (Hrest eq_refl), app_nil_r in Hrem.
        rewrite <- Hrem, Hdec in Hdt. cbn [fst] in Hdt. congruence. }
    destruct Hrd as (-> & Hpos & rest' & Hrs & Hrem').
    assert (rest' = rest) as ->.
    { rewrite Hrem' in Hrem. eapply app_inv_head. exact Hrem. }
    clear Hrem'.
    assert (Hroom : minDataSize <= scap (buf d)).
    { apply Hroomy; [assumption|congruence]. }
    unfold minDataSize in Hroom.
    destruct (extend_StringsReader s w d rest Hd Hrd0 Hn Hpos Hrs)
      as (d' & w2 & s1 & Hext & Hnds & Hd1 & Hp1 & Hn1 & Hc1 & Hb1 & Hl1
          & Hr1 & Hrd1).
    set (k := Z.to_nat (scap (buf d))) in *.
    set (m := Z.to_nat (Z.min (slen (buf d')) 6)).
    assert (Hm : m = Nat.min 6 (length rest)).
    { unfold m. rewrite Hl1. unfold len. rewrite length_take. lia. }
    assert (Hpre : take m (bytes w2 (buf d')) = take m rest).
    { rewrite Hb1, take_take. f_equal. lia. }
    assert (Hacross : Rune_across s d tail w2
              = Done (r, mkState (sdata s1) (wd - len tail)
                                 (offset s1) (line s1) (column s1), None) w2).
    { unfold Rune_across. rewrite Hnds, Hd1. cbv zeta. fold m.
      rewrite Hpre.
      assert (Hdr : utf8.DecodeRune (tail ++ take m rest) = (r, wd)).
      { apply (DecodeRune_prefix _ (drop m rest)).
        - rewrite <- app_assoc, take_drop, <- Hrem. exact Hdec.
        - assumption.
        - unfold len in *. rewrite length_app, length_take.
          rewrite Hrem, length_app in Hw. lia. }
      rewrite Hdr. destruct (Z.eqb_spec r utf8.RuneError); [congruence|].
      rewrite (wrap64_small (slen (buf d) - datap s)) by lia.
      rewrite wrap64_small by lia. rewrite Htl. reflexivity. }
    assert (Hstep : Rune (S fuel) s w
              = Done (r, mkState (sdata s1) (wd - len tail)
                                 (offset s1) (line s1) (column s1), None) w2).
    { cbn [Rune]. rewrite Hd.
      destruct (Z.ltb_spec (datap s) (slen (buf d))); [|lia].
      destruct (Z.ltb_spec (datap s) 0); [lia|].
      fold tail. destruct (utf8.DecodeRune tail) as [r0 w0].
      cbn [fst] in Hdt. subst r0.
      rewrite Z.eqb_refl, Hrd0, Hn, Hext. exact Hacross. }
    eexists _, _. split; [exact Hstep|].
    assert (Hrest_ne : rest <> []).
    { intros ->. rewrite app_nil_r in Hrem. rewrite Hrem in Hw. lia. }
    assert (Hwl : wd - len tail <= slen (buf d')).
    { rewrite Hl1. unfold len in *. rewrite length_take.
      rewrite Hrem, length_app in Hw. lia. }
    split.
    + exists d'. unfold deref in *. cbn [sdata datap].
      split; [assumption|]. split; [assumption|]. split; [lia|].
      split.
      { rewrite Hc1, Hl1. unfold len. rewrite length_take. lia. }
      split.
      { rewrite Hb1, Hl1. unfold len. now rewrite Nat2Z.id. }
      rewrite Hrd1. destruct rest as [|x rest0]; [congruence|].
      split; [reflexivity|]. split; [lia|].
      eexists. split; [exact Hr1|].
      rewrite Hb1, Hrem.
      rewrite drop_app_ge by (unfold len in Hover; lia).
      rewrite <- (take_drop k (x :: rest0)) at 1.
      rewrite drop_app_le.
      2:{ rewrite Hl1 in Hwl. unfold len in *. lia. }
      f_equal. f_equal. unfold len. lia.
    + intros d1 Hd1' _. unfold deref in *. cbn [sdata] in Hd1'.
      rewrite Hd1 in Hd1'. injection Hd1' as <-. unfold minDataSize. lia.
Qed.

Lemma Rune_at_stream fuel s (w : world reader) rem :
  at_stream s w rem -> roomy s w ->
  match rem with
  | [] => exists s' w', Rune (S (S fuel)) s w = Done (0, s', Some EOF) w'
  | _ :: _ =>
    forall r wd, utf8.DecodeRune rem = (r, wd) -> r <> utf8.RuneError ->
    exists s' w',
      Rune (S (S fuel)) s w = Done (r, s', None) w'
      /\ at_stream s' w' (drop (Z.to_nat wd) rem) /\ roomy s' w'
  end.
Proof.
  intros Hs Hroomy. pose proof Hs as (d & Hd & Hn & Hdp & Hcap & Hlen & Hrd).
  destruct (Z.lt_ge_cases (datap s) (slen (buf d))) as [Hin|Hend].
  - assert (Hne : rem <> []).
    { assert (Ht : drop (Z.to_nat (datap s)) (bytes w (buf d)) <> []).
      { intros E. apply (f_equal length) in E.
        rewrite length_drop, Hlen in E. cbn in E. lia. }
      destruct (rd d).
      - destruct Hrd as (_ & _ & rest & _ & ->).
        intros E. apply app_eq_nil in E as [E _]. congruence.
      - congruence. }
    destruct rem as [|x rem']; [congruence|].
    intros r wd Hdec Hr.
    eapply Rune_at_stream_in_node; eassumption.
  - assert (Hdrop : drop (Z.to_nat (datap s)) (bytes w (buf d)) = [])
      by (apply drop_ge; lia).
    rewrite Hdrop in Hrd.
    destruct (rd d) as [r0|] eqn:Hrd0.
    + destruct Hrd as (-> & Hpos & rest & Hrs & ->). cbn [app].
      destruct (extend_StringsReader s w d rest Hd Hrd0 Hn Hpos Hrs)
        as (d' & w2 & s1 & Hext & Hnds & Hd1 & Hp1 & Hn1 & Hc1 & Hb1 & Hl1
            & Hr1 & Hrd1).
      assert (Hstep : Rune (S (S fuel)) s w = Rune (S fuel) s1 w2).
      { cbn [Rune]. rewrite Hd.
        destruct (Z.ltb_spec (datap s) (slen (buf d))); [lia|].
        rewrite Hrd0, Hn, Hext, Hnds. reflexivity. }
      rewrite Hstep.
      assert (Hroom : minDataSize <= scap (buf d)).
      { apply Hroomy; [assumption|congruence]. }
      destruct rest as [|x rest0].
      * exists s1, w2. apply (Rune_at_end fuel s1 w2 d'); try assumption.
        rewrite Hp1, Hl1, take_nil. unfold len. cbn. lia.
      * intros r wd Hdec Hr.
        assert (Hsl : 0 < slen (buf d')).
        { rewrite Hl1. unfold len. rewrite length_take. cbn [length]. lia. }
        eapply (Rune_at_stream_in_node fuel s1 w2 (x :: rest0) d');
          try eassumption; [| |lia].
        -- exists d'. split; [assumption|]. split; [assumption|].
           split; [lia|]. split.
           { rewrite Hc1, Hl1. unfold len. rewrite length_take. lia. }
           split.
           { rewrite Hb1, Hl1. unfold len. now rewrite Nat2Z.id. }
           rewrite Hrd1. split; [reflexivity|]. split; [lia|].
           eexists. split; [exact Hr1|].
           rewrite Hp1, Hb1. change (Z.to_nat 0) with 0%nat.
           rewrite drop_0. now rewrite take_drop.
        -- intros d1 Hd1' _. rewrite Hd1 in Hd1'. injection Hd1' as <-.
           lia.
    + subst rem. exists s, w. apply (Rune_at_end _ s w d); try assumption. lia.
Qed.

Lemma allStateRunes_at_stream n : forall rem s (w : world reader),
  (length rem <= n)%nat ->
  at_stream s w rem -> roomy s w ->
  utf8.RuneError ∉ utf8.range rem ->
  exists w', allStateRunes (S (S n)) s w = Done (utf8.range rem, EOF) w'.
Proof.
  induction n as [|n IH]; intros rem s w Hn Hs Hroomy Hv;
    change (allStateRunes (S (S ?n)) s w)
      with (match Rune (S (S n)) s w with
            | Done (r, s', None) w1 =>
              match allStateRunes (S n) s' w1 with
              | Done (rs, e) w2 => Done (r :: rs, e) w2
              | other => other
              end
            | Done (_, _, Some e) w1 => Done ([], e) w1
            | Panic => Panic
            | OutOfFuel => OutOfFuel
            end).
  - destruct rem; [|cbn in Hn; lia].
    destruct (Rune_at_stream 0 s w [] Hs Hroomy) as (s' & w' & ->). eauto.
  - pose proof (Rune_at_stream (S n) s w rem Hs Hroomy) as Hstep.
    destruct rem as [|b rem'].
    + destruct Hstep as (s' & w' & ->). eauto.
    + destruct (utf8.DecodeRune (b :: rem')) as [r wd] eqn:Hdec.
      pose proof (DecodeRune_width (b :: rem')) as (Hw & _ & Hw1).
      rewrite Hdec in Hw, Hw1. cbn [snd] in Hw, Hw1.
      specialize (Hw1 ltac:(discriminate)).
      rewrite (range_cons (b :: rem') r wd ltac:(discriminate) Hdec) in Hv |- *.
      apply not_elem_of_cons in Hv as [Hr0 Hv].
      destruct (Hstep r wd eq_refl ltac:(congruence))
        as (s' & w' & -> & Hs' & Hroomy').
      destruct (IH (drop (Z.to_nat wd) (b :: rem')) s' w'
                   ltac:(rewrite length_drop; cbn [length] in *; lia)
                   Hs' Hroomy' Hv) as (w'' & ->).
      eauto.
Qed.

Lemma NewStateReaderSize_roomy data size :
  size < 2 ^ 63 ->
  exists s w,
    NewStateReaderSize 0%nat size (with_reader (StringsReader data)) = Done s w
    /\ at_stream s w data /\ roomy s w.
Proof.
  intros Hsize.
  destruct (NewStateReaderSize_at_stream data size Hsize) as (s & w & E & Hs).
  exists s, w. split; [assumption|]. split; [assumption|].
  revert E. unfold NewStateReaderSize, minDataSize.
  set (size' := Z.max size 8).
  destruct (newDataReaderSize_StringsReader
              (with_reader (StringsReader data)) data size' eq_refl ltac:(lia))
    as (d & w1 & -> & Hnodes & Hn & Hc & Hle & Hb & Hl & Hr & Hrd).
  intros [= <- <-]. intros d1 Hd1 _.
  unfold deref in Hd1. cbn [sdata with_reader nodes length] in Hd1.
  rewrite Hnodes in Hd1. cbn in Hd1. injection Hd1 as <-.
  unfold minDataSize. lia.
Qed.

(** X10: rune by rune, an input behind a [strings.Reader] whose runes do
    not include U+FFFD comes out as the runes [range] yields over the
    whole input, and ends in [io.EOF]: whatever the chunk size asked
    for, and wherever the node boundaries cut the encodings. *)
Theorem StringsReader_runes_whatever_the_chunk_size data size :
  size < 2 ^ 63 ->
  utf8.RuneError ∉ utf8.range data ->
  exists s w w1,
    NewStateReaderSize 0%nat size (with_reader (StringsReader data)) = Done s w
    /\ allStateRunes (S (S (length data))) s w
       = Done (utf8.range data, EOF) w1.
Proof.
  intros Hsize Hv.
  destruct (NewStateReaderSize_roomy data size Hsize) as (s & w & E & Hs & Hr).
  destruct (allStateRunes_at_stream (length data) data s w (le_n _) Hs Hr Hv)
    as (w1 & Ha).
  eauto.
Qed.

(** *** The theorems at sample inputs *)

Example more_samples_computed :
  (short_state, short_store) = short_sample
  /\ (lines_state, lines_store) = lines_sample
  /\ (boundary_state, boundary_store) = boundary_sample.
Proof. repeat split; vm_compute; reflexivity. Qed.

(** After "ab" the next [Byte] fetches an empty last node and returns
    [io.EOF], at Position 2, and so does every read after it. *)
Lemma Byte_fails_only_at_the_end_of_input_witness :
  exists s' w1,
    Byte 2 short_state short_store = Done (0, s', Some EOF) w1
    /\ (0 = 0 /\ EOF = EOF /\ State_Position s' = State_Position short_state
        /\ forall fuel',
             Byte (S fuel') s' w1 = Done (0, s', Some EOF) w1
             /\ Rune (S fuel') s' w1 = Done (0, s', Some EOF) w1).
Proof.
  eexists _, _. split; [vm_compute; reflexivity|].
  eapply (Byte_fails_only_at_the_end_of_input 2 short_state short_store).
  vm_compute. reflexivity.
Defined.

(** Eight bytes into "ab", "cd", "efghij": line 3, column 3. *)
Lemma Byte_positions_follow_the_bytes_witness :
  exists s' w',
    readBytes 8 2 lines_state lines_store = Done (take 8 lines_input, s') w'
    /\ State_Position s'
       = mkPosition (offset lines_state + len (take 8 lines_input))
                    (line lines_state + newlines (take 8 lines_input) + 1)
                    (column_after (column lines_state) (take 8 lines_input) + 1)
    /\ State_Position s' = mkPosition 8 3 3.
Proof.
  eexists _, _. split; [vm_compute; reflexivity|].
  split; [|vm_compute; reflexivity].
  eapply (Byte_positions_follow_the_bytes 8 2 lines_state lines_store).
  - vm_compute. reflexivity.
  - vm_compute. discriminate.
  - vm_compute. discriminate.
  - vm_compute. discriminate.
  - vm_compute. reflexivity.
  - vm_compute. reflexivity.
  - vm_compute. reflexivity.
Defined.

(** The runes of "aaaaBBBBccccDDDDee". *)
Lemma Rune_never_yields_U_FFFD_witness :
  exists out w1,
    allStateRunes 30 replay_state replay_store = Done (out, EOF) w1
    /\ utf8.RuneError ∉ out.
Proof.
  eexists _, _. split; [vm_compute; reflexivity|].
  eapply (proj2 (Rune_never_yields_U_FFFD (R := reader))
                30%nat replay_state replay_store _ EOF).
  vm_compute. reflexivity.
Defined.

(** The truncated encoding at offset 7. *)
Lemma Rune_errors_are_EOF_or_RuneError_here_witness :
  exists w1,
    Rune 1 truncated_state truncated_store
    = Done (0, truncated_state, Some (RuneError (mkPosition 7 1 8))) w1
    /\ (0 = 0
        /\ (RuneError (mkPosition 7 1 8) = EOF
            \/ RuneError (mkPosition 7 1 8)
               = RuneError (State_Position truncated_state))
        /\ State_Position truncated_state = State_Position truncated_state).
Proof.
  eexists. split; [vm_compute; reflexivity|].
  eapply (Rune_errors_are_EOF_or_RuneError_here 1 truncated_state truncated_store).
  vm_compute. reflexivity.
Defined.

(** The [Byte] that fetches the second node of "aaaaBBBBccccDDDDee". *)
Lemma reads_only_add_to_the_store_witness :
  exists res w1,
    Byte 2 boundary_state boundary_store = Done res w1
    /\ wf_store boundary_store = true
    /\ (extends boundary_store w1 /\ wf_store w1 = true
        /\ forall a d, nodes boundary_store !! a = Some d ->
                       bytes w1 (buf d) = bytes boundary_store (buf d))
    /\ length (nodes boundary_store) = 1%nat /\ length (nodes w1) = 2%nat.
Proof.
  eexists _, _. split; [vm_compute; reflexivity|].
  split; [vm_compute; reflexivity|].
  split; [|split; vm_compute; reflexivity].
  eapply (reads_only_add_to_the_store 2 boundary_state boundary_store).
  - left. vm_compute. reflexivity.
  - vm_compute. reflexivity.
Defined.

(** The same [Byte] again, in the store with the second node. *)
Lemma single_reads_replay_witness :
  exists res w1,
    Byte 2 boundary_state boundary_store = Done res w1
    /\ Byte 2 boundary_state w1 = Done res w1.
Proof.
  eexists _, _. split; [vm_compute; reflexivity|].
  refine (proj1 (single_reads_replay 2 boundary_state boundary_store
                   _ _ _ (extends_refl _)) _).
  vm_compute. reflexivity.
Defined.

(** The byte "c" that opens the second node. *)
Lemma Rune_agrees_with_Byte_on_ASCII_witness :
  exists s' w1,
    Byte 2 boundary_state boundary_store = Done (99, s', None) w1
    /\ 99 < 0x80
    /\ Rune 2 boundary_state boundary_store = Done (99, s', None) w1.
Proof.
  eexists _, _. split; [vm_compute; reflexivity|].
  split; [reflexivity|].
  apply Rune_agrees_with_Byte_on_ASCII; [vm_compute; reflexivity|reflexivity].
Defined.

(** The first ten bytes of "aaaaBBBBccccDDDDee", over two nodes. *)
Lemma keepBytes_returns_the_bytes_read_witness :
  exists s' w',
    readBytes 10 2 replay_state replay_store = Done (str "aaaaBBBBcc", s') w'
    /\ keepBytes (length (nodes w')) w' replay_state s'
       = Some (str "aaaaBBBBcc").
Proof.
  eexists _, _. split; [vm_compute; reflexivity|].
  destruct (NewStateReaderSize_ok 0%nat 8
              (with_reader (StringsReader (str "aaaaBBBBccccDDDDee")))
              replay_state replay_store)
    as (Hc & Hs & _);
    [vm_compute; reflexivity | apply chain_ok_empty | reflexivity |].
  eapply (keepBytes_returns_the_bytes_read 10 2 replay_state replay_store).
  - vm_compute. reflexivity.
  - exact Hc.
  - exact Hs.
  - vm_compute. discriminate.
  - vm_compute. reflexivity.
Defined.

(** "1234567" and U+221E, from a string. *)
Lemma in_memory_States_read_back_their_input_witness :
  let data := str "1234567∞" in
  let '(s, w1) := NewStateString data (mkWorld [] [] ([] : list reader)) in
  allStateBytes (S (length data)) s w1 = Done (data, EOF) w1
  /\ allStateRunes (S (length data)) s w1 = Done (utf8.range data, EOF) w1
  /\ utf8.range data = str "1234567" ++ [0x221E].
Proof.
  intros data.
  pose proof (proj1 (in_memory_States_read_back_their_input
                       (mkWorld [] [] ([] : list reader)))
                    data ltac:(vm_compute; reflexivity)) as Hread.
  destruct (NewStateString data (mkWorld [] [] ([] : list reader))) as [s w1].
  destruct Hread as [Hb Hr]. split; [exact Hb|]. split.
  - apply Hr. apply (bool_decide_unpack _). vm_compute. exact I.
  - vm_compute. reflexivity.
Defined.

(** "1234567" and U+221E behind a reader: the encoding of U+221E starts
    with the last byte of the first node. *)
Lemma StringsReader_runes_whatever_the_chunk_size_witness :
  exists s w w1,
    NewStateReaderSize 0%nat 3 (with_reader (StringsReader (str "1234567∞")))
    = Done s w
    /\ allStateRunes (S (S (length (str "1234567∞")))) s w
       = Done (utf8.range (str "1234567∞"), EOF) w1.
Proof.
  apply (StringsReader_runes_whatever_the_chunk_size (str "1234567∞") 3).
  - reflexivity.
  - apply (bool_decide_unpack _). vm_compute. exact I.
Defined.

(** U+221E at the start of the string "∞a". *)
Lemma Rune_within_a_node_witness :
  let w : world reader :=
    mkWorld [str "∞a"] [mkData None None (mkSlice 0 0 4 4) None] [] in
  let s := mkState (Some 0%nat) 0 0 0 0 in
  (s, w) = NewStateString (str "∞a") (mkWorld [] [] [])
  /\ exists s',
       Rune 1 s w = Done (0x221E, s', None) w
       /\ offset s' = 3
       /\ keepBytes 1 w s s' = Some [0xE2; 0x88; 0x9E].
Proof.
  intros w s. split; [vm_compute; reflexivity|].
  destruct (Rune_within_a_node 0 1 s w
              (mkData None None (mkSlice 0 0 4 4) None) 0x221E 3)
    as (s' & Hrune & _ & _ & Ho & _ & Hk).
  - vm_compute. reflexivity.
  - vm_compute. split; [discriminate|reflexivity].
  - vm_compute. discriminate.
  - vm_compute. reflexivity.
  - vm_compute. reflexivity.
  - vm_compute. reflexivity.
  - vm_compute. discriminate.
  - exists s'. split; [exact Hrune|]. split; [exact Ho|exact Hk].
Defined.

End StreamFacts.

(** ** How reads end, and what they report *)

Module ReadFacts.
Import Chunked ChunkedFacts DecoderFacts StreamFacts.

(** Runes that decode without U+FFFD are decoded the same with more
    input behind them. *)
Lemma range_app n : forall pre q,
  (length pre <= n)%nat ->
  utf8.RuneError ∉ utf8.range pre ->
  utf8.range (pre ++ q) = utf8.range pre ++ utf8.range q.
Proof.
  induction n as [|n IH]; intros pre q Hn Hv.
  - destruct pre; [reflexivity|cbn in Hn; lia].
  - destruct pre as [|b t]; [reflexivity|].
    destruct (utf8.DecodeRune (b :: t)) as [r wd] eqn:Hdec.
    pose proof (DecodeRune_width (b :: t)) as (Hw & _ & Hw1).
    rewrite Hdec in Hw, Hw1. cbn [snd] in Hw, Hw1.
    specialize (Hw1 ltac:(discriminate)).
    rewrite (range_cons (b :: t) r wd ltac:(discriminate) Hdec) in Hv |- *.
    apply not_elem_of_cons in Hv as [Hr Hv].
    rewrite (range_cons ((b :: t) ++ q) r wd ltac:(discriminate)
               (DecodeRune_app (b :: t) q r wd Hdec ltac:(congruence))).
    rewrite drop_app_le by (unfold len in Hw; lia).
    rewrite (IH (drop (Z.to_nat wd) (b :: t)) q); [reflexivity| |exact Hv].
    rewrite length_drop. cbn [length] in *. lia.
Qed.

(** A malformed rest of the input begins, as runes, with U+FFFD. *)
Lemma malformed_range bad :
  malformed bad ->
  exists post, utf8.range bad = utf8.RuneError :: post.
Proof.
  intros [Hne Hwf].
  pose proof (DecodeRune_malformed_prefix bad []) as Hd.
  rewrite app_nil_r in Hd. specialize (Hd Hwf).
  destruct (utf8.DecodeRune bad) as [r wd] eqn:Hdec. cbn [fst] in Hd. subst r.
  rewrite (range_cons bad _ wd Hne Hdec). eauto.
Qed.

Section AnyReader.
Context {R : Type} `{Reader R}.

Lemma Rune_error_EOF_or_RuneError fuel : forall s (w : world R) r s' e w1,
  Rune fuel s w = Done (r, s', Some e) w1 ->
  e = EOF \/ exists p, e = RuneError p.
Proof.
  induction fuel as [|fuel IH]; intros s w r s' e w1; simpl; [discriminate|].
  destruct (deref w s) as [d|]; [|discriminate].
  assert (Hacross : forall w0 tail,
            Rune_across s d tail w0 = Done (r, s', Some e) w1 ->
            e = EOF \/ exists p, e = RuneError p).
  { intros w0 tail. unfold Rune_across.
    destruct (nextDataState s w0) as [ns|]; [|discriminate].
    destruct (deref w0 ns) as [dn|]; [|discriminate]. cbv zeta.
    destruct (utf8.DecodeRune _) as [r1 rs1].
    destruct (r1 =? utf8.RuneError); [|discriminate].
    intros [= _ _ <- _]. eauto. }
  assert (Hrec : forall w0,
            match nextDataState s w0 with
            | Some s0 => Rune fuel s0 w0
            | None => Panic
            end = Done (r, s', Some e) w1 ->
            e = EOF \/ exists p, e = RuneError p).
  { intros w0. destruct (nextDataState s w0) as [s0|]; [|discriminate].
    apply IH. }
  destruct (datap s <? slen (buf d)).
  - destruct (datap s <? 0); [discriminate|].
    destruct (utf8.DecodeRune _) as [r0 rs0].
    destruct (r0 =? utf8.RuneError).
    + destruct (rd d) as [rdr|], (next d) as [q|].
      * apply Hacross.
      * destruct (extend s d rdr w) as [[] w0| |]; try discriminate. apply Hacross.
      * intros [= _ _ <- _]. eauto.
      * intros [= _ _ <- _]. eauto.
    + unfold consume. destruct (r0 =? 10); discriminate.
  - destruct (rd d) as [rdr|], (next d) as [q|]; try apply Hrec; try discriminate.
    + destruct (extend s d rdr w) as [[] w0| |]; try discriminate. apply Hrec.
    + intros [= _ _ <- _]. eauto.
Qed.

Lemma allStateRunes_error_kinds fuel : forall s (w : world R) out e w1,
  allStateRunes fuel s w = Done (out, e) w1 ->
  e = EOF \/ exists p, e = RuneError p.
Proof.
  induction fuel as [|fuel IH]; intros s w out e w1; [discriminate|].
  cbn [allStateRunes].
  destruct (Rune (S fuel) s w) as [[[r s'] [e'|]] w0| |] eqn:Er;
    try discriminate.
  - intros [= _ <- _]. eapply Rune_error_EOF_or_RuneError. exact Er.
  - destruct (allStateRunes fuel s' w0) as [[rs e0] w2| |] eqn:Ea;
      try discriminate.
    intros [= _ <- _]. eapply IH. exact Ea.
Qed.

End AnyReader.

(** [Rune] on a State that stands on a byte of its node, when the stream
    goes on with what decodes to U+FFFD. *)
Lemma Rune_at_stream_error_in_node fuel s (w : world reader) rem d :
  at_stream s w rem ->
  deref w s = Some d -> datap s < slen (buf d) ->
  fst (utf8.DecodeRune rem) = utf8.RuneError ->
  exists w',
    Rune (S fuel) s w = Done (0, s, Some (RuneError (State_Position s))) w'.
Proof.
  intros (d0 & Hd & Hn & Hdp & Hcap & Hlen & Hrd) Hd' Hin Hdec.
  rewrite Hd in Hd'. injection Hd' as ->.
  set (tail := drop (Z.to_nat (datap s)) (bytes w (buf d))) in *.
  assert (Hrem : exists rest, rem = tail ++ rest
                 /\ (rd d = None -> rest = [])).
  { destruct (rd d) as [r0|].
    - destruct Hrd as (_ & _ & rest & _ & ->). exists rest.
      split; [reflexivity|discriminate].
    - exists []. rewrite app_nil_r. auto. }
  destruct Hrem as (rest & Hrem & Hrest).
  assert (Hpre : forall j, fst (utf8.DecodeRune (tail ++ take j rest))
                           = utf8.RuneError).
  { intros j. destruct (utf8.DecodeRune (tail ++ take j rest)) as [r0 w0] eqn:E0.
    cbn [fst]. destruct (Z.eq_dec r0 utf8.RuneError) as [|Hne]; [assumption|].
    exfalso.
    pose proof (DecodeRune_app _ (drop j rest) r0 w0 E0 Hne) as E1.
    rewrite <- app_assoc, take_drop, <- Hrem in E1.
    rewrite E1 in Hdec. cbn [fst] in Hdec. congruence. }
  assert (Hdt : fst (utf8.DecodeRune tail) = utf8.RuneError).
  { specialize (Hpre 0%nat). now rewrite take_0, app_nil_r in Hpre. }
  assert (Hstep : Rune (S fuel) s w
            = match rd d, next d with
              | None, _ => Done (0, s, Some (RuneError (State_Position s))) w
              | Some rdr, None =>
                match extend s d rdr w with
                | Done _ w1 => Rune_across s d tail w1
                | Panic => Panic
                | OutOfFuel => OutOfFuel
                end
              | Some _, Some _ => Rune_across s d tail w
              end).
  { cbn [Rune]. rewrite Hd.
    destruct (Z.ltb_spec (datap s) (slen (buf d))); [|lia].
    destruct (Z.ltb_spec (datap s) 0); [lia|].
    fold tail. destruct (utf8.DecodeRune tail) as [r0 w0].
    cbn [fst] in Hdt. subst r0. rewrite Z.eqb_refl. reflexivity. }
  rewrite Hstep, Hn.
  destruct (rd d) as [r0|] eqn:Hrd0; [|eauto].
  destruct Hrd as (-> & Hpos & rest' & Hrs & Hrem').
  assert (rest' = rest) as ->.
  { rewrite Hrem' in Hrem. eapply app_inv_head. exact Hrem. }
  destruct (extend_StringsReader s w d rest Hd Hrd0 Hn Hpos Hrs)
    as (d' & w2 & s1 & Hext & Hnds & Hd1 & Hp1 & Hn1 & Hc1 & Hb1 & Hl1
        & Hr1 & Hrd1).
  rewrite Hext. exists w2.
  unfold Rune_across. rewrite Hnds, Hd1. cbv zeta.
  rewrite Hb1, take_take.
  match goal with
  | |- context [utf8.DecodeRune (tail ++ take ?j rest)] =>
    specialize (Hpre j);
    destruct (utf8.DecodeRune (tail ++ take j rest)) as [r1 w1]
  end.
  cbn [fst] in Hpre. subst r1.
  rewrite Z.eqb_refl. reflexivity.
Qed.

Lemma Rune_at_stream_error fuel s (w : world reader) rem :
  at_stream s w rem -> rem <> [] ->
  fst (utf8.DecodeRune rem) = utf8.RuneError ->
  exists s' p w',
    Rune (S (S fuel)) s w = Done (0, s', Some (RuneError p)) w'.
Proof.
  intros Hs Hne Hdec.
  pose proof Hs as (d & Hd & Hn & Hdp & Hcap & Hlen & Hrd).
  destruct (Z.lt_ge_cases (datap s) (slen (buf d))) as [Hin|Hend].
  - destruct (Rune_at_stream_error_in_node (S fuel) s w rem d Hs Hd Hin Hdec)
      as (w' & E). eauto.
  - assert (Hdrop : drop (Z.to_nat (datap s)) (bytes w (buf d)) = [])
      by (apply drop_ge; lia).
    rewrite Hdrop in Hrd.
    destruct (rd d) as [r0|] eqn:Hrd0; [|congruence].
    destruct Hrd as (-> & Hpos & rest & Hrs & ->). cbn [app] in *.
    destruct (extend_StringsReader s w d rest Hd Hrd0 Hn Hpos Hrs)
      as (d' & w2 & s1 & Hext & Hnds & Hd1 & Hp1 & Hn1 & Hc1 & Hb1 & Hl1
          & Hr1 & Hrd1).
    assert (Hstep : Rune (S (S fuel)) s w = Rune (S fuel) s1 w2).
    { cbn [Rune]. rewrite Hd.
      destruct (Z.ltb_spec (datap s) (slen (buf d))); [lia|].
      rewrite Hrd0, Hn, Hext, Hnds. reflexivity. }
    rewrite Hstep.
    destruct rest as [|x rest0]; [congruence|].
    assert (Hsl : 0 < slen (buf d')).
    { rewrite Hl1. unfold len. rewrite length_take. cbn [length]. lia. }
    destruct (Rune_at_stream_error_in_node fuel s1 w2 (x :: rest0) d')
      as (w' & E); try assumption; [|lia|eauto].
    exists d'. split; [assumption|]. split; [assumption|].
    split; [lia|]. split.
    { rewrite Hc1, Hl1. unfold len. rewrite length_take. lia. }
    split.
    { rewrite Hb1, Hl1. unfold len. now rewrite Nat2Z.id. }
    rewrite Hrd1. split; [reflexivity|]. split; [lia|].
    eexists. split; [exact Hr1|].
    rewrite Hp1, Hb1. change (Z.to_nat 0) with 0%nat.
    rewrite drop_0. now rewrite take_drop.
Qed.

Lemma allStateRunes_at_stream_error n : forall rem s (w : world reader) pre post,
  (length rem <= n)%nat ->
  at_stream s w rem -> roomy s w ->
  utf8.range rem = pre ++ utf8.RuneError :: post ->
  utf8.RuneError ∉ pre ->
  exists p w', allStateRunes (S (S n)) s w = Done (pre, RuneError p) w'.
Proof.
  induction n as [|n IH]; intros rem s w pre post Hn Hs Hroomy Hrange Hv;
    change (allStateRunes (S (S ?n)) s w)
      with (match Rune (S (S n)) s w with
            | Done (r, s', None) w1 =>
              match allStateRunes (S n) s' w1 with
              | Done (rs, e) w2 => Done (r :: rs, e) w2
              | other => other
              end
            | Done (_, _, Some e) w1 => Done ([], e) w1
            | Panic => Panic
            | OutOfFuel => OutOfFuel
            end).
  - destruct rem; [|cbn in Hn; lia].
    rewrite range_nil in Hrange. destruct pre; discriminate.
  - destruct rem as [|b rem'].
    { rewrite range_nil in Hrange. destruct pre; discriminate. }
    destruct (utf8.DecodeRune (b :: rem')) as [r wd] eqn:Hdec.
    pose proof (DecodeRune_width (b :: rem')) as (Hw & _ & Hw1).
    rewrite Hdec in Hw, Hw1. cbn [snd] in Hw, Hw1.
    specialize (Hw1 ltac:(discriminate)).
    rewrite (range_cons (b :: rem') r wd ltac:(discriminate) Hdec) in Hrange.
    destruct pre as [|r0 pre'].
    + injection Hrange as -> _.
      destruct (Rune_at_stream_error (S n) s w (b :: rem') Hs ltac:(discriminate))
        as (s' & p & w' & ->); [rewrite Hdec; reflexivity|]. eauto.
    + injection Hrange as -> Hrange.
      apply not_elem_of_cons in Hv as [Hr0 Hv].
      pose proof (Rune_at_stream (S n) s w (b :: rem') Hs Hroomy) as Hstep.
      destruct (Hstep r0 wd Hdec ltac:(congruence))
        as (s' & w' & -> & Hs' & Hroomy').
      destruct (IH (drop (Z.to_nat wd) (b :: rem')) s' w' pre' post
                   ltac:(rewrite length_drop; cbn [length] in *; lia)
                   Hs' Hroomy' Hrange Hv) as (p & w'' & ->).
      eauto.
Qed.

Lemma NewStateReaderSize_wf data size s w :
  NewStateReaderSize 0%nat size (with_reader (StringsReader data)) = Done s w ->
  wf_store w = true.
Proof.
  unfold NewStateReaderSize.
  destruct (newDataReaderSize _ _ _) as [p w1| |] eqn:E; try discriminate.
  intros [= _ <-].
  destruct (newDataReaderSize_store _ _ _ _ _ E)
    as (_ & content & d & Ha & Hnd & Harr & _).
  apply wf_store_iff. intros a d0 Hl. rewrite Hnd in Hl. rewrite Ha.
  cbn in Hl |- *.
  destruct a as [|a]; cbn in Hl; [|destruct a; discriminate].
  injection Hl as <-. rewrite Harr. cbn. lia.
Qed.


(** C7 (as amended): for every reader and every State, a full traversal
    by [Byte] that has returned ended in [io.EOF], and one by [Rune] in
    [io.EOF] or in a [RuneError]; a second full traversal from the same
    State, in the store the first one left, returns the same output and
    the same error and leaves the store as it found it: nodes, arrays and
    readers are the same, so nothing was pulled again. Over a
    [strings.Reader] the first traversal does return, whatever the input
    and the chunk size: by [Byte] with the whole input and [io.EOF]; by
    [Rune] with the runes of the input and [io.EOF] when U+FFFD is not
    among them, and with the runes before it and a [RuneError] when
    encodings without U+FFFD are followed by a malformed rest. *)
Theorem traversals_replay_and_end :
  (forall (R : Type) (HR : Reader R) (fuel : nat) (s : State) (w : world R),
     (forall out e w1,
        allStateBytes fuel s w = Done (out, e) w1 ->
        e = EOF /\ allStateBytes fuel s w1 = Done (out, EOF) w1)
     /\ (forall out e w1,
           wf_store w = true ->
           allStateRunes fuel s w = Done (out, e) w1 ->
           (e = EOF \/ exists p, e = RuneError p)
           /\ allStateRunes fuel s w1 = Done (out, e) w1))
  /\ (forall (data : list byte) (size : Z),
        size < 2 ^ 63 ->
        exists s w,
          NewStateReaderSize 0%nat size (with_reader (StringsReader data))
          = Done s w
          /\ wf_store w = true
          /\ (exists w1,
                allStateBytes (S (S (length data))) s w = Done (data, EOF) w1
                /\ allStateBytes (S (S (length data))) s w1
                   = Done (data, EOF) w1)
          /\ (utf8.RuneError ∉ utf8.range data ->
              exists w1,
                allStateRunes (S (S (length data))) s w
                = Done (utf8.range data, EOF) w1
                /\ allStateRunes (S (S (length data))) s w1
                   = Done (utf8.range data, EOF) w1)
          /\ (forall pre bad,
                data = pre ++ bad ->
                utf8.RuneError ∉ utf8.range pre -> malformed bad ->
                exists p w1,
                  allStateRunes (S (S (length data))) s w
                  = Done (utf8.range pre, RuneError p) w1
                  /\ allStateRunes (S (S (length data))) s w1
                     = Done (utf8.range pre, RuneError p) w1)).
Proof.
  split.
  - intros R HR fuel s w.
    destruct (traversals_replay fuel s w) as [Hb Hr].
    split; [exact Hb|].
    intros out e w1 Hwf E. split; [|exact (Hr out e w1 Hwf E)].
    eapply allStateRunes_error_kinds. exact E.
  - intros data size Hsize.
    destruct (NewStateReaderSize_roomy data size Hsize)
      as (s & w & E & Hs & Hroomy).
    pose proof (NewStateReaderSize_wf data size s w E) as Hwf.
    exists s, w. split; [exact E|]. split; [exact Hwf|].
    split; [|split].
    + destruct (allStateBytes_at_stream data s w Hs) as (w1 & Ha).
      exists w1. split; [exact Ha|].
      now destruct (allStateBytes_replay _ _ _ _ _ w1 Ha (extends_refl w1)).
    + intros Hv.
      destruct (allStateRunes_at_stream (length data) data s w (le_n _)
                  Hs Hroomy Hv) as (w1 & Ha).
      exists w1. split; [exact Ha|].
      now destruct (allStateRunes_replay _ _ _ _ _ w1 Ha Hwf (extends_refl w1)).
    + intros pre bad -> Hv Hbad.
      destruct (malformed_range bad Hbad) as (post & Hpost).
      assert (Hrange : utf8.range (pre ++ bad)
                       = utf8.range pre ++ utf8.RuneError :: post).
      { rewrite (range_app (length pre) pre bad (le_n _) Hv), Hpost.
        reflexivity. }
      destruct (allStateRunes_at_stream_error (length (pre ++ bad))
                  (pre ++ bad) s w (utf8.range pre) post (le_n _)
                  Hs Hroomy Hrange Hv) as (p & w1 & Ha).
      exists p, w1. split; [exact Ha|].
      now destruct (allStateRunes_replay _ _ _ _ _ w1 Ha Hwf (extends_refl w1)).
Qed.

(** "aaaaBBBBccccDDDDee" in chunks of 8 bytes, "1234567" and U+221E
    across the first boundary, and "1234567" followed by the truncated
    encoding E2 88 and "acbd". *)
Lemma traversals_replay_and_end_witness :
  (exists w1,
     allStateBytes 30 replay_state replay_store
     = Done (str "aaaaBBBBccccDDDDee", EOF) w1
     /\ allStateBytes 30 replay_state w1
        = Done (str "aaaaBBBBccccDDDDee", EOF) w1)
  /\ wf_store replay_store = true
  /\ (exists w1,
        allStateRunes 30 replay_state replay_store
        = Done (str "aaaaBBBBccccDDDDee", EOF) w1
        /\ allStateRunes 30 replay_state w1
           = Done (str "aaaaBBBBccccDDDDee", EOF) w1)
  /\ 8 < 2 ^ 63
  /\ (exists s w w1,
        NewStateReaderSize 0%nat 8 (with_reader (StringsReader (str "1234567∞")))
        = Done s w
        /\ allStateRunes (S (S (length (str "1234567∞")))) s w
           = Done (utf8.range (str "1234567∞"), EOF) w1
        /\ allStateRunes (S (S (length (str "1234567∞")))) s w1
           = Done (utf8.range (str "1234567∞"), EOF) w1)
  /\ (exists s w p w1,
        NewStateReaderSize 0%nat 8
          (with_reader (StringsReader (str "1234567" ++ [0xE2; 0x88] ++ str "acbd")))
        = Done s w
        /\ allStateRunes
             (S (S (length (str "1234567" ++ [0xE2; 0x88] ++ str "acbd")))) s w
           = Done (utf8.range (str "1234567"), RuneError p) w1
        /\ allStateRunes
             (S (S (length (str "1234567" ++ [0xE2; 0x88] ++ str "acbd")))) s w1
           = Done (utf8.range (str "1234567"), RuneError p) w1).
Proof.
  destruct (proj1 traversals_replay_and_end reader _ 30%nat
              replay_state replay_store) as [Hbytes Hrunes].
  split; [|split; [|split; [|split; [|split]]]].
  - eexists. split; [vm_compute; reflexivity|].
    eapply Hbytes. vm_compute. reflexivity.
  - vm_compute. reflexivity.
  - eexists. split; [vm_compute; reflexivity|].
    eapply Hrunes; vm_compute; reflexivity.
  - reflexivity.
  - destruct (proj2 traversals_replay_and_end (str "1234567∞") 8 eq_refl)
      as (s & w & E & _ & _ & Hr & _).
    destruct Hr as (w1 & H1 & H2).
    { apply (bool_decide_unpack _). vm_compute. exact I. }
    exists s, w, w1. auto.
  - destruct (proj2 traversals_replay_and_end
                (str "1234567" ++ [0xE2; 0x88] ++ str "acbd") 8 eq_refl)
      as (s & w & E & _ & _ & _ & Hm).
    destruct (Hm (str "1234567") ([0xE2; 0x88] ++ str "acbd"))
      as (p & w1 & H1 & H2).
    { reflexivity. }
    { apply (bool_decide_unpack _). vm_compute. exact I. }
    { split; [discriminate|vm_compute; reflexivity]. }
    exists s, w, p, w1. auto.
Defined.

(** "ab", the byte FF, which no encoding contains, and "cd" behind a
    [strings.Reader]: the traversal by [Rune] returns "ab" and ends in a
    [RuneError], not in [io.EOF], the first time and the second. *)
Lemma rune_traversal_ends_in_RuneError :
  match chunked8 (str "ab" ++ [0xFF] ++ str "cd") 0 with
  | Done s w =>
    match allStateRunes 8 s w with
    | Done (out, e) w1 =>
      out = str "ab" /\ e = RuneError (mkPosition 2 1 3) /\ e <> EOF
      /\ allStateRunes 8 s w1 = Done (out, e) w1
    | _ => False
    end
  | _ => False
  end.
Proof.
  vm_compute.
  split; [reflexivity|]. split; [reflexivity|].
  split; [intro E; discriminate E|reflexivity].
Qed.

(** C6: "1234567", U+221E and the byte FF in chunks of 8 bytes. The
    encoding of U+221E starts with the last byte of the first node; the
    State [Rune] returns for it stands behind it in the second node and
    still has offset 7, where three calls of [Byte] arrive at offset 10.
    The byte FF that follows, at offset 10 of the input, is malformed,
    and [Rune] reports it with Position {7, 1, 8}: that of the first byte
    of U+221E. *)
Theorem malformed_after_straddling_Rune_is_reported_at_stale_Position :
  match chunked8 (str "1234567∞" ++ [0xFF]) 7 with
  | Done s w =>
    State_Position s = mkPosition 7 1 8
    /\ match Rune 1 s w with
       | Done (r, s', None) w1 =>
         r = 0x221E
         /\ match Rune 1 s' w1 with
            | Done (_, _, Some e) _ => e = RuneError (mkPosition 7 1 8)
            | _ => False
            end
       | _ => False
       end
    /\ match skipBytes 3 2 s w with
       | Done s3 w3 =>
         offset s3 = 10
         /\ match Byte 1 s3 w3 with
            | Done (b, _, None) _ => b = 0xFF /\ malformed [b]
            | _ => False
            end
       | _ => False
       end
    /\ match chunked8 (str "1234567∞" ++ [0xFF]) 0 with
       | Done s0 w0 =>
         exists w1, allStateRunes 12 s0 w0
                    = Done (str "1234567" ++ [0x221E],
                            RuneError (mkPosition 7 1 8)) w1
       | _ => False
       end
  | _ => False
  end.
Proof.
  vm_compute.
  split; [reflexivity|]. split; [split; reflexivity|].
  split.
  - split; [reflexivity|]. split; [reflexivity|].
    split; [discriminate|reflexivity].
  - eexists. reflexivity.
Qed.

(** C9: on [State{}] the reads of the streaming State panic at their
    first access to the node, and so does [Byte] of the flat-buffer
    State, at [s.buffer[0]]; [Rune] of the flat-buffer State does not: it
    decodes the empty rest of the nil buffer and returns U+FFFD, the
    State as it was, and a nil error. *)
Theorem zero_State_Rune_returns_on_the_flat_State :
  InMemory.Rune zero = InMemory.Ret utf8.RuneError zero None
  /\ InMemory.Byte zero = InMemory.Panic
  /\ (forall (R : Type) (HR : Reader R) (fuel : nat) (w : world R),
        Rune (S fuel) zero w = Panic /\ Byte (S fuel) zero w = Panic).
Proof.
  split; [vm_compute; reflexivity|]. split; [vm_compute; reflexivity|].
  intros R HR fuel w. split; reflexivity.
Qed.

End ReadFacts.
